(** * docvision: consolidation of line segments (eudoxus.js)

    A shallow embedding of the line-aggregation core of docvision:
    [analyseLines], [consolidateLinesSchemed], [consolidateLines],
    [consolidateLinesSchemedBySlope] and [consolidateLinesBySlope] of
    eudoxus.js, together with the helpers of geometer.js and logician.js
    they call.

    JavaScript numbers are IEEE-754 binary64 values.  The embedding is
    written once over an interface [JSNumber] of the operations the source
    applies to numbers, and is instantiated twice:
    - at Rocq's primitive [float] (binary64, the semantics of the running
      program), where [Math.asin], [Math.acos] and [Array.prototype.sort]
      are provided by the host engine and are taken as parameters;
    - at the real numbers [R], the exact arithmetic the prose of the
      specification is phrased in. *)

From Stdlib Require Import String.
From Stdlib Require Import List ZArith Bool Lia Permutation Sorted.
From Stdlib Require Import Uint63.
From Stdlib Require Import Floats.
From Stdlib Require Import Reals Lra.
Import ListNotations.

Set Implicit Arguments.

(** ** JavaScript numbers *)

(** The operations of the language and of [Math] that the source uses on
    numbers.  [js_lt a b] is [a < b] and [js_le a b] is [a <= b]; the source's
    [a > b] is [js_lt b a].  [Math_sqr x] is [Math.pow(x, 2)].  [js_int z] is
    the integer literal [z]. *)
Class JSNumber (num : Type) : Type := {
  js_add : num -> num -> num;
  js_sub : num -> num -> num;
  js_mul : num -> num -> num;
  js_div : num -> num -> num;
  js_neg : num -> num;
  js_lt : num -> num -> bool;
  js_le : num -> num -> bool;
  js_int : Z -> num;
  Math_abs : num -> num;
  Math_sqrt : num -> num;
  Math_sqr : num -> num;
  Math_min : num -> num -> num;
  Math_max : num -> num -> num;
  Math_asin : num -> num;
  Math_acos : num -> num
}.

Declare Scope js_scope.
Delimit Scope js_scope with js.
Notation "a + b" := (js_add a b) : js_scope.
Notation "a - b" := (js_sub a b) : js_scope.
Notation "a * b" := (js_mul a b) : js_scope.
Notation "a / b" := (js_div a b) : js_scope.
Notation "- a" := (js_neg a) : js_scope.
Notation "a <? b" := (js_lt a b) : js_scope.
Notation "a <=? b" := (js_le a b) : js_scope.
Notation "a >? b" := (js_lt b a) : js_scope.
Notation "a >=? b" := (js_le b a) : js_scope.

(** A flat line [[x0, y0, x1, y1]], and more generally an array of four
    elements. *)
Record Quad (A : Type) : Type := mkQuad { q0 : A; q1 : A; q2 : A; q3 : A }.

(** The elements of a four-element array, in order. *)
Definition elems {A : Type} (q : Quad A) : list A :=
  [q0 q; q1 q; q2 q; q3 q].

(** [Array.prototype.slice(start, end)] for indices within the array. *)
Definition slice {A : Type} (start stop : nat) (a : list A) : list A :=
  firstn (stop - start) (skipn start a).

(** A schemed line: the object [analyseLines] builds.  The keys [xint] and
    [yint] are optional; a key that is present holds a number. *)
Record SchemedLine (num : Type) : Type := mkSchemedLine {
  sl_angle : num;
  sl_length : num;
  sl_coordinates : Quad num;
  sl_xint : option num;
  sl_yint : option num;
  sl_rank : Z
}.

(** A rank/line pair of [consolidateLinesSchemed]. *)
Record BigLine (num : Type) : Type := mkBigLine {
  bl_rank : Z;
  bl_line : Quad num
}.

(** ** logician.js *)

Section Logician.
Context {num : Type} {N : JSNumber num}.
Local Open Scope js_scope.

(** A number or [null].  Arithmetic and relational operators convert
    [null] to [0]. *)
Definition jsval : Type := option num.

Definition ToNumber (v : jsval) : num :=
  match v with
  | Some n => n
  | None => js_int 0
  end.

(** The element [vectorBinaryOp] pushes for one pair: [v1[i] op v0[i]]. *)
Definition binaryOpElement (op : String.string) (v0_v v1_v : jsval) : jsval :=
  if String.eqb op "+"%string then Some (ToNumber v1_v + ToNumber v0_v)
  else if String.eqb op "-"%string then Some (ToNumber v1_v - ToNumber v0_v)
  else if String.eqb op "*"%string then Some (ToNumber v1_v * ToNumber v0_v)
  else if String.eqb op "max"%string then Some (Math_max (ToNumber v1_v) (ToNumber v0_v))
  else if String.eqb op "min"%string then Some (Math_min (ToNumber v1_v) (ToNumber v0_v))
  else None.

(** [vectorBinaryOp op v0 v1]: [null] ([None]) when the lengths differ. *)
Definition vectorBinaryOp (op : String.string) (v0 v1 : list jsval)
  : option (list jsval) :=
  if Nat.eqb (length v0) (length v1)
  then Some (map (fun p => binaryOpElement op (fst p) (snd p)) (combine v0 v1))
  else None.

(** [scalarWithinTolerance a b t]. *)
Definition scalarWithinTolerance (a b t : num) : bool :=
  let vDiff := Math_abs (b - a) in
  let vMax := Math_max (Math_abs a) (Math_abs b) in
  vDiff <? vMax * t.
End Logician.

(** ** geometer.js *)

Section Geometer.
Context {num : Type} {N : JSNumber num}.
Local Open Scope js_scope.

(** [vectorMagnitude v0]: [null] for a [null] argument. *)
Definition vectorMagnitude (v0 : option (list (@jsval num))) : @jsval num :=
  match v0 with
  | None => None
  | Some v =>
      Some (Math_sqrt
        (fold_left (fun magnitudeTotal componentV =>
                      magnitudeTotal + ToNumber componentV * ToNumber componentV)
                   v (js_int 0)))
  end.

Definition vectorDifference (v0 v1 : list (@jsval num)) : option (list jsval) :=
  vectorBinaryOp "-"%string v0 v1.

Definition vectorDistance (v0 v1 : list (@jsval num)) : @jsval num :=
  vectorMagnitude (vectorDifference v0 v1).

(** [vector2dProject v0 v1], on the pairs [(v0[0], v0[1])], [(v1[0], v1[1])]. *)
Definition vector2dProject (v0 v1 : num * num) : num * num :=
  let '(a0, a1) := v0 in
  let '(b0, b1) := v1 in
  ((a0 * (a0 * b0 + a1 * b1)) / (a1 * a1 + a0 * a0),
   (a1 * (a0 * b0 + a1 * b1)) / (a1 * a1 + a0 * a0)).

(** [line2dProjectPoint baseLine projectionPoint]. *)
Definition line2dProjectPoint (baseLine : Quad (@jsval num))
    (projectionPoint : num * num) : num * num :=
  let b0 := ToNumber (q0 baseLine) in
  let b1 := ToNumber (q1 baseLine) in
  let b2 := ToNumber (q2 baseLine) in
  let b3 := ToNumber (q3 baseLine) in
  let relativeProjection :=
    vector2dProject (b2 - b0, b3 - b1)
                    (fst projectionPoint - b0, snd projectionPoint - b1) in
  (fst relativeProjection + b0, snd relativeProjection + b1).

(** [space1dHasPoint [l0, l1] [p]]. *)
Definition space1dHasPoint (l0 l1 p : num) : bool :=
  if (p >=? l0) && (p <=? l1) then true
  else if (p <=? l0) && (p >=? l1) then true
  else false.

(** [space2dHasPoint line point]. *)
Definition space2dHasPoint (line : Quad (@jsval num)) (point : num * num) : bool :=
  if space1dHasPoint (ToNumber (q0 line)) (ToNumber (q2 line)) (fst point)
     && space1dHasPoint (ToNumber (q1 line)) (ToNumber (q3 line)) (snd point)
  then true else false.

(** [line2dProjectedPointWithinTolerance line point tol]. *)
Definition line2dProjectedPointWithinTolerance (line : Quad (@jsval num))
    (point : num * num) (tol : num) : bool :=
  let pointProjected := line2dProjectPoint line point in
  if space2dHasPoint line pointProjected then
    if ToNumber (vectorDistance [Some (fst point); Some (snd point)]
                   [Some (fst pointProjected); Some (snd pointProjected)]) <=? tol
    then true else false
  else false.

(** The accumulator of the loop of [linesSchemedToFlatlineByBounds]:
    [minX], [maxX], [minY], [maxY] (initially [null]) and [signednessNet]. *)
Record BoundsAcc : Type := mkBoundsAcc {
  minX : @jsval num; maxX : @jsval num;
  minY : @jsval num; maxY : @jsval num;
  signednessNet : Z
}.

(** [v == null || v < v], the test the source applies to each bound. *)
Definition boundUnsetOrBelowItself (v : @jsval num) : bool :=
  match v with
  | None => true
  | Some n => n <? n
  end.

(** One iteration of the loop of [linesSchemedToFlatlineByBounds]. *)
Definition boundsStep (acc : BoundsAcc) (line : SchemedLine num) : BoundsAcc :=
  let c := sl_coordinates line in
  let minXT := Math_min (q0 c) (q2 c) in
  let minYT := Math_min (q1 c) (q3 c) in
  let maxXT := Math_max (q0 c) (q2 c) in
  let maxYT := Math_max (q1 c) (q3 c) in
  let zero := js_int 0 in
  let signednessNet' :=
    if ((q2 c - q0 c <? zero) && (q3 c - q1 c >? zero))
       || ((q2 c - q0 c >? zero) && (q3 c - q1 c <? zero))
    then (signednessNet acc - 1)%Z else (signednessNet acc + 1)%Z in
  {| minX := if boundUnsetOrBelowItself (minX acc) then Some minXT else minX acc;
     maxX := if boundUnsetOrBelowItself (maxX acc) then Some maxXT else maxX acc;
     minY := if boundUnsetOrBelowItself (minY acc) then Some minYT else minY acc;
     maxY := if boundUnsetOrBelowItself (maxY acc) then Some maxYT else maxY acc;
     signednessNet := signednessNet' |}.

(** [linesSchemedToFlatlineByBounds lines signed]. *)
Definition linesSchemedToFlatlineByBounds (lines : list (SchemedLine num))
    (signed : bool) : Quad (@jsval num) :=
  let acc := fold_left boundsStep lines
               {| minX := None; maxX := None; minY := None; maxY := None;
                  signednessNet := 0 |} in
  if signed && (signednessNet acc <? 0)%Z
  then mkQuad (minX acc) (maxY acc) (maxX acc) (minY acc)
  else mkQuad (minX acc) (minY acc) (maxX acc) (maxY acc).

(** [lineGroupAndSegmentAdjacent baseGroup testLineFull gap].  The source
    slices the bounds with [slice(0, 2)] and [slice(2, 2)], and the test
    line with [slice(0, 2)] and [slice(2, 4)]. *)
Definition lineGroupAndSegmentAdjacent (baseGroup : list (SchemedLine num))
    (testLineFull : SchemedLine num) (gap : num) : bool :=
  let baseGroupBounds := linesSchemedToFlatlineByBounds baseGroup true in
  let testLine := sl_coordinates testLineFull in
  let boundsArray := elems baseGroupBounds in
  let testArray := map Some (elems testLine) in
  if line2dProjectedPointWithinTolerance baseGroupBounds (q0 testLine, q1 testLine) gap
  then true
  else if line2dProjectedPointWithinTolerance baseGroupBounds (q2 testLine, q3 testLine) gap
  then true
  else if ToNumber (vectorDistance (slice 0 2 boundsArray) (slice 0 2 testArray)) <=? gap
  then true
  else if ToNumber (vectorDistance (slice 2 2 boundsArray) (slice 0 2 testArray)) <=? gap
  then true
  else if ToNumber (vectorDistance (slice 0 2 boundsArray) (slice 2 4 testArray)) <=? gap
  then true
  else if ToNumber (vectorDistance (slice 2 2 boundsArray) (slice 2 4 testArray)) <=? gap
  then true
  else false.
End Geometer.

(** ** eudoxus.js *)

Section Eudoxus.
Context {num : Type} {N : JSNumber num}.
Local Open Scope js_scope.

(** [Array.prototype.sort] of the host engine: it receives the comparison
    function, whose result it converts to a number. *)
Variable Array_sort : forall A : Type, (A -> A -> Z) -> list A -> list A.

(** [const mathPi = Math.acos(-1)]. *)
Definition mathPi : num := Math_acos (- js_int 1).

(** The body of the loop of [analyseLines] for one flat line and its index. *)
Definition analyseLine (lineTemp : Quad num) (lineIndex : Z) : SchemedLine num :=
  let x0 := q0 lineTemp in
  let y0 := q1 lineTemp in
  let x1 := q2 lineTemp in
  let y1 := q3 lineTemp in
  let dist0 := Math_sqrt (Math_sqr (x1 - x0) + Math_sqr (y1 - y0)) in
  let angle0 :=
    if Math_abs (x1 - x0) >? Math_abs (y1 - y0)
    then Math_asin ((y1 - y0) / dist0)
    else Math_acos ((x1 - x0) / dist0) in
  {| sl_angle := angle0;
     sl_length := dist0;
     sl_coordinates := lineTemp;
     sl_xint :=
       if (angle0 >? mathPi / js_int 8) && (angle0 <? mathPi * js_int 7 / js_int 8)
       then Some (x0 - y0 * ((x1 - x0) / (y1 - y0)))
       else None;
     sl_yint :=
       if ((angle0 <? mathPi * js_int 3 / js_int 8)
           && (angle0 >? mathPi * (- js_int 3) / js_int 8))
          || ((angle0 >? mathPi * js_int 5 / js_int 8)
              && (angle0 <? mathPi * js_int 11 / js_int 8))
       then Some (y0 - x0 * ((y1 - y0) / (x1 - x0)))
       else None;
     sl_rank := lineIndex |}.

(** [lines.forEach] of [analyseLines], from index [lineIndex] on. *)
Fixpoint analyseLinesFrom (lineIndex : Z) (lines : list (Quad num))
  : list (SchemedLine num) :=
  match lines with
  | [] => []
  | lineTemp :: rest =>
      analyseLine lineTemp lineIndex :: analyseLinesFrom (lineIndex + 1)%Z rest
  end.

(** [analyseLines lines]. *)
Definition analyseLines (lines : list (Quad num)) : list (SchemedLine num) :=
  analyseLinesFrom 0%Z lines.

(** *** First-fit binning, shared by both grouping loops *)

(** The index of the first element satisfying [p]. *)
Fixpoint findIndex {A : Type} (p : A -> bool) (l : list A) : option nat :=
  match l with
  | [] => None
  | x :: rest => if p x then Some 0%nat else option_map S (findIndex p rest)
  end.

(** [groups[i].push(x)]. *)
Fixpoint pushAt {A : Type} (i : nat) (x : A) (groups : list (list A))
  {struct groups} : list (list A) :=
  match groups, i with
  | [], _ => []
  | g :: rest, O => (g ++ [x]) :: rest
  | g :: rest, S j => g :: pushAt j x rest
  end.

(** One iteration of [schemedLines.forEach]: [groupDest] is the first group
    holding a member that matches; the line is pushed onto it, or onto a new
    group when there is none. *)
Definition firstFit (matches : SchemedLine num -> SchemedLine num -> bool)
    (lineGroups : list (list (SchemedLine num))) (schemedLine : SchemedLine num)
  : list (list (SchemedLine num)) :=
  match findIndex (existsb (matches schemedLine)) lineGroups with
  | Some groupDest => pushAt groupDest schemedLine lineGroups
  | None => lineGroups ++ [[schemedLine]]
  end.

(** The test both keys pass when present on both lines and within [dtol]. *)
Definition interceptsWithin (dtol : num) (a b : option num) : bool :=
  match a, b with
  | Some ia, Some ib => Math_abs (ia - ib) <=? dtol
  | _, _ => false
  end.

(** The match test of the collinearity loop of [consolidateLinesSchemed]. *)
Definition collinearMatch (rtol dtol : num)
    (schemedLine prospectiveLineMatch : SchemedLine num) : bool :=
  if Math_abs (sl_angle schemedLine - sl_angle prospectiveLineMatch) <? rtol
  then interceptsWithin dtol (sl_yint schemedLine) (sl_yint prospectiveLineMatch)
       || interceptsWithin dtol (sl_xint schemedLine) (sl_xint prospectiveLineMatch)
  else false.

(** [lineGroups] of [consolidateLinesSchemed]. *)
Definition collinearityGroups (schemedLines : list (SchemedLine num))
    (rtol dtol : num) : list (list (SchemedLine num)) :=
  fold_left (firstFit (collinearMatch rtol dtol)) schemedLines [].

(** *** Adjacency *)

(** [adjacencyGroupsTemp.forEach] for one line: scans the groups from index
    [adjacencyGroupIndex] on and returns the final [adjacencyAssignment],
    the scanned groups and [adjacencyMerges]. *)
Fixpoint scanAdjacencyGroups (dtol : num) (schemedLine : SchemedLine num)
    (groups : list (list (SchemedLine num))) (adjacencyGroupIndex : nat)
    (adjacencyAssignment : option nat) (adjacencyMerges : list (nat * nat))
  : option nat * list (list (SchemedLine num)) * list (nat * nat) :=
  match groups with
  | [] => (adjacencyAssignment, [], adjacencyMerges)
  | adjacencyGroup :: rest =>
      if lineGroupAndSegmentAdjacent adjacencyGroup schemedLine dtol then
        match adjacencyAssignment with
        | None =>
            let '(a, gs, m) :=
              scanAdjacencyGroups dtol schemedLine rest (S adjacencyGroupIndex)
                (Some adjacencyGroupIndex) adjacencyMerges in
            (a, (adjacencyGroup ++ [schemedLine]) :: gs, m)
        | Some assigned =>
            let '(a, gs, m) :=
              scanAdjacencyGroups dtol schemedLine rest (S adjacencyGroupIndex)
                adjacencyAssignment
                (adjacencyMerges ++ [(assigned, adjacencyGroupIndex)]) in
            (a, adjacencyGroup :: gs, m)
        end
      else
        let '(a, gs, m) :=
          scanAdjacencyGroups dtol schemedLine rest (S adjacencyGroupIndex)
            adjacencyAssignment adjacencyMerges in
        (a, adjacencyGroup :: gs, m)
  end.

(** One iteration of [lineGroup.forEach] on the pair
    ([adjacencyGroupsTemp], [adjacencyMerges]). *)
Definition adjacencyStep (dtol : num)
    (st : list (list (SchemedLine num)) * list (nat * nat))
    (schemedLine : SchemedLine num)
  : list (list (SchemedLine num)) * list (nat * nat) :=
  let '(a, gs, m) :=
    scanAdjacencyGroups dtol schemedLine (fst st) 0 None (snd st) in
  match a with
  | None => (gs ++ [[schemedLine]], m)
  | Some _ => (gs, m)
  end.

(** [adjacencyGroupsTemp] and [adjacencyMerges] after the loop over one
    collinearity group. *)
Definition adjacencyScan (dtol : num) (lineGroup : list (SchemedLine num))
  : list (list (SchemedLine num)) * list (nat * nat) :=
  fold_left (adjacencyStep dtol) lineGroup ([], []).

(** [adjacencyGroupsDestinations]: the source computes this map (and from it
    [mergedGroups]) and, as its comment says, does not use the result. *)
Definition adjacencyGroupsDestinations
    (adjacencyGroupsTemp : list (list (SchemedLine num)))
    (adjacencyMerges : list (nat * nat)) : list nat :=
  fold_left
    (fun dests adjacencyMerge =>
       map (fun d => if Nat.eqb d (snd adjacencyMerge)
                     then fst adjacencyMerge else d) dests)
    adjacencyMerges (seq 0 (length adjacencyGroupsTemp)).

(** [if (adjacencyGroupTemp.length)]. *)
Definition nonEmpty {A : Type} (l : list A) : bool :=
  match l with [] => false | _ :: _ => true end.

(** The groups one collinearity group contributes to [adjacencyGroups]. *)
Definition adjacencyGroupsOf (dtol : num) (lineGroup : list (SchemedLine num))
  : list (list (SchemedLine num)) :=
  filter nonEmpty (fst (adjacencyScan dtol lineGroup)).

(** [adjacencyGroups] of [consolidateLinesSchemed]. *)
Definition adjacencyGroups (dtol : num)
    (lineGroups : list (list (SchemedLine num)))
  : list (list (SchemedLine num)) :=
  flat_map (adjacencyGroupsOf dtol) lineGroups.
(** *** Synthesis of one line per adjacency group *)

(** The variables of the loop over one adjacency group: the bounding box
    ([null] before the first member), [lastAngle] and [rank]. *)
Record BoxAcc : Type := mkBoxAcc {
  xMin : @jsval num; xMax : @jsval num;
  yMin : @jsval num; yMax : @jsval num;
  lastAngle : @jsval num;
  rank : Z
}.

(** [cur == null || t < cur]: the new lower bound. *)
Definition lowerBound (cur : @jsval num) (t : num) : @jsval num :=
  match cur with
  | None => Some t
  | Some c => if t <? c then Some t else cur
  end.

(** [cur == null || t > cur]: the new upper bound. *)
Definition upperBound (cur : @jsval num) (t : num) : @jsval num :=
  match cur with
  | None => Some t
  | Some c => if t >? c then Some t else cur
  end.

(** One iteration of [lineGroup.forEach] in the joining loop. *)
Definition boxStep (schemedLineCount : Z) (acc : BoxAcc)
    (schemedLine : SchemedLine num) : BoxAcc :=
  let c := sl_coordinates schemedLine in
  let txMin := Math_min (q0 c) (q2 c) in
  let tyMin := Math_min (q1 c) (q3 c) in
  let txMax := Math_max (q0 c) (q2 c) in
  let tyMax := Math_max (q1 c) (q3 c) in
  {| xMin := lowerBound (xMin acc) txMin;
     yMin := lowerBound (yMin acc) tyMin;
     xMax := upperBound (xMax acc) txMax;
     yMax := upperBound (yMax acc) tyMax;
     lastAngle := Some (sl_angle schemedLine);
     rank := (rank acc + (schemedLineCount - sl_rank schemedLine))%Z |}.

(** The orientation test on [lastAngle]. *)
Definition risingDiagonal (a : num) : bool :=
  ((a >? js_int 0) && (a <? mathPi / js_int 2))
  || ((a >? mathPi) && (a <? mathPi * js_int 3 / js_int 2))
  || ((a >? - mathPi) && (a <? (- mathPi) / js_int 2)).

(** The rank/line pair pushed onto [bigLines] for one adjacency group, if
    any. *)
Definition bigLineOf (schemedLineCount : Z) (lineGroup : list (SchemedLine num))
  : option (BigLine num) :=
  let acc := fold_left (boxStep schemedLineCount) lineGroup
               {| xMin := None; xMax := None; yMin := None; yMax := None;
                  lastAngle := None; rank := 0 |} in
  match lastAngle acc, xMin acc, yMin acc, xMax acc, yMax acc with
  | Some a, Some x0, Some y0, Some x1, Some y1 =>
      if (x0 <? x1) || (y0 <? y1) then
        if risingDiagonal a
        then Some {| bl_rank := rank acc; bl_line := mkQuad x0 y0 x1 y1 |}
        else Some {| bl_rank := rank acc; bl_line := mkQuad x0 y1 x1 y0 |}
      else None
  | _, _, _, _, _ => None
  end.

(** [bigLines] of [consolidateLinesSchemed]. *)
Definition bigLines (schemedLines : list (SchemedLine num)) (rtol dtol : num)
  : list (BigLine num) :=
  flat_map
    (fun lineGroup =>
       match bigLineOf (Z.of_nat (length schemedLines)) lineGroup with
       | Some b => [b]
       | None => []
       end)
    (adjacencyGroups dtol (collinearityGroups schemedLines rtol dtol)).

(** The comparison function handed to [sort]:
    [function (a, b) { return a["rank"] < b["rank"]; }].  Its boolean result
    reaches the sort as the number 1 or 0. *)
Definition rankComparefn (a b : BigLine num) : Z :=
  Z.b2z (bl_rank a <? bl_rank b)%Z.

(** [bigLinesOrdered] of [consolidateLinesSchemed]. *)
Definition bigLinesOrdered (schemedLines : list (SchemedLine num))
    (rtol dtol : num) : list (BigLine num) :=
  Array_sort rankComparefn (bigLines schemedLines rtol dtol).

(** [consolidateLinesSchemed schemedLines rtol dtol dtolp]. *)
Definition consolidateLinesSchemed (schemedLines : list (SchemedLine num))
    (rtol dtol dtolp : num) : list (Quad num) :=
  map (@bl_line num) (bigLinesOrdered schemedLines rtol dtol).

(** [consolidateLines lines rtol dtol dtolp]. *)
Definition consolidateLines (lines : list (Quad num)) (rtol dtol dtolp : num)
  : list (Quad num) :=
  consolidateLinesSchemed (analyseLines lines) rtol dtol dtolp.

(** *** Grouping by slope and length *)

(** The match test of [consolidateLinesSchemedBySlope].  Every schemed line
    carries the key [length], so the two [in] tests hold. *)
Definition slopeLengthMatch (rtol dtolp : num)
    (schemedLine prospectiveLineMatch : SchemedLine num) : bool :=
  if Math_abs (sl_angle schemedLine - sl_angle prospectiveLineMatch) <? rtol
  then scalarWithinTolerance (sl_length schemedLine)
         (sl_length prospectiveLineMatch) dtolp
  else false.

(** [consolidateLinesSchemedBySlope schemedLines rtol dtol dtolp]. *)
Definition consolidateLinesSchemedBySlope (schemedLines : list (SchemedLine num))
    (rtol dtol dtolp : num) : list (list (SchemedLine num)) :=
  fold_left (firstFit (slopeLengthMatch rtol dtolp)) schemedLines [].

(** [consolidateLinesBySlope lines rtol dtol dtolp]. *)
Definition consolidateLinesBySlope (lines : list (Quad num))
    (rtol dtol dtolp : num) : list (list (SchemedLine num)) :=
  consolidateLinesSchemedBySlope (analyseLines lines) rtol dtol dtolp.
End Eudoxus.

(** ** The binary64 instance *)

(** An integer literal as a binary64 value (exact for the small literals of
    the source). *)
Definition float_of_Z (z : Z) : float :=
  match z with
  | Z0 => 0%float
  | Zpos _ => of_uint63 (Uint63.of_Z z)
  | Zneg p => (- of_uint63 (Uint63.of_Z (Zpos p)))%float
  end.

(** [Math.min] on binary64: NaN if either argument is NaN, and [-0] below
    [+0]. *)
Definition float_min (a b : float) : float :=
  if PrimFloat.is_nan a || PrimFloat.is_nan b then nan
  else if (a <? b)%float then a
  else if (b <? a)%float then b
  else if PrimFloat.get_sign a then a else b.

(** [Math.max] on binary64. *)
Definition float_max (a b : float) : float :=
  if PrimFloat.is_nan a || PrimFloat.is_nan b then nan
  else if (a <? b)%float then b
  else if (b <? a)%float then a
  else if PrimFloat.get_sign a then b else a.

(** JavaScript numbers as binary64 values, over the host's [Math.asin] and
    [Math.acos].  [Math.pow(x, 2)] is the rounded product [x * x]. *)
Definition floatNumber (host_asin host_acos : float -> float) : JSNumber float :=
  {| js_add := PrimFloat.add;
     js_sub := PrimFloat.sub;
     js_mul := PrimFloat.mul;
     js_div := PrimFloat.div;
     js_neg := PrimFloat.opp;
     js_lt := PrimFloat.ltb;
     js_le := PrimFloat.leb;
     js_int := float_of_Z;
     Math_abs := PrimFloat.abs;
     Math_sqrt := PrimFloat.sqrt;
     Math_sqr := fun x => PrimFloat.mul x x;
     Math_min := float_min;
     Math_max := float_max;
     Math_asin := host_asin;
     Math_acos := host_acos |}.

(** *** A reference host *)

(** The binary64 values nearest to pi and pi/2. *)
Definition float_pi : float := 0x1.921fb54442d18p+1%float.
Definition float_half_pi : float := 0x1.921fb54442d18p+0%float.

(** [t / (1 + sqrt (1 + t * t))], the tangent of half the angle whose tangent
    is [t]. *)
Definition halveTangent (t : float) : float :=
  (t / (1 + PrimFloat.sqrt (1 + t * t)))%float.

(** The partial sum [t - t^3/3 + t^5/5 - ...] of the arctangent series, with
    [terms] terms from the one of index [k] (whose numerator is [power]) on. *)
Fixpoint atanSeries (terms : nat) (k : float) (power t2 : float) : float :=
  match terms with
  | O => 0%float
  | S n => (power / k - atanSeries n (k + 2) (power * t2) t2)%float
  end.

(** An arctangent for [|t| <= 1]: three halvings, then the series. *)
Definition refAtan (t : float) : float :=
  let u := halveTangent (halveTangent (halveTangent t)) in
  (8 * atanSeries 14 1 u (u * u))%float.

(** A reference [Math.asin]: NaN outside [-1, 1], the argument itself at
    [+0] and [-0], and [2 * atan (x / (1 + sqrt (1 - x * x)))] elsewhere. *)
Definition refAsin (x : float) : float :=
  if PrimFloat.is_nan x || (1 <? PrimFloat.abs x)%float then nan
  else if PrimFloat.is_zero x then x
  else (2 * refAtan (x / (1 + PrimFloat.sqrt (1 - x * x))))%float.

(** A reference [Math.acos]: NaN outside [-1, 1], [+0] at [1], pi at [-1] and
    pi/2 minus the arcsine elsewhere. *)
Definition refAcos (x : float) : float :=
  if PrimFloat.is_nan x || (1 <? PrimFloat.abs x)%float then nan
  else if (x =? 1)%float then 0%float
  else if (x =? -1)%float then float_pi
  else (float_half_pi - refAsin x)%float.

(** A reference [Array.prototype.sort]: a stable insertion sort that places
    [x] before [y] exactly when [comparefn(x, y) < 0]. *)
Fixpoint insertBy {A : Type} (comparefn : A -> A -> Z) (x : A) (sorted : list A)
  : list A :=
  match sorted with
  | [] => [x]
  | y :: rest =>
      if (comparefn x y <? 0)%Z then x :: y :: rest
      else y :: insertBy comparefn x rest
  end.

Definition refSort (A : Type) (comparefn : A -> A -> Z) (a : list A) : list A :=
  fold_left (fun sorted x => insertBy comparefn x sorted) a [].

(** The binary64 instance over the reference host. *)
Definition refNumber : JSNumber float := floatNumber refAsin refAcos.

(** ** The exact instance *)

Definition Rltb (a b : R) : bool := if Rlt_dec a b then true else false.
Definition Rleb (a b : R) : bool := if Rle_dec a b then true else false.

(** The same operations on real numbers, without rounding, overflow or NaN.
    Division is Rocq's total division, so this instance describes the program
    only where it does not divide by zero.  The program itself runs on
    binary64 ([floatNumber]): a fact proved at this instance idealises the
    program, and carries over only where rounding cannot change it, as in
    statements made of comparisons, [Math.min], [Math.max] and the same
    operations on both sides. *)
Definition realNumber : JSNumber R :=
  {| js_add := Rplus;
     js_sub := Rminus;
     js_mul := Rmult;
     js_div := Rdiv;
     js_neg := Ropp;
     js_lt := Rltb;
     js_le := Rleb;
     js_int := IZR;
     Math_abs := Rabs;
     Math_sqrt := sqrt;
     Math_sqr := Rsqr;
     Math_min := Rmin;
     Math_max := Rmax;
     Math_asin := asin;
     Math_acos := acos |}.

(** ** The adjacency rule in the words of the specification *)

Section AdjacencyRule.
Context {num : Type} {N : JSNumber num}.
Local Open Scope js_scope.

(** (b) for one endpoint [p] of the candidate: its direct distance to one of
    the two endpoints of the bounding line is at most [dtol]. *)
Definition endpointNearBoundsEnd (bounds : Quad (@jsval num)) (p : num * num)
    (dtol : num) : bool :=
  (ToNumber (vectorDistance [q0 bounds; q1 bounds] [Some (fst p); Some (snd p)])
     <=? dtol)
  || (ToNumber (vectorDistance [q2 bounds; q3 bounds] [Some (fst p); Some (snd p)])
        <=? dtol).

(** The candidate is adjacent to the cluster when (a) the projection of one
    of its endpoints onto the cluster's bounding line lies within the line's
    span and within [dtol] of the endpoint, or (b) one of its endpoints is
    within [dtol] of one of the two endpoints of the bounding line. *)
Definition adjacentAsSpecified (cluster : list (SchemedLine num))
    (candidate : SchemedLine num) (dtol : num) : bool :=
  let bounds := linesSchemedToFlatlineByBounds cluster true in
  let c := sl_coordinates candidate in
  (line2dProjectedPointWithinTolerance bounds (q0 c, q1 c) dtol
   || line2dProjectedPointWithinTolerance bounds (q2 c, q3 c) dtol)
  || (endpointNearBoundsEnd bounds (q0 c, q1 c) dtol
      || endpointNearBoundsEnd bounds (q2 c, q3 c) dtol).
End AdjacencyRule.

(** ** Data of the scenarios *)

(** The decimal literals 0.1, 0.4, 1e308 and 1e-200 as JavaScript reads them:
    the nearest binary64 values. *)
Definition tenth : float := 0x1.999999999999ap-4%float.
Definition fourTenths : float := 0x1.999999999999ap-2%float.
Definition float_1e308 : float := 0x1.1ccf385ebc8ap+1023%float.
Definition float_1em200 : float := 0x1.87e92154ef7acp-665%float.

(** The annotations of the collinear segments (0,0,10,0) and (12,0,20,0). *)
Definition gapSegmentA : SchemedLine float :=
  mkSchemedLine 0%float 10%float (mkQuad 0 0 10 0)%float None (Some 0%float) 0.
Definition gapSegmentB : SchemedLine float :=
  mkSchemedLine 0%float 8%float (mkQuad 12 0 20 0)%float None (Some 0%float) 1.

(** A three-way comparison function for descending rank, for contrast with
    [rankComparefn]. *)
Definition descendingRankComparefn {num : Type} (a b : BigLine num) : Z :=
  (bl_rank b - bl_rank a)%Z.

(** ** Signs of binary64 values *)

(** A binary64 value (in its specification form) that is NaN, a zero, or
    negative. *)
Definition sfNotPositive (f : spec_float) : Prop :=
  match f with
  | S754_zero _ | S754_nan => True
  | S754_infinity s | S754_finite s _ _ => s = true
  end.

(** A binary64 value that is a zero or NaN. *)
Definition sfZeroOrNaN (f : spec_float) : Prop :=
  match f with
  | S754_zero _ | S754_nan => True
  | S754_infinity _ | S754_finite _ _ _ => False
  end.

(** A binary64 value that is NaN or has a clear sign bit. *)
Definition sfNotNegative (f : spec_float) : Prop :=
  match f with
  | S754_nan => True
  | S754_zero s | S754_infinity s | S754_finite s _ _ => s = false
  end.

(** ** logician.js: scans of arrays *)

(** The element at position [i] of an array, [None] outside it (where the
    language answers [undefined]). *)
Definition at_ {A : Type} (a : list A) (i : Z) : option A :=
  if (i <? 0)%Z then None else nth_error a (Z.to_nat i).

Section ArrayScans.
Context {A : Type}.

(** *** arrayGetMatchingBounds *)

(** The test [arr[pos] == target] of the loop. *)
Variable looseEq : A -> A -> bool.

(** The loop of [arrayGetMatchingBounds] from position [pos] on, on the pair
    ([matchStart], [matchEnd]). *)
Fixpoint matchingBoundsFrom (target : A) (pos : Z) (arr : list A)
    (st : option Z * option Z) : option Z * option Z :=
  match arr with
  | [] => st
  | x :: rest =>
      matchingBoundsFrom target (pos + 1) rest
        (if looseEq x target
         then (match fst st with None => Some pos | Some s => Some s end,
               Some (pos + 1)%Z)
         else st)
  end.

(** [arrayGetMatchingBounds arr target]: the pair [[matchStart, matchEnd]]. *)
Definition arrayGetMatchingBounds (arr : list A) (target : A)
  : option Z * option Z :=
  matchingBoundsFrom target 0 arr (None, None).

(** *** binRuns *)

(** The truth value of an entry, as [if (val)] reads it. *)
Variable truthy : A -> bool.

(** The variables of the loop of [binRuns]. *)
Record RunScan : Type := mkRunScan {
  runs : list (Z * Z);
  runStart : option Z;
  lastHit : option Z
}.

(** One call of the function handed to [rawSeq.forEach]. *)
Definition binRunsStep (maxGap : Z) (st : RunScan) (val : A) (pos : Z) : RunScan :=
  if truthy val then
    {| runs := runs st;
       runStart := match runStart st with None => Some pos | Some s => Some s end;
       lastHit := Some pos |}
  else
    match lastHit st with
    | Some h =>
        if (pos >? h + maxGap)%Z then
          {| runs := match runStart st with
                     | Some s => runs st ++ [(s, h + 1)%Z]
                     | None => runs st
                     end;
             runStart := None;
             lastHit := None |}
        else st
    | None => st
    end.

(** [rawSeq.forEach] from position [pos] on. *)
Fixpoint binRunsFrom (maxGap : Z) (pos : Z) (rawSeq : list A) (st : RunScan)
  : RunScan :=
  match rawSeq with
  | [] => st
  | val :: rest => binRunsFrom maxGap (pos + 1) rest (binRunsStep maxGap st val pos)
  end.

(** A numeric option of the caller: the number, or the default when the
    argument is [null], [undefined] or NaN ([None]). *)
Definition numberOr (default : Z) (v : option Z) : Z :=
  match v with Some n => n | None => default end.

(** [binRuns rawSeq maxGapI].  Positions and gaps are whole numbers. *)
Definition binRuns (rawSeq : list A) (maxGapI : option Z) : list (Z * Z) :=
  let maxGap := numberOr 0 maxGapI in
  let st := binRunsFrom maxGap 0 rawSeq
              {| runs := []; runStart := None; lastHit := None |} in
  match runStart st, lastHit st with
  | Some s, Some h => runs st ++ [(s, h + 1)%Z]
  | _, _ => runs st
  end.

(** [binRunsSignificant rawSeq maxGapI minLengthI]. *)
Definition binRunsSignificant (rawSeq : list A) (maxGapI minLengthI : option Z)
  : list (Z * Z) :=
  let minLength := numberOr 0 minLengthI in
  filter (fun tv => (snd tv - fst tv >=? minLength)%Z) (binRuns rawSeq maxGapI).
End ArrayScans.

(** [arrayGetZeroBounds arr], on whole numbers. *)
Definition arrayGetZeroBounds (arr : list Z) : option Z * option Z :=
  arrayGetMatchingBounds Z.eqb arr 0%Z.

(** [boundsToWidths boundsList]: [bounds[1] - bounds[0]] when [bounds[0]] is
    not [null] (a [null] end counts as 0), else 0. *)
Definition boundsToWidths (boundsList : list (option Z * option Z)) : list Z :=
  map (fun bounds =>
         match fst bounds with
         | Some b0 => (numberOr 0 (snd bounds) - b0)%Z
         | None => 0%Z
         end) boundsList.

(** One call of the function of [boundsPairsFindExtremaPair] on the pair
    ([leftMin], [rightMax]). *)
Definition extremaStep (st : option Z * option Z) (bounds : option Z * option Z)
  : option Z * option Z :=
  (match fst bounds with
   | Some b0 =>
       match fst st with
       | None => Some b0
       | Some leftMin => if (b0 <? leftMin)%Z then Some b0 else Some leftMin
       end
   | None => fst st
   end,
   match snd bounds with
   | Some b1 =>
       match snd st with
       | None => Some b1
       | Some rightMax => if (b1 >? rightMax)%Z then Some b1 else Some rightMax
       end
   | None => snd st
   end).

(** [boundsPairsFindExtremaPair boundList]. *)
Definition boundsPairsFindExtremaPair (boundList : list (option Z * option Z))
  : option Z * option Z :=
  fold_left extremaStep boundList (None, None).

(** *** arraySubset, groupSubsetLight, groupSubset *)

(** How a call ends: with a value, or with the ReferenceError raised by
    reading a name that is not declared. *)
Inductive Completion (A : Type) : Type :=
| Returned (v : A)
| ThrewReferenceError.
Arguments Returned {A} v.
Arguments ThrewReferenceError {A}.

(** The results of the subset functions: a number or NaN. *)
Inductive SubsetAnswer : Type :=
| answer (n : Z)
| answerNaN.

Section Subsets.
Context {A : Type}.

(** The two equalities on elements: [===], by which [indexOf] searches, and
    [==], by which the loop compares. *)
Variable strictEq : A -> A -> bool.
Variable looseEq : A -> A -> bool.

(** [x === undefined] and [x == undefined] for an element [x]; the second
    holds of [undefined] and of [null]. *)
Variable isUndefined : A -> bool.
Variable nullish : A -> bool.

(** [g0.indexOf(x)], from position [pos] on: -1 when absent. *)
Fixpoint indexOfFrom (x : A) (pos : Z) (g0 : list A) : Z :=
  match g0 with
  | [] => (-1)%Z
  | y :: rest => if strictEq y x then pos else indexOfFrom x (pos + 1) rest
  end.

(** [g0.indexOf(undefined)], from position [pos] on. *)
Fixpoint indexOfUndefinedFrom (pos : Z) (g0 : list A) : Z :=
  match g0 with
  | [] => (-1)%Z
  | y :: rest => if isUndefined y then pos else indexOfUndefinedFrom (pos + 1) rest
  end.

(** [g0.indexOf(g1[0])]; [g1[0]] is [undefined] for the empty array. *)
Definition indexOfFirst (g0 g1 : list A) : Z :=
  match g1 with
  | [] => indexOfUndefinedFrom 0 g0
  | x :: _ => indexOfFrom x 0 g0
  end.

(** [g1[tmpi] == g0[start0 + tmpi]].  A read outside an array (as
    [g0[-1]] when [indexOf] found nothing) gives [undefined], which is [==]
    to [undefined] and to [null] and to nothing else. *)
Definition sameAt (g0 g1 : list A) (start0 tmpi : Z) : bool :=
  match at_ g1 tmpi, at_ g0 (start0 + tmpi) with
  | Some x, Some y => looseEq x y
  | Some x, None => nullish x
  | None, Some y => nullish y
  | None, None => true
  end.

(** The [while] loop of [arraySubset]: the final [tmpi].  Each round
    increases [tmpi], which stays below [g1.length]; [rounds] bounds the
    rounds left. *)
Fixpoint arraySubsetLoop (g0 g1 : list A) (start0 : Z) (rounds : nat) (tmpi : Z)
  : Z :=
  match rounds with
  | O => tmpi
  | S n =>
      if (tmpi <? Z.of_nat (length g1))%Z
         && (tmpi + start0 <? Z.of_nat (length g0))%Z
         && sameAt g0 g1 start0 tmpi
      then arraySubsetLoop g0 g1 start0 n (tmpi + 1)
      else tmpi
  end.

(** [arraySubset g0 g1]: [null] ([None]) when [g0] is the shorter.  [end0]
    is [tmpi], or stays NaN ([None]). *)
Definition arraySubset (g0 g1 : list A) : option Z :=
  if (length g0 <? length g1)%nat then None
  else
    let start0 := indexOfFirst g0 g1 in
    let tmpi := arraySubsetLoop g0 g1 start0 (length g1) 0 in
    let end0 := if (tmpi <=? Z.of_nat (length g1))%Z then Some tmpi else None in
    match end0 with
    | Some e => if (e =? Z.of_nat (length g1))%Z then Some 1%Z else Some 0%Z
    | None => Some 0%Z
    end.

(** [if (arraySubset(...))]: [null] and 0 are false. *)
Definition arraySubsetHolds (g0 g1 : list A) : bool :=
  match arraySubset g0 g1 with
  | Some n => negb (n =? 0)%Z
  | None => false
  end.

(** [groupSubsetLight a0 a1].  The name [a1s] read in the second test is not
    declared in this function or in the module. *)
Definition groupSubsetLight (a0 a1 : list A) : Completion SubsetAnswer :=
  if (length a0 =? length a1)%nat then
    if arraySubsetHolds a0 a1 then Returned (answer 0) else Returned answerNaN
  else ThrewReferenceError.

(** The default [sort()] of the host. *)
Variable Array_sortDefault : list A -> list A.

(** [groupSubset a0 a1]. *)
Definition groupSubset (a0 a1 : list A) : Completion SubsetAnswer :=
  let a0s := Array_sortDefault a0 in
  let a1s := Array_sortDefault a1 in
  groupSubsetLight a0s a1s.
End Subsets.

(** ** logician.js: extrema of arrays and rules *)

Section Extrema.
Context {num : Type} {N : JSNumber num}.
Local Open Scope js_scope.

(** [isNaN] on numbers, and the value NaN. *)
Variable js_isNaN : num -> bool.
Variable js_NaN : num.

(** [arrayMax arr]. *)
Definition arrayMax (arr : list num) : num :=
  fold_left (fun opv iv => if js_isNaN opv || (iv >? opv) then iv else opv)
            arr js_NaN.

(** [arrayMin arr]. *)
Definition arrayMin (arr : list num) : num :=
  fold_left (fun opv iv => if js_isNaN opv || (iv <? opv) then iv else opv)
            arr js_NaN.

(** [arrayMinAbs arr]. *)
Definition arrayMinAbs (arr : list num) : num :=
  fold_left (fun opv iv =>
               if js_isNaN opv || (Math_abs iv <? Math_abs opv) then iv else opv)
            arr js_NaN.

(** [vectorScalarPositiveOrZero iv]: the argument is an array of numbers
    ([inl]) or a number ([inr]). *)
Definition vectorScalarPositiveOrZero (iv : list num + num) : bool :=
  match iv with
  | inl v => if arrayMin v >=? js_int 0 then true else false
  | inr n => if n >=? js_int 0 then true else false
  end.
End Extrema.

(** The options of [binMinimumValueRuns]: [minValue], [maxGap] and
    [minHeight]. *)
Record RunOptions (num : Type) : Type := mkRunOptions {
  minValue : num;
  maxGap : option Z;
  minHeight : option Z
}.

Section ValueRuns.
Context {num : Type} {N : JSNumber num}.
Local Open Scope js_scope.

(** [valuesSignificant]: 1 where the value exceeds [opts.minValue], else 0. *)
Definition valuesSignificant (values : list num) (opts : RunOptions num) : list Z :=
  map (fun lw => if lw >? minValue opts then 1%Z else 0%Z) values.

(** [binMinimumValueRuns values opts]; a number is true as a condition when
    it is not 0. *)
Definition binMinimumValueRuns (values : list num) (opts : RunOptions num)
  : list (Z * Z) :=
  binRunsSignificant (fun v => negb (v =? 0)%Z)
    (valuesSignificant values opts) (maxGap opts) (minHeight opts).
End ValueRuns.

(** A rule of [valueFromRule]: a number, [null], or an object whose keys
    [base], [min], [max] and [value] hold numbers when present and whose key
    [multipliers] holds a dictionary of numbers. *)
Inductive Rule (num : Type) : Type :=
| RuleNumber (n : num)
| RuleNull
| RuleObject (base : option num) (multipliers : option (list (String.string * num)))
             (min max value : option num).
Arguments RuleNull {num}.

Section Rules.
Context {num : Type} {N : JSNumber num}.
Local Open Scope js_scope.

(** The entry of a dictionary under a key, if any. *)
Fixpoint lookupKey (k : String.string) (d : list (String.string * num))
  : option num :=
  match d with
  | [] => None
  | (k', v) :: rest => if String.eqb k' k then Some v else lookupKey k rest
  end.

(** The loop [for (parameterName in vector)], over the entries of [vector]
    in order. *)
Definition addMultiplied (multipliers : option (list (String.string * num)))
    (accumulator : num) (entry : String.string * num) : num :=
  match multipliers with
  | Some ms =>
      match lookupKey (fst entry) ms with
      | Some factor => accumulator + factor * snd entry
      | None => accumulator
      end
  | None => accumulator
  end.

(** [valueFromRule rule vector]; [None] is [null]. *)
Definition valueFromRule (rule : Rule num)
    (vector : option (list (String.string * num))) : option num :=
  match rule with
  | RuleNumber n => Some n
  | RuleNull => None
  | RuleObject base multipliers min max value =>
      let accumulator0 := match base with Some b => b | None => js_int 0 end in
      let accumulator1 :=
        match vector with
        | Some entries => fold_left (addMultiplied multipliers) entries accumulator0
        | None => accumulator0
        end in
      let accumulator2 :=
        match min with
        | Some lo => if accumulator1 <? lo then lo else accumulator1
        | None => accumulator1
        end in
      let accumulator3 :=
        match max with
        | Some hi => if accumulator2 >? hi then hi else accumulator2
        | None => accumulator2
        end in
      match value with
      | Some v => Some v
      | None => Some accumulator3
      end
  end.

(** [valueFromRuleInRules rules ruleName vector fallback]. *)
Definition valueFromRuleInRules (rules : option (list (String.string * Rule num)))
    (ruleName : String.string)
    (vector : option (list (String.string * num))) (fallback : option num)
  : option num :=
  let fix find (d : list (String.string * Rule num)) : option (Rule num) :=
    match d with
    | [] => None
    | (k, r) :: rest => if String.eqb k ruleName then Some r else find rest
    end in
  match rules with
  | Some d =>
      match find d with
      | Some rule => valueFromRule rule vector
      | None => fallback
      end
  | None => fallback
  end.
End Rules.

(** ** geometer.js: points, lines and rectangles *)

Section Shapes.
Context {num : Type} {N : JSNumber num}.
Local Open Scope js_scope.

(** [pointToPointDistance p0 p1]. *)
Definition pointToPointDistance (p0 p1 : num * num) : num :=
  Math_sqrt ((fst p1 - fst p0) * (fst p1 - fst p0)
             + (snd p1 - snd p0) * (snd p1 - snd p0)).

(** [m == 0] and [isNaN(m)] on numbers. *)
Variable js_eqZero : num -> bool.
Variable js_isNaN : num -> bool.

(** [pointToLineDistance m b p0]. *)
Definition pointToLineDistance (m b : num) (p0 : num * num) : num :=
  if js_eqZero m then Math_abs (b - snd p0)
  else if js_isNaN m then Math_abs (b - fst p0)
  else
    let xi := (fst p0 / m - b + snd p0) / (m + js_int 1 / m) in
    let yi := m * xi + b in
    pointToPointDistance p0 (xi, yi).

(** [flatlineToRectangle line]. *)
Definition flatlineToRectangle (line : Quad num) : Quad num :=
  mkQuad (q0 line) (q1 line) (q2 line - q0 line) (q3 line - q1 line).

(** [flatlineToRectangleFixed line]. *)
Definition flatlineToRectangleFixed (line : Quad num) : Quad num :=
  let minX := Math_min (q0 line) (q2 line) in
  let maxX := Math_max (q0 line) (q2 line) in
  let minY := Math_min (q1 line) (q3 line) in
  let maxY := Math_max (q1 line) (q3 line) in
  mkQuad minX minY (maxX - minX) (maxY - minY).

(** [rectangleToFlatline rect]. *)
Definition rectangleToFlatline (rect : Quad num) : Quad num :=
  mkQuad (q0 rect) (q1 rect) (q2 rect + q0 rect) (q3 rect - q1 rect).

(** [flatline2dToPointline line]. *)
Definition flatline2dToPointline (line : Quad num) : (num * num) * (num * num) :=
  ((q0 line, q1 line), (q2 line, q3 line)).

(** [pointline2dToFlatline line]. *)
Definition pointline2dToFlatline (line : (num * num) * (num * num)) : Quad num :=
  mkQuad (fst (fst line)) (snd (fst line)) (fst (snd line)) (snd (snd line)).

(** [rectangleConstrainInRectangle bounds rectI]: the six assignments to
    the copy [rect], in order. *)
Definition rectangleConstrainInRectangle (bounds rectI : Quad num) : Quad num :=
  let r0 := if q0 rectI <? q0 bounds then q0 bounds else q0 rectI in
  let r1 := if q1 rectI <? q1 bounds then q1 bounds else q1 rectI in
  let r2 := if q2 rectI <? js_int 0 then js_int 0 else q2 rectI in
  let r3 := if q3 rectI <? js_int 0 then js_int 0 else q3 rectI in
  let r2' := if r0 + r2 >? q0 bounds + q2 bounds
             then q0 bounds + q2 bounds - r0 else r2 in
  let r3' := if r1 + r3 >? q1 bounds + q3 bounds
             then q1 bounds + q3 bounds - r1 else r3 in
  mkQuad r0 r1 r2' r3'.

(** [rectangleValidate rect] for an array of numbers. *)
Definition rectangleValidate (rect : list num) : bool :=
  match rect with
  | [r0; r1; r2; r3] =>
      if js_isNaN r0 || js_isNaN r1 || js_isNaN r2 || js_isNaN r3 then false
      else if (r0 <? js_int 0) || (r1 <? js_int 0)
              || (r2 <=? js_int 0) || (r3 <=? js_int 0) then false
      else true
  | _ => false
  end.

(** [rectangleValidatePositive rect]. *)
Definition rectangleValidatePositive (rect : list num) : bool :=
  match rect with
  | [r0; r1; r2; r3] =>
      if rectangleValidate rect && (r2 >? js_int 0) && (r3 >? js_int 0)
      then true else false
  | _ => if rectangleValidate rect then true else false
  end.

(** ** rasterer.js: rectangles in an image *)

(** What the rectangle functions read of an image: [img.width()] and
    [img.height()]. *)
Record ImageSize : Type := mkImageSize { imgWidth : num; imgHeight : num }.

(** [rectangleConstrainInImage img rect]. *)
Definition rectangleConstrainInImage (img : ImageSize) (rect : Quad num) : Quad num :=
  rectangleConstrainInRectangle
    (mkQuad (js_int 0) (js_int 0) (imgWidth img) (imgHeight img)) rect.

(** [Math.round]. *)
Variable Math_round : num -> num.

(** [rectangleConstrainValidateInImage img rect]; [None] is [null]. *)
Definition rectangleConstrainValidateInImage (img : option ImageSize)
    (rect : option (Quad num)) : option (Quad num) :=
  match img, rect with
  | Some i, Some r =>
      let rectangleConstrained :=
        rectangleConstrainInImage i
          (mkQuad (Math_round (q0 r)) (Math_round (q1 r))
                  (Math_round (q2 r)) (Math_round (q3 r))) in
      if rectangleValidatePositive (elems rectangleConstrained)
      then Some rectangleConstrained else None
  | _, _ => None
  end.
End Shapes.

(** ** Descriptions of scan states *)

Section ScanStates.
Context {A : Type}.

(** What the pair ([matchStart], [matchEnd]) says of the part [seen] of the
    array scanned so far. *)
Definition boundsDescribe (looseEq : A -> A -> bool) (target : A)
    (seen : list A) (st : option Z * option Z) : Prop :=
  match st with
  | (None, None) => forall x, In x seen -> looseEq x target = false
  | (Some s, Some e) =>
      (exists x, at_ seen s = Some x /\ looseEq x target = true)
      /\ (exists x, at_ seen (e - 1) = Some x /\ looseEq x target = true)
      /\ (forall i x, at_ seen i = Some x -> looseEq x target = true ->
                      (s <= i < e)%Z)
  | _ => False
  end.

(** The entry at position [i] is there and is true as a condition. *)
Definition hitAt (truthy : A -> bool) (l : list A) (i : Z) : Prop :=
  exists v, at_ l i = Some v /\ truthy v = true.

(** The run [a] ends before the run [b] starts, by more than the gap. *)
Definition runsSeparated (maxGap : Z) (a b : Z * Z) : Prop :=
  (snd a < fst b)%Z /\ (snd a + maxGap < fst b)%Z.

(** What the variables of the loop of [binRuns] say of the part [seen] of
    the array scanned so far: the closed runs start and end on hits and are
    separated; an open run goes from [runStart] to [lastHit], both hits,
    after all closed runs; every hit is in a closed run or in the open one. *)
Definition runScanDescribes (truthy : A -> bool) (maxGap : Z)
    (seen : list A) (st : RunScan) : Prop :=
  (forall s e, In (s, e) (runs st) ->
               hitAt truthy seen s /\ hitAt truthy seen (e - 1) /\ (s < e)%Z)
  /\ StronglySorted (runsSeparated maxGap) (runs st)
  /\ match runStart st, lastHit st with
     | None, None =>
         forall s e, In (s, e) (runs st) ->
                     (e < Z.of_nat (length seen)
                      /\ e + maxGap < Z.of_nat (length seen))%Z
     | Some s0, Some h =>
         hitAt truthy seen s0 /\ hitAt truthy seen h /\ (s0 <= h)%Z
         /\ forall s e, In (s, e) (runs st) -> (e < s0 /\ e + maxGap < s0)%Z
     | _, _ => False
     end
  /\ (forall i, hitAt truthy seen i ->
                (exists s e, In (s, e) (runs st) /\ (s <= i < e)%Z)
                \/ (exists s0 h, runStart st = Some s0 /\ lastHit st = Some h
                                 /\ (s0 <= i <= h)%Z)).

End ScanStates.

(** What an extremum ([leftMin] or [rightMax]) says of the ends [ends] it was
    taken over: [null] when they all are, else one of them that the order
    [before] puts before or with every other. *)
Definition extremumOf (before : Z -> Z -> Prop) (ends : list (option Z))
    (m : option Z) : Prop :=
  match m with
  | None => forall v, In v ends -> v = None
  | Some x => In (Some x) ends /\ forall y, In (Some y) ends -> before x y
  end.



(** ** The order of binary64 values *)

(** A key of three integers for every value but NaN: the comparison of two
    values is the lexicographic comparison of their keys. *)
Definition sfKey (f : spec_float) : option (Z * Z * Z) :=
  match f with
  | S754_nan => None
  | S754_zero _ => Some (0, 0, 0)%Z
  | S754_infinity true => Some (-2, 0, 0)%Z
  | S754_infinity false => Some (2, 0, 0)%Z
  | S754_finite true m e => Some (-1, - e, Zneg m)%Z
  | S754_finite false m e => Some (1, e, Zpos m)%Z
  end.

Definition lexCompare (k1 k2 : Z * Z * Z) : comparison :=
  let '(a1, b1, c1) := k1 in
  let '(a2, b2, c2) := k2 in
  match (a1 ?= a2)%Z with
  | Eq => match (b1 ?= b2)%Z with
          | Eq => (c1 ?= c2)%Z
          | r => r
          end
  | r => r
  end.

(** The order of the keys, as a proposition. *)
Definition lexLt (k1 k2 : Z * Z * Z) : Prop :=
  let '(a1, b1, c1) := k1 in
  let '(a2, b2, c2) := k2 in
  (a1 < a2 \/ (a1 = a2 /\ (b1 < b2 \/ (b1 = b2 /\ c1 < c2))))%Z.

(** * Properties *)

Unset Implicit Arguments.

(** ** First-fit binning partitions its input *)

Section FirstFitFacts.
Context {A : Type}.

Lemma findIndex_bound (p : A -> bool) (l : list A) (i : nat) :
  findIndex p l = Some i -> (i < length l)%nat.
Proof.
  revert i; induction l as [|x l IH]; simpl; intros i H.
  - discriminate.
  - destruct (p x).
    + injection H as <-. lia.
    + destruct (findIndex p l) as [j|]; simpl in H; [|discriminate].
      injection H as <-. specialize (IH j eq_refl). lia.
Qed.

Lemma findIndex_none (p : A -> bool) (l : list A) :
  (forall x, In x l -> p x = false) -> findIndex p l = None.
Proof.
  induction l as [|x l IH]; simpl; intros H; [reflexivity|].
  rewrite (H x (or_introl eq_refl)), IH; auto.
Qed.

Lemma pushAt_concat (i : nat) (x : A) (groups : list (list A)) :
  (i < length groups)%nat ->
  Permutation (concat (pushAt i x groups)) (x :: concat groups).
Proof.
  revert i; induction groups as [|g rest IH]; simpl; intros i Hi; [lia|].
  destruct i as [|j]; simpl.
  - rewrite <- app_assoc. simpl. symmetry. apply Permutation_middle.
  - rewrite (IH j) by lia. symmetry. apply Permutation_middle.
Qed.

Lemma pushAt_length (i : nat) (x : A) (groups : list (list A)) :
  length (pushAt i x groups) = length groups.
Proof.
  revert i; induction groups as [|g rest IH]; simpl; intros i; [reflexivity|].
  destruct i; simpl; auto.
Qed.

Lemma pushAt_nonempty (i : nat) (x : A) (groups : list (list A)) :
  Forall (fun g => g <> []) groups ->
  Forall (fun g => g <> []) (pushAt i x groups).
Proof.
  intros H; revert i; induction H as [|g rest Hg Hrest IH]; simpl; intros i.
  - constructor.
  - destruct i; constructor; auto.
    destruct g; discriminate.
Qed.
End FirstFitFacts.

Section GroupingFacts.
Context {num : Type}.
Variable matches : SchemedLine num -> SchemedLine num -> bool.

Lemma firstFit_concat (groups : list (list (SchemedLine num)))
    (s : SchemedLine num) :
  Permutation (concat (firstFit matches groups s)) (s :: concat groups).
Proof.
  unfold firstFit.
  destruct (findIndex (existsb (matches s)) groups) as [i|] eqn:E.
  - apply pushAt_concat. eapply findIndex_bound; eauto.
  - rewrite concat_app. simpl.
    symmetry. apply Permutation_cons_append.
Qed.

Lemma firstFit_nonempty (groups : list (list (SchemedLine num)))
    (s : SchemedLine num) :
  Forall (fun g => g <> []) groups ->
  Forall (fun g => g <> []) (firstFit matches groups s).
Proof.
  intros H. unfold firstFit.
  destruct (findIndex (existsb (matches s)) groups) as [i|].
  - now apply pushAt_nonempty.
  - apply Forall_app. split; auto. repeat constructor. discriminate.
Qed.

Lemma fold_firstFit_partition (lines : list (SchemedLine num)) :
  forall groups,
    Forall (fun g => g <> []) groups ->
    Permutation (concat (fold_left (firstFit matches) lines groups))
                (concat groups ++ lines)
    /\ Forall (fun g => g <> []) (fold_left (firstFit matches) lines groups).
Proof.
  induction lines as [|s lines IH]; simpl; intros groups Hne.
  - rewrite app_nil_r. split; auto.
  - destruct (IH (firstFit matches groups s) (firstFit_nonempty groups s Hne))
      as [Hp Hf].
    split; auto.
    rewrite Hp, firstFit_concat. simpl. apply Permutation_middle.
Qed.

(** When nothing ever matches, every line opens a group of its own. *)
Lemma fold_firstFit_no_match (lines : list (SchemedLine num)) :
  (forall a b, matches a b = false) ->
  forall groups,
    fold_left (firstFit matches) lines groups
    = groups ++ map (fun s => [s]) lines.
Proof.
  intros Hno. induction lines as [|s lines IH]; simpl; intros groups.
  - now rewrite app_nil_r.
  - rewrite IH. unfold firstFit.
    rewrite findIndex_none.
    + now rewrite <- app_assoc.
    + intros g _. induction g as [|b g IHg]; simpl; auto.
      now rewrite Hno.
Qed.
End GroupingFacts.

(** C5. The collinearity groups of [consolidateLinesSchemed] partition the
    input: concatenated, they are a rearrangement of the input sequence (every
    annotated segment occurs in exactly one group, none is duplicated or
    dropped), and every group is non-empty. *)
Theorem collinearityGroups_partition :
  forall (num : Type) (N : JSNumber num)
         (schemedLines : list (SchemedLine num)) (rtol dtol : num),
    Permutation (concat (collinearityGroups schemedLines rtol dtol)) schemedLines
    /\ Forall (fun g => g <> []) (collinearityGroups schemedLines rtol dtol).
Proof.
  intros num N schemedLines rtol dtol. unfold collinearityGroups.
  destruct (fold_firstFit_partition (collinearMatch rtol dtol) schemedLines
              [] (Forall_nil _)) as [Hp Hf].
  split; auto.
Qed.

(** ** Adjacency clusters partition each collinearity group *)

Lemma nonempty_groups_length {A : Type} (groups : list (list A)) :
  Forall (fun g => g <> []) groups -> (length groups <= length (concat groups))%nat.
Proof.
  induction 1 as [|g rest Hg _ IH]; simpl; [lia|].
  rewrite length_app. destruct g; [contradiction|simpl; lia].
Qed.

Lemma filter_nonEmpty_id {A : Type} (groups : list (list A)) :
  Forall (fun g => g <> []) groups -> filter nonEmpty groups = groups.
Proof.
  induction 1 as [|g rest Hg _ IH]; simpl; [reflexivity|].
  destruct g; [contradiction|simpl; now rewrite IH].
Qed.

Section AdjacencyFacts.
Context {num : Type} {N : JSNumber num}.
Variable dtol : num.

Abbreviation nonEmptyGroups := (Forall (fun g : list (SchemedLine num) => g <> [])).

(** Once the line is assigned, the remaining groups are left as they are. *)
Lemma scanAdjacencyGroups_assigned (s : SchemedLine num) :
  forall groups idx a0 merges a gs m,
    scanAdjacencyGroups dtol s groups idx (Some a0) merges = (a, gs, m) ->
    a = Some a0 /\ gs = groups.
Proof.
  induction groups as [|g rest IH]; simpl; intros idx a0 merges a gs m H.
  - injection H as <- <- <-. auto.
  - destruct (lineGroupAndSegmentAdjacent g s dtol).
    + destruct (scanAdjacencyGroups dtol s rest (S idx) (Some a0)
                  (merges ++ [(a0, idx)])) as [[a' gs'] m'] eqn:E.
      injection H as <- <- <-.
      destruct (IH _ _ _ _ _ _ E) as [-> ->]. auto.
    + destruct (scanAdjacencyGroups dtol s rest (S idx) (Some a0) merges)
        as [[a' gs'] m'] eqn:E.
      injection H as <- <- <-.
      destruct (IH _ _ _ _ _ _ E) as [-> ->]. auto.
Qed.

(** An unassigned line is pushed onto at most one group: the first one it
    is adjacent to. *)
Lemma scanAdjacencyGroups_unassigned (s : SchemedLine num) :
  forall groups idx merges a gs m,
    scanAdjacencyGroups dtol s groups idx None merges = (a, gs, m) ->
    (a = None /\ gs = groups)
    \/ (a <> None
        /\ Permutation (concat gs) (s :: concat groups)
        /\ (nonEmptyGroups groups -> nonEmptyGroups gs)).
Proof.
  induction groups as [|g rest IH]; simpl; intros idx merges a gs m H.
  - injection H as <- <- <-. auto.
  - destruct (lineGroupAndSegmentAdjacent g s dtol).
    + destruct (scanAdjacencyGroups dtol s rest (S idx) (Some idx) merges)
        as [[a' gs'] m'] eqn:E.
      injection H as <- <- <-.
      destruct (scanAdjacencyGroups_assigned _ _ _ _ _ _ _ _ E) as [-> ->].
      right. split; [discriminate|]. split.
      * simpl. rewrite <- app_assoc. simpl. symmetry. apply Permutation_middle.
      * intros Hne. inversion Hne; subst. constructor; auto.
        destruct g; discriminate.
    + destruct (scanAdjacencyGroups dtol s rest (S idx) None merges)
        as [[a' gs'] m'] eqn:E.
      injection H as <- <- <-.
      destruct (IH _ _ _ _ _ E) as [[-> ->]|(Ha & Hp & Hne)]; [auto|].
      right. split; auto. split.
      * simpl. rewrite Hp. symmetry. apply Permutation_middle.
      * intros Hall. inversion Hall; subst. constructor; auto.
Qed.

Lemma adjacencyStep_partition (st : list (list (SchemedLine num)) * list (nat * nat))
    (s : SchemedLine num) :
  Permutation (concat (fst (adjacencyStep dtol st s))) (s :: concat (fst st))
  /\ (nonEmptyGroups (fst st) -> nonEmptyGroups (fst (adjacencyStep dtol st s))).
Proof.
  unfold adjacencyStep.
  destruct (scanAdjacencyGroups dtol s (fst st) 0 None (snd st))
    as [[a gs] m] eqn:E.
  destruct (scanAdjacencyGroups_unassigned _ _ _ _ _ _ _ E)
    as [[-> ->]|(Ha & Hp & Hne)]; simpl.
  - split.
    + rewrite concat_app. simpl. symmetry. apply Permutation_cons_append.
    + intros H. apply Forall_app. split; auto. repeat constructor. discriminate.
  - destruct a; [|contradiction]. simpl. auto.
Qed.

Lemma adjacencyScan_partition (lineGroup : list (SchemedLine num)) :
  Permutation (concat (fst (adjacencyScan dtol lineGroup))) lineGroup
  /\ nonEmptyGroups (fst (adjacencyScan dtol lineGroup)).
Proof.
  unfold adjacencyScan.
  assert (G : forall st,
             nonEmptyGroups (fst st) ->
             Permutation (concat (fst (fold_left (adjacencyStep dtol) lineGroup st)))
                         (concat (fst st) ++ lineGroup)
             /\ nonEmptyGroups (fst (fold_left (adjacencyStep dtol) lineGroup st))).
  { induction lineGroup as [|s rest IH]; simpl; intros st Hne.
    - rewrite app_nil_r. auto.
    - destruct (adjacencyStep_partition st s) as [Hp Hf].
      destruct (IH (adjacencyStep dtol st s) (Hf Hne)) as [Hp' Hf'].
      split; auto. rewrite Hp', Hp. simpl. apply Permutation_middle. }
  destruct (G ([], []) (Forall_nil _)) as [Hp Hf]. auto.
Qed.

Lemma adjacencyGroupsOf_partition (lineGroup : list (SchemedLine num)) :
  Permutation (concat (adjacencyGroupsOf dtol lineGroup)) lineGroup
  /\ nonEmptyGroups (adjacencyGroupsOf dtol lineGroup).
Proof.
  unfold adjacencyGroupsOf.
  destruct (adjacencyScan_partition lineGroup) as [Hp Hf].
  rewrite (filter_nonEmpty_id _ Hf). auto.
Qed.

Lemma adjacencyGroups_partition (lineGroups : list (list (SchemedLine num))) :
  Permutation (concat (adjacencyGroups dtol lineGroups)) (concat lineGroups)
  /\ nonEmptyGroups (adjacencyGroups dtol lineGroups).
Proof.
  unfold adjacencyGroups.
  induction lineGroups as [|g rest [IHp IHf]]; simpl.
  - split; constructor.
  - destruct (adjacencyGroupsOf_partition g) as [Hp Hf].
    split.
    + rewrite concat_app, Hp, IHp. reflexivity.
    + apply Forall_app. auto.
Qed.
End AdjacencyFacts.

Section OutputSize.
Context {num : Type} {N : JSNumber num}.

Lemma analyseLinesFrom_length (lines : list (Quad num)) :
  forall lineIndex, length (analyseLinesFrom lineIndex lines) = length lines.
Proof.
  induction lines as [|l rest IH]; simpl; intros lineIndex; auto.
Qed.

Lemma bigLines_length (schemedLines : list (SchemedLine num)) (rtol dtol : num) :
  (length (bigLines schemedLines rtol dtol)
   <= length (adjacencyGroups dtol (collinearityGroups schemedLines rtol dtol)))%nat.
Proof.
  unfold bigLines.
  induction (adjacencyGroups dtol (collinearityGroups schemedLines rtol dtol))
    as [|g rest IH]; simpl; [lia|].
  rewrite length_app.
  destruct (bigLineOf (Z.of_nat (length schemedLines)) g); simpl; lia.
Qed.

Lemma adjacencyGroups_of_input (schemedLines : list (SchemedLine num))
    (rtol dtol : num) :
  let clusters := adjacencyGroups dtol (collinearityGroups schemedLines rtol dtol) in
  Permutation (concat clusters) schemedLines
  /\ Forall (fun c => c <> []) clusters
  /\ (length clusters <= length schemedLines)%nat.
Proof.
  intros clusters.
  destruct (adjacencyGroups_partition dtol (collinearityGroups schemedLines rtol dtol))
    as [Hp Hf].
  destruct (fold_firstFit_partition (collinearMatch rtol dtol) schemedLines
              [] (Forall_nil _)) as [Hq _].
  fold (collinearityGroups schemedLines rtol dtol) in Hq. simpl in Hq.
  assert (Hperm : Permutation (concat clusters) schemedLines)
    by (unfold clusters; now rewrite Hp).
  repeat split; auto.
  rewrite <- (Permutation_length Hperm).
  now apply nonempty_groups_length.
Qed.
End OutputSize.

(** C10. Consolidation never returns more segments than it was given.  Each
    output segment comes from one adjacency cluster; the clusters are
    non-empty and, concatenated, a rearrangement of the annotated input (so
    they are pairwise disjoint and at most as many as the input segments);
    the empty input yields the empty output.  [Array_sort] is the host's
    sort, which returns a rearrangement of its argument. *)
Theorem consolidateLines_no_more_segments :
  forall (num : Type) (N : JSNumber num)
         (Array_sort : forall A : Type, (A -> A -> Z) -> list A -> list A),
    (forall (A : Type) (comparefn : A -> A -> Z) (a : list A),
        Permutation (Array_sort A comparefn a) a) ->
    forall (lines : list (Quad num)) (rtol dtol dtolp : num),
      let clusters :=
        adjacencyGroups dtol (collinearityGroups (analyseLines lines) rtol dtol) in
      (length (consolidateLines Array_sort lines rtol dtol dtolp) <= length clusters)%nat
      /\ Forall (fun c => c <> []) clusters
      /\ Permutation (concat clusters) (analyseLines lines)
      /\ (length (consolidateLines Array_sort lines rtol dtol dtolp) <= length lines)%nat
      /\ consolidateLines Array_sort [] rtol dtol dtolp = [].
Proof.
  intros num N Array_sort Hsort lines rtol dtol dtolp clusters.
  destruct (adjacencyGroups_of_input (analyseLines lines) rtol dtol)
    as (Hperm & Hne & Hlen).
  fold clusters in Hperm, Hne, Hlen.
  assert (Hout : (length (consolidateLines Array_sort lines rtol dtol dtolp)
                  <= length clusters)%nat).
  { unfold consolidateLines, consolidateLinesSchemed, bigLinesOrdered.
    rewrite length_map, (Permutation_length (Hsort _ _ _)).
    apply bigLines_length. }
  repeat split; auto.
  - unfold analyseLines in Hlen. rewrite analyseLinesFrom_length in Hlen. lia.
  - unfold consolidateLines, consolidateLinesSchemed, bigLinesOrdered.
    simpl. unfold bigLines. simpl.
    now rewrite (Permutation_nil (Permutation_sym (Hsort _ rankComparefn []))).
Qed.

(** ** Facts on binary64 numbers *)

Section FloatFacts.
Local Open Scope float_scope.

Lemma float_ltb_nan_r (x : float) : (x <? nan) = false.
Proof.
  rewrite ltb_spec. unfold SFltb. change (Prim2SF nan) with S754_nan.
  destruct (Prim2SF x); reflexivity.
Qed.

Lemma float_ltb_nan_l (x : float) : (nan <? x) = false.
Proof.
  rewrite ltb_spec. unfold SFltb. change (Prim2SF nan) with S754_nan.
  reflexivity.
Qed.

Lemma float_finite_spec (x : float) :
  is_finite x = true ->
  (exists s, Prim2SF x = S754_zero s)
  \/ (exists s m e, Prim2SF x = S754_finite s m e).
Proof.
  unfold is_finite, is_nan, is_infinity.
  rewrite !eqb_spec, abs_spec.
  change (Prim2SF infinity) with (S754_infinity false).
  destruct (Prim2SF x) as [s|s| |s m e]; simpl; intros H;
    try discriminate; eauto; destruct s; discriminate.
Qed.

(** A finite number minus itself is [+0]. *)
Lemma float_sub_diag (x : float) : is_finite x = true -> x - x = 0.
Proof.
  intros H. apply Prim2SF_inj. rewrite sub_spec.
  change (Prim2SF 0) with (S754_zero false).
  destruct (float_finite_spec x H) as [[s ->]|(s & m & e & ->)].
  - destruct s; reflexivity.
  - unfold SF64sub, SFsub. rewrite Z.sub_diag. reflexivity.
Qed.

(** No absolute value is below a tolerance that is not positive. *)
Lemma float_abs_ltb_nonpos (x r : float) :
  (r <=? 0) = true -> (abs x <? r) = false.
Proof.
  rewrite leb_spec, ltb_spec, abs_spec.
  change (Prim2SF 0) with (S754_zero false).
  unfold SFleb, SFltb.
  destruct (Prim2SF r) as [sr|sr| |sr mr er], (Prim2SF x) as [s|s| |s m e];
    simpl; try discriminate; try reflexivity;
    destruct sr; simpl; try discriminate; try reflexivity.
Qed.

(** Rounding keeps a set sign bit. *)
Lemma binary_round_aux_negative (mx ex : Z) (lx : location) :
  sfNotPositive (binary_round_aux prec emax true mx ex lx).
Proof.
  unfold binary_round_aux.
  destruct (shr_fexp prec emax mx ex lx) as [mrs e].
  destruct (shr_fexp prec emax _ e loc_Exact) as [mrs' e'].
  destruct (shr_m mrs'); simpl; auto.
  match goal with |- context [if ?c then _ else _] => destruct c end;
    exact eq_refl.
Qed.

Lemma float_abs_not_negative (x : float) : sfNotNegative (Prim2SF (abs x)).
Proof. rewrite abs_spec. destruct (Prim2SF x); reflexivity. Qed.

Lemma float_max_abs_not_negative (a b : float) :
  sfNotNegative (Prim2SF (float_max (abs a) (abs b))).
Proof.
  unfold float_max.
  destruct (is_nan (abs a) || is_nan (abs b)); [exact I|].
  destruct (abs a <? abs b); [apply float_abs_not_negative|].
  destruct (abs b <? abs a); [apply float_abs_not_negative|].
  destruct (get_sign (abs a)); apply float_abs_not_negative.
Qed.

(** A value that is not negative, times a tolerance that is not positive. *)
Lemma float_mul_not_positive (m t : float) :
  sfNotNegative (Prim2SF m) -> (t <=? 0) = true ->
  sfNotPositive (Prim2SF (m * t)).
Proof.
  rewrite leb_spec, mul_spec. change (Prim2SF 0) with (S754_zero false).
  unfold SFleb, SF64mul.
  destruct (Prim2SF m) as [sm|sm| |sm mm em], (Prim2SF t) as [st|st| |st mt et];
    simpl; intros Hm Ht; subst; try exact I; try discriminate;
    try (destruct st; simpl in *; try discriminate; reflexivity).
  destruct st; [|discriminate]. apply binary_round_aux_negative.
Qed.

Lemma float_abs_ltb_not_positive (x p : float) :
  sfNotPositive (Prim2SF p) -> (abs x <? p) = false.
Proof.
  rewrite ltb_spec, abs_spec. unfold SFltb.
  destruct (Prim2SF p) as [sp|sp| |sp mp ep], (Prim2SF x) as [s|s| |s m e];
    simpl; intros Hp; subst; reflexivity.
Qed.

(** No absolute value is at most a negative tolerance. *)
Lemma float_abs_leb_negative (x d : float) :
  (d <? 0) = true -> (abs x <=? d) = false.
Proof.
  rewrite leb_spec, ltb_spec, abs_spec.
  change (Prim2SF 0) with (S754_zero false).
  unfold SFleb, SFltb.
  destruct (Prim2SF d) as [sd|sd| |sd md ed], (Prim2SF x) as [s|s| |s m e];
    simpl; try discriminate; try reflexivity;
    destruct sd; simpl; try discriminate; try reflexivity.
Qed.
End FloatFacts.

(** ** The adjacency test *)

(** With a gap that is not negative the adjacency test of the source always
    succeeds: [baseGroupBounds.slice(2, 2)] is the empty array, so the
    distance computed from it is [null], and [null <= gap] compares [0] with
    the gap. *)
Lemma lineGroupAndSegmentAdjacent_nonneg_gap :
  forall (num : Type) (N : JSNumber num) (baseGroup : list (SchemedLine num))
         (testLineFull : SchemedLine num) (gap : num),
    js_le (js_int 0) gap = true ->
    lineGroupAndSegmentAdjacent baseGroup testLineFull gap = true.
Proof.
  intros num N baseGroup testLineFull gap Hgap.
  unfold lineGroupAndSegmentAdjacent.
  do 3 match goal with
       | |- (if ?c then true else _) = true => destruct c; [reflexivity|]
       end.
  change (ToNumber
            (vectorDistance
               (slice 2 2 (elems (linesSchemedToFlatlineByBounds baseGroup true)))
               (slice 0 2 (map Some (elems (sl_coordinates testLineFull))))))
    with (js_int 0).
  now rewrite Hgap.
Qed.

(** C1. The adjacency test against the rule of the specification, on the
    cluster holding the single segment (0,0,10,0), the candidate (12,0,20,0)
    and the gap 1: neither endpoint of the candidate projects into the span
    of the bounding line (0,0,10,0), and the nearest pair of endpoints is 2
    apart, so the rule says "not adjacent"; the source answers "adjacent". *)
Theorem lineGroupAndSegmentAdjacent_departs_from_rule :
  forall host_asin host_acos : float -> float,
    lineGroupAndSegmentAdjacent (N := floatNumber host_asin host_acos)
      [gapSegmentA] gapSegmentB 1%float = true
    /\ adjacentAsSpecified (N := floatNumber host_asin host_acos)
         [gapSegmentA] gapSegmentB 1%float = false.
Proof.
  intros host_asin host_acos. split.
  - apply lineGroupAndSegmentAdjacent_nonneg_gap. reflexivity.
  - vm_compute. reflexivity.
Qed.

(** ** Scenarios on binary64 numbers *)

Section Binary64Scenarios.
Variables host_asin host_acos : float -> float.
Variable Array_sort : forall A : Type, (A -> A -> Z) -> list A -> list A.

(** What the scenarios need of the host: the values of [Math.asin] and
    [Math.acos] at the arguments met, and a sort that rearranges. *)
Hypothesis asin_zero : host_asin 0%float = 0%float.
Hypothesis acos_zero : host_acos 0%float = float_half_pi.
Hypothesis acos_minus_one : host_acos (-1)%float = float_pi.
Hypothesis acos_nan : host_acos nan = nan.
Hypothesis sort_permutes :
  forall (A : Type) (comparefn : A -> A -> Z) (a : list A),
    Permutation (Array_sort A comparefn a) a.

Local Abbreviation FN := (floatNumber host_asin host_acos).

Lemma mathPi_float : mathPi (N := FN) = float_pi.
Proof. unfold mathPi. cbn. exact acos_minus_one. Qed.

(** C8. With a host whose [Math.asin] and [Math.acos] take the usual values
    at 0 and -1, the horizontal segment (0,5,10,5) is annotated with angle
    0, y-intercept 5 and no x-intercept, and the vertical segment (5,0,5,10)
    with angle pi/2 (the binary64 value of [mathPi / 2]), x-intercept 5 and
    no y-intercept. *)
Theorem analyseLines_horizontal_and_vertical :
  analyseLines (N := FN) [mkQuad 0 5 10 5]%float
  = [mkSchemedLine 0%float 10%float (mkQuad 0 5 10 5)%float
       None (Some 5%float) 0]
  /\ analyseLines (N := FN) [mkQuad 5 0 5 10]%float
     = [mkSchemedLine float_half_pi 10%float (mkQuad 5 0 5 10)%float
          (Some 5%float) None 0]
  /\ (mathPi (N := FN) / 2)%float = float_half_pi.
Proof.
  repeat split.
  - unfold analyseLines, analyseLinesFrom, analyseLine.
    rewrite mathPi_float. cbn. rewrite asin_zero. reflexivity.
  - unfold analyseLines, analyseLinesFrom, analyseLine.
    rewrite mathPi_float. cbn. rewrite acos_zero. reflexivity.
  - rewrite mathPi_float. reflexivity.
Qed.

(** *** The two collinear segments (0,0,10,0) and (12,0,20,0) *)

Lemma analyseLines_gap_segments :
  analyseLines (N := FN) [mkQuad 0 0 10 0; mkQuad 12 0 20 0]%float
  = [gapSegmentA; gapSegmentB].
Proof.
  unfold analyseLines, analyseLinesFrom, analyseLine.
  rewrite mathPi_float. cbn. rewrite asin_zero. reflexivity.
Qed.

Lemma collinearityGroups_gap_segments (rtol : float) :
  (0 <? rtol)%float = true ->
  collinearityGroups (N := FN) [gapSegmentA; gapSegmentB] rtol 1%float
  = [[gapSegmentA; gapSegmentB]].
Proof.
  intros Hrtol. unfold collinearityGroups. cbn.
  assert (Hm : collinearMatch (N := FN) rtol 1%float gapSegmentB gapSegmentA = true).
  { unfold collinearMatch, gapSegmentA, gapSegmentB. cbn.
    rewrite Hrtol. reflexivity. }
  unfold firstFit at 1. cbn. rewrite Hm. reflexivity.
Qed.

Lemma adjacencyGroups_gap_segments :
  adjacencyGroups (N := FN) 1%float [[gapSegmentA; gapSegmentB]]
  = [[gapSegmentA; gapSegmentB]].
Proof. vm_compute. reflexivity. Qed.

Lemma bigLineOf_gap_segments :
  bigLineOf (N := FN) 2 [gapSegmentA; gapSegmentB]
  = Some (mkBigLine 3 (mkQuad 0 0 20 0)%float).
Proof.
  unfold bigLineOf, risingDiagonal. rewrite mathPi_float. reflexivity.
Qed.

(** C2. With the distance tolerance 1 and any positive angular tolerance,
    the source consolidates (0,0,10,0) and (12,0,20,0) into the single
    segment (0,0,20,0), although the gap of 2 exceeds the tolerance. *)
Theorem consolidateLines_merges_across_gap :
  forall rtol dtolp : float,
    (0 <? rtol)%float = true ->
    consolidateLines (N := FN) Array_sort
      [mkQuad 0 0 10 0; mkQuad 12 0 20 0]%float rtol 1%float dtolp
    = [mkQuad 0 0 20 0]%float.
Proof.
  intros rtol dtolp Hrtol.
  unfold consolidateLines, consolidateLinesSchemed, bigLinesOrdered, bigLines.
  rewrite analyseLines_gap_segments, (collinearityGroups_gap_segments _ Hrtol),
    adjacencyGroups_gap_segments.
  cbn [flat_map length Z.of_nat Pos.of_succ_nat Pos.succ app].
  rewrite bigLineOf_gap_segments.
  cbn [app].
  rewrite (Permutation_length_1_inv
             (Permutation_sym (sort_permutes _ rankComparefn _))).
  reflexivity.
Qed.

(** *** Zero-length segments *)

Lemma analyseLinesFrom_app (before after : list (Quad float)) :
  forall lineIndex,
    analyseLinesFrom (N := FN) lineIndex (before ++ after)
    = analyseLinesFrom (N := FN) lineIndex before
      ++ analyseLinesFrom (N := FN) (lineIndex + Z.of_nat (length before)) after.
Proof.
  induction before as [|l rest IH]; intros lineIndex.
  - simpl. now rewrite Z.add_0_r.
  - cbn [app analyseLinesFrom length]. rewrite IH.
    replace (lineIndex + 1 + Z.of_nat (length rest))%Z
      with (lineIndex + Z.of_nat (S (length rest)))%Z by lia.
    reflexivity.
Qed.

Lemma analyseLine_zero_length (x y : float) (lineIndex : Z) :
  is_finite x = true -> is_finite y = true ->
  analyseLine (N := FN) (mkQuad x y x y) lineIndex
  = mkSchemedLine nan 0%float (mkQuad x y x y) None None lineIndex.
Proof.
  intros Hx Hy. unfold analyseLine. cbn -[mathPi].
  rewrite (float_sub_diag x Hx), (float_sub_diag y Hy).
  cbn -[mathPi].
  pose proof acos_nan as Hacos.
  pose proof float_ltb_nan_l as Hl. pose proof float_ltb_nan_r as Hr.
  unfold nan in *. rewrite Hacos, !Hl, !Hr. reflexivity.
Qed.

(** C4, as the source has it.  [analyseLines] neither rejects nor skips a
    zero-length segment: the segment (x,y,x,y) with finite coordinates is
    annotated, in its place and with its index as rank, with length 0, the
    angle NaN and neither intercept; the segments before and after it are
    annotated as usual. *)
Theorem analyseLines_zero_length_segment :
  forall (before after : list (Quad float)) (x y : float),
    is_finite x = true -> is_finite y = true ->
    analyseLines (N := FN) (before ++ mkQuad x y x y :: after)
    = analyseLinesFrom (N := FN) 0 before
      ++ mkSchemedLine nan 0%float (mkQuad x y x y) None None
           (Z.of_nat (length before))
         :: analyseLinesFrom (N := FN) (Z.of_nat (length before) + 1) after.
Proof.
  intros before after x y Hx Hy. unfold analyseLines.
  rewrite analyseLinesFrom_app. cbn [analyseLinesFrom Z.add].
  now rewrite (analyseLine_zero_length x y _ Hx Hy).
Qed.

(** *** Tolerances that are not positive *)

Lemma collinearMatch_nonpos (rtol dtol : float) (a b : SchemedLine float) :
  (rtol <=? 0)%float = true \/ (dtol <? 0)%float = true ->
  collinearMatch (N := FN) rtol dtol a b = false.
Proof.
  intros [H|H]; unfold collinearMatch, interceptsWithin; cbn.
  - now rewrite (float_abs_ltb_nonpos _ _ H).
  - destruct (abs (sl_angle a - sl_angle b) <? rtol)%float; [|reflexivity].
    destruct (sl_yint a), (sl_yint b), (sl_xint a), (sl_xint b);
      rewrite ?(float_abs_leb_negative _ _ H); reflexivity.
Qed.

Lemma slopeLengthMatch_nonpos (rtol dtolp : float) (a b : SchemedLine float) :
  (rtol <=? 0)%float = true \/ (dtolp <=? 0)%float = true ->
  slopeLengthMatch (N := FN) rtol dtolp a b = false.
Proof.
  intros [H|H]; unfold slopeLengthMatch, scalarWithinTolerance; cbn.
  - now rewrite (float_abs_ltb_nonpos _ _ H).
  - destruct (abs (sl_angle a - sl_angle b) <? rtol)%float; [|reflexivity].
    apply float_abs_ltb_not_positive, float_mul_not_positive; [|exact H].
    apply float_max_abs_not_negative.
Qed.

(** C6, as the source has it.  The tolerances are not validated: a call
    with a tolerance that is not positive runs like any other.  With
    rtol <= 0 or dtolp <= 0 no two segments match in
    [consolidateLinesBySlope], which returns every annotated segment in a
    group of its own, in input order; with rtol <= 0 or dtol < 0 the
    collinearity groups of [consolidateLines] are these same singletons. *)
Theorem nonpositive_tolerances_group_nothing :
  forall (lines : list (Quad float)) (rtol dtol dtolp : float),
    ((rtol <=? 0)%float = true \/ (dtolp <=? 0)%float = true ->
     consolidateLinesBySlope (N := FN) lines rtol dtol dtolp
     = map (fun s => [s]) (analyseLines (N := FN) lines))
    /\ ((rtol <=? 0)%float = true \/ (dtol <? 0)%float = true ->
        collinearityGroups (N := FN) (analyseLines (N := FN) lines) rtol dtol
        = map (fun s => [s]) (analyseLines (N := FN) lines)).
Proof.
  intros lines rtol dtol dtolp. split; intros H.
  - unfold consolidateLinesBySlope, consolidateLinesSchemedBySlope.
    rewrite fold_firstFit_no_match; [reflexivity|].
    intros a b. now apply slopeLengthMatch_nonpos.
  - unfold collinearityGroups.
    rewrite fold_firstFit_no_match; [reflexivity|].
    intros a b. now apply collinearMatch_nonpos.
Qed.

(** *** Grouping by slope and length *)

(** C7. Two annotated segments of lengths 10 and 15 with the same (finite)
    angle, under any positive angular tolerance: with dtolp = 0.1 they are
    put in different groups, with dtolp = 0.4 in the same group.  The match
    test is |angle difference| < rtol together with
    |lenB - lenA| < max(|lenA|, |lenB|) * dtolp. *)
Theorem consolidateLinesSchemedBySlope_lengths_10_15 :
  forall (a b : SchemedLine float) (rtol dtol : float),
    sl_length a = 10%float -> sl_length b = 15%float ->
    sl_angle a = sl_angle b -> is_finite (sl_angle a) = true ->
    (0 <? rtol)%float = true ->
    consolidateLinesSchemedBySlope (N := FN) [a; b] rtol dtol tenth = [[a]; [b]]
    /\ consolidateLinesSchemedBySlope (N := FN) [a; b] rtol dtol fourTenths
       = [[a; b]]
    /\ (forall (s p : SchemedLine float) (r t : float),
           slopeLengthMatch (N := FN) r t s p
           = ((abs (sl_angle s - sl_angle p) <? r)
              && (abs (sl_length p - sl_length s)
                  <? float_max (abs (sl_length s)) (abs (sl_length p)) * t))%float).
Proof.
  intros a b rtol dtol Ha Hb Hangle Hfin Hrtol.
  assert (Hm : forall t,
             slopeLengthMatch (N := FN) rtol t b a
             = (abs (10 - 15) <? float_max (abs 15) (abs 10) * t)%float).
  { intros t. unfold slopeLengthMatch, scalarWithinTolerance. cbn.
    rewrite <- Hangle, (float_sub_diag _ Hfin), Ha, Hb.
    change (abs 0)%float with 0%float. now rewrite Hrtol. }
  split; [|split].
  - unfold consolidateLinesSchemedBySlope. cbn.
    unfold firstFit at 1. cbn. rewrite Hm. reflexivity.
  - unfold consolidateLinesSchemedBySlope. cbn.
    unfold firstFit at 1. cbn. rewrite Hm. reflexivity.
  - intros s p r t. unfold slopeLengthMatch, scalarWithinTolerance. cbn.
    now destruct (abs (sl_angle s - sl_angle p) <? r)%float.
Qed.
End Binary64Scenarios.

(** ** The reference sort *)

Section ReferenceSort.
Context {A : Type}.
Variable comparefn : A -> A -> Z.

Lemma insertBy_permutation (x : A) (sorted : list A) :
  Permutation (insertBy comparefn x sorted) (x :: sorted).
Proof.
  induction sorted as [|y rest IH]; simpl; [reflexivity|].
  destruct (comparefn x y <? 0)%Z; [reflexivity|].
  rewrite IH. apply perm_swap.
Qed.

Lemma refSort_permutation (a : list A) : Permutation (refSort comparefn a) a.
Proof.
  unfold refSort.
  assert (G : forall acc,
             Permutation (fold_left (fun sorted x => insertBy comparefn x sorted) a acc)
                         (acc ++ a)).
  { induction a as [|x rest IH]; simpl; intros acc.
    - now rewrite app_nil_r.
    - rewrite IH, insertBy_permutation. simpl. apply Permutation_middle. }
  apply (G []).
Qed.

(** A comparison function that never answers a negative number leaves the
    array as it is. *)
Lemma refSort_never_negative (a : list A) :
  (forall x y, (0 <= comparefn x y)%Z) -> refSort comparefn a = a.
Proof.
  intros Hpos. unfold refSort.
  assert (Hins : forall x l, insertBy comparefn x l = l ++ [x]).
  { intros x l. induction l as [|y rest IH]; simpl; [reflexivity|].
    destruct (Z.ltb_spec (comparefn x y) 0) as [Hlt|_].
    - specialize (Hpos x y). lia.
    - now rewrite IH. }
  assert (G : forall acc,
             fold_left (fun sorted x => insertBy comparefn x sorted) a acc = acc ++ a).
  { induction a as [|x rest IH]; simpl; intros acc.
    - now rewrite app_nil_r.
    - rewrite IH, Hins, <- app_assoc. reflexivity. }
  apply (G []).
Qed.

(** With a comparison function that never calls both [x] before [y] and [y]
    before [x], the reference sort returns its argument in order: no element
    is followed by one that the function places before it. *)
Lemma insertBy_sorted (x : A) (sorted : list A) :
  (forall u v, (comparefn u v < 0)%Z -> ~ (comparefn v u < 0)%Z) ->
  Sorted (fun u v => ~ (comparefn v u < 0)%Z) sorted ->
  Sorted (fun u v => ~ (comparefn v u < 0)%Z) (insertBy comparefn x sorted).
Proof.
  intros Hasym Hs. induction Hs as [|y rest Hrest IH Hhd]; simpl.
  - repeat constructor.
  - destruct (Z.ltb_spec (comparefn x y) 0) as [Hlt|Hge].
    + constructor; [constructor; assumption|]. constructor. now apply Hasym.
    + constructor; [exact IH|].
      destruct rest as [|z rest']; simpl.
      * constructor. lia.
      * destruct (Z.ltb_spec (comparefn x z) 0); constructor; [lia|].
        now inversion Hhd.
Qed.

Lemma refSort_sorted (a : list A) :
  (forall u v, (comparefn u v < 0)%Z -> ~ (comparefn v u < 0)%Z) ->
  Sorted (fun u v => ~ (comparefn v u < 0)%Z) (refSort comparefn a).
Proof.
  intros Hasym. unfold refSort.
  assert (G : forall acc,
             Sorted (fun u v => ~ (comparefn v u < 0)%Z) acc ->
             Sorted (fun u v => ~ (comparefn v u < 0)%Z)
               (fold_left (fun sorted x => insertBy comparefn x sorted) a acc)).
  { induction a as [|x rest IH]; simpl; intros acc Hacc; [exact Hacc|].
    apply IH. now apply insertBy_sorted. }
  apply G. constructor.
Qed.
End ReferenceSort.

(** ** The order of the output *)

(** The comparison function of the source answers 1 or 0, never a negative
    number: of two pairs with different ranks it calls one greater than the
    other and, asked the other way round, calls them equal. *)
Lemma rankComparefn_not_consistent :
  forall (num : Type) (a b : BigLine num),
    (bl_rank a < bl_rank b)%Z ->
    rankComparefn a b = 1%Z /\ rankComparefn b a = 0%Z.
Proof.
  intros num a b H. unfold rankComparefn.
  destruct (Z.ltb_spec (bl_rank a) (bl_rank b)), (Z.ltb_spec (bl_rank b) (bl_rank a));
    simpl; try lia; auto.
Qed.

(** Handed a three-way comparison function, the reference sort does put the
    pair of rank 6 before the pair of rank 4. *)
Lemma refSort_descending_example :
  refSort descendingRankComparefn
    [mkBigLine 4 (mkQuad 0 0 10 0)%float; mkBigLine 6 (mkQuad 0 50 20 50)%float]
  = [mkBigLine 6 (mkQuad 0 50 20 50)%float; mkBigLine 4 (mkQuad 0 0 10 0)%float].
Proof. reflexivity. Qed.

(** Under the reference sort the pairs stay in the order the clusters were
    made. *)
Lemma bigLinesOrdered_refSort :
  forall (num : Type) (N : JSNumber num) (schemedLines : list (SchemedLine num))
         (rtol dtol : num),
    bigLinesOrdered refSort schemedLines rtol dtol = bigLines schemedLines rtol dtol.
Proof.
  intros. unfold bigLinesOrdered. apply refSort_never_negative.
  intros x y. unfold rankComparefn. destruct (bl_rank x <? bl_rank y)%Z; simpl; lia.
Qed.

(** C3. Four segments: (0,0,10,0) alone on its line, and three overlapping
    segments on the line y = 50.  The first cluster has aggregate rank 4, the
    second 6.  Under the reference sort, [bigLinesOrdered] keeps the pair of
    rank 4 before the pair of rank 6, and the output lists (0,0,10,0) before
    (0,50,20,50): the order is ascending in aggregate rank here. *)
Theorem bigLinesOrdered_ascending_example :
  let lines := [mkQuad 0 0 10 0; mkQuad 0 50 10 50;
                mkQuad 5 50 15 50; mkQuad 10 50 20 50]%float in
  bigLinesOrdered (N := refNumber) refSort
    (analyseLines (N := refNumber) lines) tenth 1%float
  = [mkBigLine 4 (mkQuad 0 0 10 0)%float; mkBigLine 6 (mkQuad 0 50 20 50)%float]
  /\ consolidateLines (N := refNumber) refSort lines tenth 1%float tenth
     = [mkQuad 0 0 10 0; mkQuad 0 50 20 50]%float.
Proof.
  split; vm_compute; reflexivity.
Qed.

(** ** Inputs on which the annotation produces NaN *)

(** C4, as stated, fails: the zero-length segment (3,3,3,3) is annotated
    with a NaN angle and handed on to the grouping, where it forms a group. *)
Lemma analyseLines_accepts_zero_length :
  analyseLines (N := refNumber) [mkQuad 3 3 3 3]%float
  = [mkSchemedLine nan 0%float (mkQuad 3 3 3 3)%float None None 0]
  /\ collinearityGroups (N := refNumber)
       (analyseLines (N := refNumber) [mkQuad 3 3 3 3]%float) tenth 1%float
     = [[mkSchemedLine nan 0%float (mkQuad 3 3 3 3)%float None None 0]].
Proof.
  split; vm_compute; reflexivity.
Qed.


(** The same on underflow: the square of 1e-200 is 0, so the segment
    (0,0,1e-200,0) gets the length 0, the angle NaN and no intercept. *)
Lemma analyseLines_underflow_no_intercept :
  analyseLines (N := refNumber) [mkQuad 0 0 float_1em200 0]%float
  = [mkSchemedLine nan 0%float (mkQuad 0 0 float_1em200 0)%float None None 0].
Proof.
  vm_compute. reflexivity.
Qed.

(** C6, as stated, fails: with the three tolerances at -1 both entry points
    return their usual kind of result. *)
Lemma entry_points_accept_negative_tolerances :
  consolidateLines (N := refNumber) refSort
    [mkQuad 0 0 10 0; mkQuad 12 0 20 0]%float (-1)%float (-1)%float (-1)%float
  = [mkQuad 0 0 10 0; mkQuad 12 0 20 0]%float
  /\ consolidateLinesBySlope (N := refNumber)
       [mkQuad 0 0 10 0; mkQuad 12 0 20 0]%float (-1)%float (-1)%float (-1)%float
     = [[gapSegmentA]; [gapSegmentB]].
Proof.
  split; vm_compute; reflexivity.
Qed.

(** ** Exact arithmetic *)

Section ExactArithmetic.
Local Open Scope R_scope.

Lemma inv_sqrt2_sqr : Rsqr (/ sqrt 2) = 1 / 2.
Proof.
  rewrite Rsqr_inv', Rsqr_sqrt by lra. lra.
Qed.

Lemma inv_sqrt2_bounds : 0 < / sqrt 2 < 1.
Proof.
  assert (H := Rlt_sqrt2_0).
  split; [now apply Rinv_0_lt_compat|].
  assert (H1 : 1 < sqrt 2).
  { rewrite <- sqrt_1 at 1. apply sqrt_lt_1; lra. }
  apply Rmult_lt_reg_r with (sqrt 2); [lra|]. rewrite Rinv_l; lra.
Qed.

(** The arcsine of a ratio of absolute value at most 1/sqrt 2 is within a
    quarter of pi of 0. *)
Lemma asin_quarter_le (r : R) :
  Rabs r <= / sqrt 2 -> - (PI / 4) <= asin r <= PI / 4.
Proof.
  intros Hr. assert (Hk := inv_sqrt2_bounds). assert (Hpi := PI_RGT_0).
  assert (Hr' : - / sqrt 2 <= r <= / sqrt 2).
  { unfold Rabs in Hr. destruct (Rcase_abs r); lra. }
  assert (Hb := asin_bound r).
  assert (Hs : sin (asin r) = r) by (apply sin_asin; lra).
  assert (Hq : sin (PI / 4) = / sqrt 2) by (rewrite sin_PI4; lra).
  split.
  - apply sin_incr_0; rewrite ?sin_antisym; lra.
  - apply sin_incr_0; lra.
Qed.

Lemma asin_quarter_lt (r : R) :
  Rabs r < / sqrt 2 -> - (PI / 4) < asin r < PI / 4.
Proof.
  intros Hr. assert (Hk := inv_sqrt2_bounds). assert (Hpi := PI_RGT_0).
  assert (Hr' : - / sqrt 2 < r < / sqrt 2).
  { apply Rabs_def2 in Hr. lra. }
  assert (Hb := asin_bound r).
  assert (Hs : sin (asin r) = r) by (apply sin_asin; lra).
  assert (Hq : sin (PI / 4) = / sqrt 2) by (rewrite sin_PI4; lra).
  split.
  - apply sin_increasing_0; rewrite ?sin_antisym; lra.
  - apply sin_increasing_0; lra.
Qed.

Lemma acos_quarter (r : R) :
  Rabs r <= / sqrt 2 -> PI / 4 <= acos r <= 3 * (PI / 4).
Proof.
  intros Hr. assert (Hk := inv_sqrt2_bounds).
  assert (Ha := asin_quarter_le r Hr).
  unfold Rabs in Hr. destruct (Rcase_abs r); rewrite acos_asin by lra; lra.
Qed.

(** The shorter leg of a right triangle over its hypotenuse. *)
Lemma ratio_lt (a b : R) :
  Rabs a < Rabs b -> Rabs (a / sqrt (Rsqr b + Rsqr a)) < / sqrt 2.
Proof.
  intros H. assert (Hk := inv_sqrt2_bounds).
  rewrite <- (Rabs_pos_eq (/ sqrt 2)) by lra.
  apply Rsqr_lt_abs_0. rewrite inv_sqrt2_sqr, Rsqr_div'.
  assert (Hlt : Rsqr a < Rsqr b) by now apply Rsqr_lt_abs_1.
  assert (Ha : 0 <= Rsqr a) by apply Rle_0_sqr.
  rewrite Rsqr_sqrt by lra.
  apply Rmult_lt_reg_r with (Rsqr b + Rsqr a); [lra|].
  unfold Rdiv. rewrite Rmult_assoc, Rinv_l by lra. lra.
Qed.

Lemma ratio_le (a b : R) :
  Rabs a <= Rabs b -> b <> 0 -> Rabs (a / sqrt (Rsqr a + Rsqr b)) <= / sqrt 2.
Proof.
  intros H Hb. assert (Hk := inv_sqrt2_bounds).
  rewrite <- (Rabs_pos_eq (/ sqrt 2)) by lra.
  apply Rsqr_le_abs_0. rewrite inv_sqrt2_sqr, Rsqr_div'.
  assert (Hle : Rsqr a <= Rsqr b) by now apply Rsqr_le_abs_1.
  assert (Ha : 0 <= Rsqr a) by apply Rle_0_sqr.
  assert (Hbb : 0 < Rsqr b) by now apply Rlt_0_sqr.
  rewrite Rsqr_sqrt by lra.
  apply Rmult_le_reg_r with (Rsqr a + Rsqr b); [lra|].
  unfold Rdiv. rewrite Rmult_assoc, Rinv_l by lra. lra.
Qed.

Lemma mathPi_real : mathPi (N := realNumber) = PI.
Proof.
  unfold mathPi. cbn. unfold acos.
  destruct (Rle_dec (- (1)) (-1)) as [_|H]; [reflexivity|lra].
Qed.

Lemma Rltb_true (a b : R) : a < b -> Rltb a b = true.
Proof. intros H. unfold Rltb. destruct (Rlt_dec a b); [reflexivity|contradiction]. Qed.

Lemma Rltb_false (a b : R) : ~ a < b -> Rltb a b = false.
Proof. intros H. unfold Rltb. destruct (Rlt_dec a b); [contradiction|reflexivity]. Qed.

(** Without rounding, overflow or underflow (the exact instance, not the
    running program): for a segment of nonzero length the angle is in
    (-pi/4, 3pi/4]; when |dx| > |dy| (the arcsine branch) the y-intercept
    is set, otherwise (the arccosine branch) the x-intercept is set. *)
Theorem analyseLine_exact_angle_and_intercepts :
  forall (line : Quad R) (lineIndex : Z),
    (q0 line <> q2 line \/ q1 line <> q3 line) ->
    let dx := q2 line - q0 line in
    let dy := q3 line - q1 line in
    let s := analyseLine (N := realNumber) line lineIndex in
    - (PI / 4) < sl_angle s <= 3 * (PI / 4)
    /\ (Rabs dy < Rabs dx -> sl_yint s <> None)
    /\ (Rabs dx <= Rabs dy -> sl_xint s <> None)
    /\ (sl_xint s <> None \/ sl_yint s <> None).
Proof.
  intros [x0 y0 x1 y1] lineIndex Hlen dx dy s. simpl in Hlen.
  cbn in dx, dy.
  assert (Hpi := PI_RGT_0).
  assert (Hcases :
            (Rabs dy < Rabs dx
             /\ - (PI / 4) < sl_angle s < PI / 4 /\ sl_yint s <> None)
            \/ (Rabs dx <= Rabs dy
                /\ PI / 4 <= sl_angle s <= 3 * (PI / 4) /\ sl_xint s <> None)).
  { destruct (Rlt_dec (Rabs dy) (Rabs dx)) as [Hlt|Hge].
    - left. split; [exact Hlt|].
      assert (Ha := asin_quarter_lt _ (ratio_lt dy dx Hlt)).
      unfold s, analyseLine. rewrite mathPi_real. cbn.
      fold dx dy. rewrite (Rltb_true _ _ Hlt).
      split; [exact Ha|].
      rewrite (Rltb_true (asin _) (PI * 3 / 8)) by lra.
      rewrite (Rltb_true (PI * - (3) / 8) (asin _)) by lra.
      discriminate.
    - right. apply Rnot_lt_le in Hge. split; [exact Hge|].
      assert (Hdy : dy <> 0).
      { intros Hz. rewrite Hz, Rabs_R0 in Hge.
        assert (Hdx : dx = 0).
        { assert (H0 := Rabs_pos dx). unfold Rabs in Hge, H0.
          destruct (Rcase_abs dx); lra. }
        unfold dx, dy in *. destruct Hlen; lra. }
      assert (Ha := acos_quarter _ (ratio_le dx dy Hge Hdy)).
      unfold s, analyseLine. rewrite mathPi_real. cbn.
      fold dx dy. rewrite (Rltb_false (Rabs dy) (Rabs dx)) by lra.
      split; [exact Ha|].
      rewrite (Rltb_true (PI / 8) (acos _)) by lra.
      rewrite (Rltb_true (acos _) (PI * 7 / 8)) by lra.
      discriminate. }
  destruct Hcases as [(Hlt & Ha & Hy)|(Hge & Ha & Hx)].
  - repeat split; try lra; auto; intros; lra.
  - repeat split; try lra; auto; intros; lra.
Qed.

(** The two test segments of C8 in exact arithmetic: the horizontal segment
    has angle 0 and y-intercept 5, the vertical one angle pi/2 and
    x-intercept 5. *)
Lemma analyseLines_horizontal_and_vertical_exact :
  analyseLines (N := realNumber) [mkQuad 0 5 10 5]
  = [mkSchemedLine 0 10 (mkQuad 0 5 10 5) None (Some 5) 0]
  /\ analyseLines (N := realNumber) [mkQuad 5 0 5 10]
     = [mkSchemedLine (PI / 2) 10 (mkQuad 5 0 5 10) (Some 5) None 0].
Proof.
  assert (Hpi := PI_RGT_0).
  assert (Hlen : forall a b, a = 10 -> b = 0 -> sqrt (Rsqr a + Rsqr b) = 10).
  { intros a b -> ->. rewrite Rsqr_0, Rplus_0_r. apply sqrt_Rsqr. lra. }
  split.
  - unfold analyseLines, analyseLinesFrom, analyseLine.
    rewrite mathPi_real. cbn.
    rewrite (Hlen (10 - 0) (5 - 5)) by lra.
    rewrite (Rltb_true (Rabs (5 - 5)) (Rabs (10 - 0)))
      by (replace (5 - 5) with 0 by lra; rewrite Rabs_R0;
          rewrite Rabs_pos_eq; lra).
    replace ((5 - 5) / 10) with 0 by lra. rewrite asin_0.
    rewrite (Rltb_false (PI / 8) 0) by lra.
    rewrite (Rltb_true 0 (PI * 3 / 8)) by lra.
    rewrite (Rltb_true (PI * - (3) / 8) 0) by lra.
    cbn. repeat f_equal. lra.
  - unfold analyseLines, analyseLinesFrom, analyseLine.
    rewrite mathPi_real. cbn.
    replace (Rsqr (5 - 5) + Rsqr (10 - 0)) with (Rsqr (10 - 0) + Rsqr (5 - 5))
      by apply Rplus_comm.
    rewrite (Hlen (10 - 0) (5 - 5)) by lra.
    rewrite (Rltb_false (Rabs (10 - 0)) (Rabs (5 - 5)))
      by (replace (5 - 5) with 0 by lra; rewrite Rabs_R0;
          rewrite Rabs_pos_eq; lra).
    replace ((5 - 5) / 10) with 0 by lra. rewrite acos_0.
    rewrite (Rltb_true (PI / 8) (PI / 2)) by lra.
    rewrite (Rltb_true (PI / 2) (PI * 7 / 8)) by lra.
    rewrite (Rltb_false (PI / 2) (PI * 3 / 8)) by lra.
    rewrite (Rltb_false (PI * 5 / 8) (PI / 2)) by lra.
    cbn. repeat f_equal. lra.
Qed.
End ExactArithmetic.

(** ** The theorems at the reference host *)

(** The reference host meets what the scenarios ask of a host. *)
Lemma refHost_values :
  refAsin 0%float = 0%float
  /\ refAcos 0%float = float_half_pi
  /\ refAcos (-1)%float = float_pi
  /\ refAcos nan = nan.
Proof. repeat split. Qed.

(** The merge across the gap, at the reference host and rtol = 0.1. *)
Lemma consolidateLines_merges_across_gap_witness :
  (0 <? tenth)%float = true
  /\ consolidateLines (N := floatNumber refAsin refAcos) refSort
       [mkQuad 0 0 10 0; mkQuad 12 0 20 0]%float tenth 1%float tenth
     = [mkQuad 0 0 20 0]%float.
Proof.
  split; [reflexivity|].
  apply (consolidateLines_merges_across_gap refAsin refAcos refSort);
    [reflexivity | reflexivity | exact (@refSort_permutation) | reflexivity].
Defined.

(** The zero-length segment (3,3,3,3) between two other segments, at the
    reference host. *)
Lemma analyseLines_zero_length_segment_witness :
  is_finite 3%float = true
  /\ analyseLines (N := floatNumber refAsin refAcos)
       ([mkQuad 0 5 10 5]%float ++ mkQuad 3 3 3 3 :: [mkQuad 5 0 5 10])%float
     = analyseLinesFrom (N := floatNumber refAsin refAcos) 0 [mkQuad 0 5 10 5]%float
       ++ mkSchemedLine nan 0%float (mkQuad 3 3 3 3)%float None None
            (Z.of_nat (length [mkQuad 0 5 10 5]%float))
          :: analyseLinesFrom (N := floatNumber refAsin refAcos)
               (Z.of_nat (length [mkQuad 0 5 10 5]%float) + 1)
               [mkQuad 5 0 5 10]%float.
Proof.
  split; [reflexivity|].
  apply (analyseLines_zero_length_segment refAsin refAcos); reflexivity.
Defined.

(** The tolerances 0, -1 and 0 on the two collinear segments, at the
    reference host. *)
Lemma nonpositive_tolerances_group_nothing_witness :
  consolidateLinesBySlope (N := floatNumber refAsin refAcos)
    [mkQuad 0 0 10 0; mkQuad 12 0 20 0]%float 0%float (-1)%float 0%float
  = map (fun s => [s])
      (analyseLines (N := floatNumber refAsin refAcos)
         [mkQuad 0 0 10 0; mkQuad 12 0 20 0]%float)
  /\ collinearityGroups (N := floatNumber refAsin refAcos)
       (analyseLines (N := floatNumber refAsin refAcos)
          [mkQuad 0 0 10 0; mkQuad 12 0 20 0]%float) 0%float (-1)%float
     = map (fun s => [s])
         (analyseLines (N := floatNumber refAsin refAcos)
            [mkQuad 0 0 10 0; mkQuad 12 0 20 0]%float).
Proof.
  destruct (nonpositive_tolerances_group_nothing refAsin refAcos
              [mkQuad 0 0 10 0; mkQuad 12 0 20 0]%float
              0%float (-1)%float 0%float) as [H1 H2].
  split.
  - apply H1. right. reflexivity.
  - apply H2. right. reflexivity.
Defined.

(** Two horizontal segments of lengths 10 and 15, with rtol = 0.1. *)
Lemma consolidateLinesSchemedBySlope_lengths_10_15_witness :
  let a := mkSchemedLine 0%float 10%float (mkQuad 0 0 10 0)%float
             None (Some 0%float) 0 in
  let b := mkSchemedLine 0%float 15%float (mkQuad 0 7 15 7)%float
             None (Some 7%float) 1 in
  consolidateLinesSchemedBySlope (N := floatNumber refAsin refAcos)
    [a; b] tenth 1%float tenth = [[a]; [b]]
  /\ consolidateLinesSchemedBySlope (N := floatNumber refAsin refAcos)
       [a; b] tenth 1%float fourTenths = [[a; b]].
Proof.
  intros a b.
  destruct (consolidateLinesSchemedBySlope_lengths_10_15 refAsin refAcos
              a b tenth 1%float eq_refl eq_refl eq_refl eq_refl eq_refl)
    as (H1 & H2 & _).
  split; assumption.
Defined.

(** The horizontal and the vertical test segment, at the reference host. *)
Lemma analyseLines_horizontal_and_vertical_witness :
  analyseLines (N := floatNumber refAsin refAcos) [mkQuad 0 5 10 5]%float
  = [mkSchemedLine 0%float 10%float (mkQuad 0 5 10 5)%float
       None (Some 5%float) 0]
  /\ analyseLines (N := floatNumber refAsin refAcos) [mkQuad 5 0 5 10]%float
     = [mkSchemedLine float_half_pi 10%float (mkQuad 5 0 5 10)%float
          (Some 5%float) None 0]
  /\ (mathPi (N := floatNumber refAsin refAcos) / 2)%float = float_half_pi.
Proof.
  apply (analyseLines_horizontal_and_vertical refAsin refAcos); reflexivity.
Defined.

(** Three segments under the reference host and the reference sort. *)
Lemma consolidateLines_no_more_segments_witness :
  let lines := [mkQuad 0 0 10 0; mkQuad 12 0 20 0; mkQuad 5 0 5 10]%float in
  let clusters :=
    adjacencyGroups (N := refNumber) 1%float
      (collinearityGroups (N := refNumber)
         (analyseLines (N := refNumber) lines) tenth 1%float) in
  (length (consolidateLines (N := refNumber) refSort lines tenth 1%float tenth)
   <= length clusters)%nat
  /\ Forall (fun c => c <> []) clusters
  /\ Permutation (concat clusters) (analyseLines (N := refNumber) lines)
  /\ (length (consolidateLines (N := refNumber) refSort lines tenth 1%float tenth)
      <= length lines)%nat
  /\ consolidateLines (N := refNumber) refSort [] tenth 1%float tenth = [].
Proof.
  exact (consolidateLines_no_more_segments float refNumber refSort
           (@refSort_permutation)
           [mkQuad 0 0 10 0; mkQuad 12 0 20 0; mkQuad 5 0 5 10]%float
           tenth 1%float tenth).
Defined.

(** The segment from (0,0) to (3,4). *)
Lemma analyseLine_exact_angle_and_intercepts_witness :
  let line := (mkQuad 0 0 3 4)%R in
  let s := analyseLine (N := realNumber) line 0 in
  (- (PI / 4) < sl_angle s <= 3 * (PI / 4))%R
  /\ (Rabs (4 - 0) < Rabs (3 - 0) -> sl_yint s <> None)%R
  /\ (Rabs (3 - 0) <= Rabs (4 - 0) -> sl_xint s <> None)%R
  /\ (sl_xint s <> None \/ sl_yint s <> None).
Proof.
  apply (analyseLine_exact_angle_and_intercepts (mkQuad 0 0 3 4)%R 0).
  left. simpl. lra.
Defined.

(** * Further properties of the code *)

(** ** eudoxus.js *)

Section EudoxusShape.
Context {num : Type} {N : JSNumber num}.

Lemma analyseLinesFrom_shape (lines : list (Quad num)) :
  forall lineIndex,
    map (@sl_coordinates num) (analyseLinesFrom lineIndex lines) = lines
    /\ map (@sl_rank num) (analyseLinesFrom lineIndex lines)
       = map (fun i => (lineIndex + Z.of_nat i)%Z) (seq 0 (length lines)).
Proof.
  induction lines as [|l rest IH]; intros lineIndex; simpl; [auto|].
  destruct (IH (lineIndex + 1)%Z) as [Hc Hr]. split.
  - now rewrite Hc.
  - rewrite Hr, Z.add_0_r. f_equal.
    rewrite <- seq_shift, map_map. apply map_ext. intros i. lia.
Qed.

(** X1. [analyseLines] annotates every flat line, in order: the records
    carry the input lines as their coordinates and the positions
    0, 1, 2, ... as their ranks. *)
Theorem analyseLines_keeps_lines_and_numbers_them :
  forall lines : list (Quad num),
    map (@sl_coordinates num) (analyseLines lines) = lines
    /\ map (@sl_rank num) (analyseLines lines)
       = map Z.of_nat (seq 0 (length lines)).
Proof.
  intros lines. unfold analyseLines.
  destruct (analyseLinesFrom_shape lines 0%Z) as [Hc Hr]. split; [exact Hc|].
  rewrite Hr. apply map_ext. intros i. lia.
Qed.

(** X2. The groups of [consolidateLinesSchemedBySlope] partition its input:
    concatenated they are a rearrangement of the schemed lines, and no group
    is empty. *)
Theorem consolidateLinesSchemedBySlope_partition :
  forall (schemedLines : list (SchemedLine num)) (rtol dtol dtolp : num),
    Permutation (concat (consolidateLinesSchemedBySlope schemedLines rtol dtol dtolp))
                schemedLines
    /\ Forall (fun g => g <> [])
         (consolidateLinesSchemedBySlope schemedLines rtol dtol dtolp).
Proof.
  intros schemedLines rtol dtol dtolp. unfold consolidateLinesSchemedBySlope.
  destruct (fold_firstFit_partition (slopeLengthMatch rtol dtolp) schemedLines
              [] (Forall_nil _)) as [Hp Hf].
  split; auto.
Qed.

(** With a gap that is not negative, every line after the first joins the
    one adjacency group. *)
Lemma adjacencyScan_one_group (dtol : num) :
  js_le (js_int 0) dtol = true ->
  forall (rest g : list (SchemedLine num)) (m : list (nat * nat)),
    fold_left (adjacencyStep dtol) rest ([g], m) = ([g ++ rest], m).
Proof.
  intros Hgap. induction rest as [|s rest IH]; intros g m; simpl.
  - now rewrite app_nil_r.
  - unfold adjacencyStep at 2. simpl.
    rewrite (lineGroupAndSegmentAdjacent_nonneg_gap _ _ g s dtol Hgap).
    simpl. rewrite IH, <- app_assoc. reflexivity.
Qed.

(** X3. With a distance tolerance that is not negative the adjacency stage
    of [consolidateLinesSchemed] separates nothing: the adjacency groups
    are the collinearity groups themselves. *)
Theorem adjacencyGroups_are_the_collinearity_groups :
  forall (schemedLines : list (SchemedLine num)) (rtol dtol : num),
    js_le (js_int 0) dtol = true ->
    adjacencyGroups dtol (collinearityGroups schemedLines rtol dtol)
    = collinearityGroups schemedLines rtol dtol.
Proof.
  intros schemedLines rtol dtol Hgap.
  destruct (fold_firstFit_partition (collinearMatch rtol dtol) schemedLines
              [] (Forall_nil _)) as [_ Hne].
  fold (collinearityGroups schemedLines rtol dtol) in Hne.
  unfold adjacencyGroups.
  induction Hne as [|g rest Hg _ IH]; simpl; [reflexivity|].
  rewrite IH. f_equal.
  destruct g as [|s g']; [contradiction|].
  unfold adjacencyGroupsOf, adjacencyScan. simpl.
  unfold adjacencyStep at 2. simpl.
  rewrite (adjacencyScan_one_group dtol Hgap). reflexivity.
Qed.

Lemma boxStep_rank (schemedLineCount : Z) (lineGroup : list (SchemedLine num)) :
  forall acc : BoxAcc,
    rank (fold_left (boxStep schemedLineCount) lineGroup acc)
    = (rank acc
       + fold_right Z.add 0
           (map (fun s => schemedLineCount - sl_rank s) lineGroup))%Z.
Proof.
  induction lineGroup as [|s rest IH]; intros acc; simpl; [lia|].
  rewrite IH. simpl. lia.
Qed.

(** X4. The aggregate rank of a consolidated line is the sum, over the
    members of its adjacency group, of the number of schemed lines minus
    the member's rank; an empty group gives no line. *)
Theorem bigLineOf_rank :
  forall (schemedLineCount : Z) (lineGroup : list (SchemedLine num)),
    bigLineOf schemedLineCount [] = None
    /\ forall b : BigLine num,
         bigLineOf schemedLineCount lineGroup = Some b ->
         bl_rank b
         = fold_right Z.add 0%Z
             (map (fun s => (schemedLineCount - sl_rank s)%Z) lineGroup).
Proof.
  intros schemedLineCount lineGroup. split; [reflexivity|].
  intros b. unfold bigLineOf.
  pose proof (boxStep_rank schemedLineCount lineGroup
                {| xMin := None; xMax := None; yMin := None; yMax := None;
                   lastAngle := None; rank := 0 |}) as Hr.
  simpl in Hr.
  destruct (fold_left _ lineGroup _) as [x0 x1 y0 y1 a r]; simpl in *.
  destruct a, x0, y0, x1, y1; try discriminate.
  destruct (_ || _); [|discriminate].
  destruct (risingDiagonal _); intros H; injection H as <-; simpl; lia.
Qed.

(** X5. Flat lines and point lines convert into each other without loss,
    in both directions. *)
Theorem flatline_pointline_round_trip :
  (forall line : Quad num,
      pointline2dToFlatline (flatline2dToPointline line) = line)
  /\ (forall line : (num * num) * (num * num),
         flatline2dToPointline (pointline2dToFlatline line) = line).
Proof.
  split.
  - intros [a b c d]. reflexivity.
  - intros [[a b] [c d]]. reflexivity.
Qed.
End EudoxusShape.

(** ** logician.js: scans of arrays *)

Section ArrayPositions.
Context {A : Type}.

Lemma at_bound (a : list A) (i : Z) (x : A) :
  at_ a i = Some x -> (0 <= i < Z.of_nat (length a))%Z.
Proof.
  unfold at_. destruct (Z.ltb_spec i 0) as [Hneg|Hpos]; [discriminate|].
  intros Hx.
  assert (Hn : (Z.to_nat i < length a)%nat)
    by (apply nth_error_Some; congruence).
  lia.
Qed.

Lemma at_In (a : list A) (i : Z) (x : A) : at_ a i = Some x -> In x a.
Proof.
  unfold at_. destruct (i <? 0)%Z; [discriminate|]. apply nth_error_In.
Qed.

Lemma In_at (a : list A) (x : A) : In x a -> exists i, at_ a i = Some x.
Proof.
  intros H. apply In_nth_error in H. destruct H as [n Hn].
  exists (Z.of_nat n). unfold at_.
  destruct (Z.ltb_spec (Z.of_nat n) 0); [lia|]. now rewrite Nat2Z.id.
Qed.

Lemma at_app_l (p r : list A) (i : Z) :
  (i < Z.of_nat (length p))%Z -> at_ (p ++ r) i = at_ p i.
Proof.
  intros H. unfold at_. destruct (Z.ltb_spec i 0); [reflexivity|].
  apply nth_error_app1. lia.
Qed.

Lemma at_app_here (p r : list A) (x : A) :
  at_ (p ++ x :: r) (Z.of_nat (length p)) = Some x.
Proof.
  unfold at_. destruct (Z.ltb_spec (Z.of_nat (length p)) 0); [lia|].
  rewrite Nat2Z.id, nth_error_app2 by lia. now rewrite Nat.sub_diag.
Qed.

Lemma at_snoc_inv (p : list A) (x y : A) (i : Z) :
  at_ (p ++ [x]) i = Some y ->
  at_ p i = Some y \/ (i = Z.of_nat (length p) /\ y = x).
Proof.
  intros H. pose proof (at_bound _ _ _ H) as Hb.
  rewrite length_app in Hb. simpl in Hb.
  destruct (Z.eq_dec i (Z.of_nat (length p))) as [->|Hne].
  - rewrite at_app_here in H. injection H as <-. auto.
  - left. rewrite at_app_l in H by lia. exact H.
Qed.
End ArrayPositions.

Section MatchingBounds.
Context {A : Type}.
Variable looseEq : A -> A -> bool.
Variable target : A.

Lemma matchingBounds_step (seen : list A) (st : option Z * option Z) (x : A) :
  boundsDescribe looseEq target seen st ->
  boundsDescribe looseEq target (seen ++ [x])
    (if looseEq x target
     then (match fst st with
           | None => Some (Z.of_nat (length seen))
           | Some s => Some s
           end,
           Some (Z.of_nat (length seen) + 1)%Z)
     else st).
Proof.
  intros Hst.
  destruct (looseEq x target) eqn:Ex.
  - assert (Hhere : at_ (seen ++ [x]) (Z.of_nat (length seen) + 1 - 1) = Some x)
      by (replace (Z.of_nat (length seen) + 1 - 1)%Z
            with (Z.of_nat (length seen)) by lia; apply at_app_here).
    destruct st as [[s|] [e|]]; simpl in *; try contradiction.
    + destruct Hst as ((y & Hy & Ey) & _ & Hall).
      pose proof (Hall _ _ Hy Ey) as Hs.
      pose proof (at_bound _ _ _ Hy) as Hb.
      split; [exists y; split; auto; rewrite at_app_l by lia; exact Hy|].
      split; [exists x; auto|].
      intros i z Hi Ez. apply at_snoc_inv in Hi.
      destruct Hi as [Hi|[-> ->]];
        [pose proof (at_bound _ _ _ Hi); specialize (Hall _ _ Hi Ez); lia|lia].
    + split; [exists x; split; auto; apply at_app_here|].
      split; [exists x; auto|].
      intros i z Hi Ez. apply at_snoc_inv in Hi.
      destruct Hi as [Hi|[-> ->]]; [|lia].
      apply at_In in Hi. rewrite (Hst _ Hi) in Ez. discriminate.
  - destruct st as [[s|] [e|]]; simpl in *; try contradiction.
    + destruct Hst as ((y & Hy & Ey) & (z & Hz & Ez) & Hall).
      pose proof (at_bound _ _ _ Hy). pose proof (at_bound _ _ _ Hz).
      split; [exists y; split; auto; rewrite at_app_l by lia; exact Hy|].
      split; [exists z; split; auto; rewrite at_app_l by lia; exact Hz|].
      intros i w Hi Ew. apply at_snoc_inv in Hi.
      destruct Hi as [Hi|[-> ->]]; [eauto|congruence].
    + intros y Hy. apply in_app_or in Hy. destruct Hy as [Hy|[<-|[]]]; auto.
Qed.

Lemma matchingBoundsFrom_describes (rest : list A) :
  forall (seen : list A) (st : option Z * option Z),
    boundsDescribe looseEq target seen st ->
    boundsDescribe looseEq target (seen ++ rest)
      (matchingBoundsFrom looseEq target (Z.of_nat (length seen)) rest st).
Proof.
  induction rest as [|x rest IH]; intros seen st Hst; simpl.
  - now rewrite app_nil_r.
  - pose proof (matchingBounds_step seen st x Hst) as Hstep.
    apply IH in Hstep.
    rewrite <- app_assoc in Hstep. simpl in Hstep.
    rewrite length_app in Hstep. simpl in Hstep.
    replace (Z.of_nat (length seen + 1)) with (Z.of_nat (length seen) + 1)%Z
      in Hstep by lia.
    exact Hstep.
Qed.

(** X6. [arrayGetMatchingBounds] answers [[null, null]] exactly when no
    entry equals the target; otherwise [matchStart] is the position of the
    first entry equal to the target and [matchEnd] one past the last one, so
    that every such entry lies in [matchStart, matchEnd). *)
Theorem arrayGetMatchingBounds_brackets_the_matches :
  forall arr : list A,
    match arrayGetMatchingBounds looseEq arr target with
    | (None, None) => forall x, In x arr -> looseEq x target = false
    | (Some s, Some e) =>
        (exists x, at_ arr s = Some x /\ looseEq x target = true)
        /\ (exists x, at_ arr (e - 1) = Some x /\ looseEq x target = true)
        /\ (forall i x, at_ arr i = Some x -> looseEq x target = true ->
                        (s <= i < e)%Z)
    | _ => False
    end.
Proof.
  intros arr.
  exact (matchingBoundsFrom_describes arr [] (None, None) (fun x H => match H with end)).
Qed.
End MatchingBounds.

Section RunsFacts.
Context {A : Type}.
Variable truthy : A -> bool.
Variable maxGap : Z.

Lemma hitAt_app (seen rest : list A) (i : Z) :
  hitAt truthy seen i -> hitAt truthy (seen ++ rest) i.
Proof.
  intros (v & Hv & Tv). exists v. split; [|exact Tv].
  pose proof (at_bound _ _ _ Hv). rewrite at_app_l by lia. exact Hv.
Qed.

Lemma hitAt_bound (l : list A) (i : Z) :
  hitAt truthy l i -> (0 <= i < Z.of_nat (length l))%Z.
Proof. intros (v & Hv & _). eapply at_bound; eauto. Qed.

Lemma hitAt_snoc_inv (seen : list A) (x : A) (i : Z) :
  hitAt truthy (seen ++ [x]) i ->
  hitAt truthy seen i \/ (i = Z.of_nat (length seen) /\ truthy x = true).
Proof.
  intros (v & Hv & Tv). apply at_snoc_inv in Hv.
  destruct Hv as [Hv|[-> ->]]; [left; exists v; auto|right; auto].
Qed.

Lemma StronglySorted_snoc {B : Type} (R : B -> B -> Prop) (l : list B) (y : B) :
  StronglySorted R l -> (forall x, In x l -> R x y) ->
  StronglySorted R (l ++ [y]).
Proof.
  induction 1 as [|x l Hl IH Hx]; intros Hy; simpl.
  - repeat constructor.
  - constructor.
    + apply IH. intros z Hz. apply Hy. now right.
    + apply Forall_app. split; [exact Hx|]. constructor; [|constructor].
      apply Hy. now left.
Qed.

Lemma binRunsStep_describes (seen : list A) (st : RunScan) (val : A) :
  runScanDescribes truthy maxGap seen st ->
  runScanDescribes truthy maxGap (seen ++ [val])
    (binRunsStep truthy maxGap st val (Z.of_nat (length seen))).
Proof.
  intros (Hruns & Hsorted & Hopen & Hcover).
  assert (Hlen : Z.of_nat (length (seen ++ [val])) = (Z.of_nat (length seen) + 1)%Z)
    by (rewrite length_app; simpl; lia).
  assert (Hruns' : forall s e, In (s, e) (runs st) ->
             hitAt truthy (seen ++ [val]) s /\ hitAt truthy (seen ++ [val]) (e - 1)
             /\ (s < e)%Z).
  { intros s e Hin. destruct (Hruns s e Hin) as (H1 & H2 & H3).
    auto using hitAt_app. }
  unfold binRunsStep. destruct (truthy val) eqn:Tv.
  - (* a hit *)
    assert (Hhere : hitAt truthy (seen ++ [val]) (Z.of_nat (length seen)))
      by (exists val; split; [apply at_app_here|exact Tv]).
    destruct (runStart st) as [s0|] eqn:Es, (lastHit st) as [h|] eqn:Eh;
      try contradiction.
    + destruct Hopen as (Hs0 & Hh & Hle & Hbefore).
      pose proof (hitAt_bound _ _ Hh) as Hhb.
      split; [exact Hruns'|]. split; [exact Hsorted|]. simpl. split.
      * split; [now apply hitAt_app|]. split; [exact Hhere|].
        split; [lia|exact Hbefore].
      * intros i Hi. apply hitAt_snoc_inv in Hi.
        destruct Hi as [Hi|[-> _]].
        -- pose proof (hitAt_bound _ _ Hi) as Hib.
           destruct (Hcover i Hi) as [Hc|(s1 & h1 & E1 & E2 & Hc)]; [auto|].
           injection E1 as <-. right.
           exists s0, (Z.of_nat (length seen)). repeat split; lia.
        -- right. exists s0, (Z.of_nat (length seen)). repeat split; lia.
    + split; [exact Hruns'|]. split; [exact Hsorted|]. simpl. split.
      * split; [exact Hhere|]. split; [exact Hhere|]. split; [lia|].
        intros s e Hin. destruct (Hopen s e Hin). lia.
      * intros i Hi. apply hitAt_snoc_inv in Hi.
        destruct Hi as [Hi|[-> _]].
        -- destruct (Hcover i Hi) as [Hc|(s1 & h1 & E1 & _)]; [auto|discriminate].
        -- right. exists (Z.of_nat (length seen)), (Z.of_nat (length seen)).
           repeat split; lia.
  - (* no hit *)
    assert (Hcover' : forall i, hitAt truthy (seen ++ [val]) i -> hitAt truthy seen i).
    { intros i Hi. apply hitAt_snoc_inv in Hi.
      destruct Hi as [Hi|[_ Hv]]; [exact Hi|congruence]. }
    destruct (runStart st) as [s0|] eqn:Es, (lastHit st) as [h|] eqn:Eh;
      try contradiction.
    + destruct Hopen as (Hs0 & Hh & Hle & Hbefore).
      pose proof (hitAt_bound _ _ Hh) as Hhb.
      destruct (Z.gtb_spec (Z.of_nat (length seen)) (h + maxGap)) as [Hfar|Hnear].
      * (* the run is closed *)
        split; [|split; [|split]]; simpl.
        -- intros s e Hin. apply in_app_or in Hin.
           destruct Hin as [Hin|[Heq|[]]]; [auto|].
           injection Heq as <- <-.
           replace (h + 1 - 1)%Z with h by lia.
           split; [now apply hitAt_app|]. split; [now apply hitAt_app|lia].
        -- apply StronglySorted_snoc; [exact Hsorted|].
           intros [s e] Hin. unfold runsSeparated; simpl.
           destruct (Hbefore s e Hin). lia.
        -- rewrite Hlen. intros s e Hin. apply in_app_or in Hin.
           destruct Hin as [Hin|[Heq|[]]].
           ++ destruct (Hbefore s e Hin). lia.
           ++ injection Heq as <- <-. lia.
        -- intros i Hi. apply Hcover' in Hi. left.
           destruct (Hcover i Hi) as [(s & e & Hin & Hc)|(s1 & h1 & E1 & E2 & Hc)].
           ++ exists s, e. split; [apply in_or_app; now left|exact Hc].
           ++ injection E1 as <-. injection E2 as <-.
              exists s0, (h + 1)%Z. split; [apply in_or_app; right; now left|lia].
      * (* the gap is still allowed *)
        split; [exact Hruns'|]. split; [exact Hsorted|]. rewrite Es, Eh. split.
        -- split; [now apply hitAt_app|]. split; [now apply hitAt_app|].
           split; [lia|exact Hbefore].
        -- intros i Hi. apply Hcover' in Hi. exact (Hcover i Hi).
    + split; [exact Hruns'|]. split; [exact Hsorted|]. rewrite Es, Eh, Hlen. split.
      * intros s e Hin. destruct (Hopen s e Hin). lia.
      * intros i Hi. apply Hcover' in Hi. exact (Hcover i Hi).
Qed.

Lemma binRunsFrom_describes (rest : list A) :
  forall (seen : list A) (st : RunScan),
    runScanDescribes truthy maxGap seen st ->
    runScanDescribes truthy maxGap (seen ++ rest)
      (binRunsFrom truthy maxGap (Z.of_nat (length seen)) rest st).
Proof.
  induction rest as [|val rest IH]; intros seen st Hst; simpl.
  - now rewrite app_nil_r.
  - pose proof (binRunsStep_describes seen st val Hst) as Hstep.
    apply IH in Hstep.
    rewrite <- app_assoc in Hstep. simpl in Hstep.
    rewrite length_app in Hstep. simpl in Hstep.
    replace (Z.of_nat (length seen + 1)) with (Z.of_nat (length seen) + 1)%Z
      in Hstep by lia.
    exact Hstep.
Qed.
End RunsFacts.

Section RunsResults.
Context {A : Type}.
Variable truthy : A -> bool.

Lemma binRuns_describes (rawSeq : list A) (maxGapI : option Z) :
  (forall s e, In (s, e) (binRuns truthy rawSeq maxGapI) ->
               hitAt truthy rawSeq s /\ hitAt truthy rawSeq (e - 1) /\ (s < e)%Z)
  /\ StronglySorted (runsSeparated (numberOr 0 maxGapI))
       (binRuns truthy rawSeq maxGapI)
  /\ (forall i, hitAt truthy rawSeq i ->
                exists s e, In (s, e) (binRuns truthy rawSeq maxGapI)
                            /\ (s <= i < e)%Z).
Proof.
  unfold binRuns.
  assert (Hinit : runScanDescribes truthy (numberOr 0 maxGapI) []
                    {| runs := []; runStart := None; lastHit := None |}).
  { split; [intros s e []|]. split; [constructor|]. split; [intros s e []|].
    intros i (v & Hv & _). unfold at_ in Hv.
    destruct (i <? 0)%Z; [discriminate|]. now destruct (Z.to_nat i). }
  pose proof (binRunsFrom_describes truthy (numberOr 0 maxGapI) rawSeq [] _ Hinit)
    as (Hruns & Hsorted & Hopen & Hcover).
  simpl in Hruns, Hsorted, Hopen, Hcover.
  destruct (binRunsFrom _ _ 0 rawSeq _) as [rs [s0|] [h|]]; simpl in *;
    try contradiction.
  - destruct Hopen as (Hs0 & Hh & Hle & Hbefore).
    split; [|split].
    + intros s e Hin. apply in_app_or in Hin.
      destruct Hin as [Hin|[Heq|[]]]; [auto|].
      injection Heq as <- <-. replace (h + 1 - 1)%Z with h by lia.
      repeat split; auto; lia.
    + apply StronglySorted_snoc; [exact Hsorted|].
      intros [s e] Hin. unfold runsSeparated; simpl.
      destruct (Hbefore s e Hin). lia.
    + intros i Hi.
      destruct (Hcover i Hi) as [(s & e & Hin & Hc)|(s1 & h1 & E1 & E2 & Hc)].
      * exists s, e. split; [apply in_or_app; now left|exact Hc].
      * injection E1 as <-. injection E2 as <-.
        exists s0, (h + 1)%Z. split; [apply in_or_app; right; now left|lia].
  - split; [exact Hruns|]. split; [exact Hsorted|].
    intros i Hi.
    destruct (Hcover i Hi) as [Hc|(s1 & h1 & E1 & _)]; [exact Hc|discriminate].
Qed.

(** X7. Every run [[start, end]] of [binRuns] lies inside the array, is not
    empty, and starts and ends on a true entry: the entries at [start] and
    at [end - 1] are true as conditions. *)
Theorem binRuns_runs_start_and_end_on_hits :
  forall (rawSeq : list A) (maxGapI : option Z) (s e : Z),
    In (s, e) (binRuns truthy rawSeq maxGapI) ->
    (0 <= s < e)%Z /\ (e <= Z.of_nat (length rawSeq))%Z
    /\ hitAt truthy rawSeq s /\ hitAt truthy rawSeq (e - 1).
Proof.
  intros rawSeq maxGapI s e Hin.
  destruct (binRuns_describes rawSeq maxGapI) as (Hruns & _ & _).
  destruct (Hruns s e Hin) as (Hs & He & Hlt).
  pose proof (hitAt_bound truthy _ _ Hs). pose proof (hitAt_bound truthy _ _ He).
  repeat split; auto; lia.
Qed.

(** X8. [binRuns] loses no true entry: every position holding one lies in
    some run; and it answers no run at all exactly when no entry is true. *)
Theorem binRuns_covers_every_hit :
  forall (rawSeq : list A) (maxGapI : option Z),
    (forall i, hitAt truthy rawSeq i ->
               exists s e, In (s, e) (binRuns truthy rawSeq maxGapI)
                           /\ (s <= i < e)%Z)
    /\ (binRuns truthy rawSeq maxGapI = []
        <-> forall x, In x rawSeq -> truthy x = false).
Proof.
  intros rawSeq maxGapI.
  destruct (binRuns_describes rawSeq maxGapI) as (Hruns & _ & Hcover).
  split; [exact Hcover|]. split.
  - intros Hnil x Hx. destruct (truthy x) eqn:Tx; [|reflexivity].
    apply In_at in Hx. destruct Hx as [i Hi].
    destruct (Hcover i (ex_intro _ x (conj Hi Tx))) as (s & e & Hin & _).
    rewrite Hnil in Hin. destruct Hin.
  - intros Hnone. destruct (binRuns truthy rawSeq maxGapI) as [|[s e] rs] eqn:E;
      [reflexivity|].
    destruct (Hruns s e (or_introl eq_refl)) as ((v & Hv & Tv) & _).
    apply at_In in Hv. rewrite (Hnone v Hv) in Tv. discriminate.
Qed.

(** X9. The runs of [binRuns] come in order and apart: each run ends before
    every later run starts, with more than [maxGap] positions between the
    end of the one and the start of the other. *)
Theorem binRuns_runs_are_separated :
  forall (rawSeq : list A) (maxGapI : option Z),
    StronglySorted
      (fun a b => (snd a < fst b)%Z /\ (snd a + numberOr 0 maxGapI < fst b)%Z)
      (binRuns truthy rawSeq maxGapI).
Proof.
  intros rawSeq maxGapI.
  destruct (binRuns_describes rawSeq maxGapI) as (_ & Hsorted & _).
  exact Hsorted.
Qed.
End RunsResults.

(** X10. Every run that [binMinimumValueRuns] returns is at least
    [minHeight] long (0 when the option is missing) and starts and ends on a
    value above [minValue]. *)
Theorem binMinimumValueRuns_runs :
  forall (num : Type) (N : JSNumber num) (values : list num)
         (opts : RunOptions num) (s e : Z),
    In (s, e) (binMinimumValueRuns values opts) ->
    (numberOr 0 (minHeight opts) <= e - s)%Z
    /\ (exists v, at_ values s = Some v /\ js_lt (minValue opts) v = true)
    /\ (exists v, at_ values (e - 1) = Some v /\ js_lt (minValue opts) v = true).
Proof.
  intros num N values opts s e Hin.
  unfold binMinimumValueRuns, binRunsSignificant in Hin.
  apply filter_In in Hin. destruct Hin as [Hin Hlen]. simpl in Hlen.
  destruct (binRuns_describes (fun v => negb (v =? 0)%Z)
              (valuesSignificant values opts) (maxGap opts)) as (Hruns & _ & _).
  destruct (Hruns s e Hin) as (Hs & He & _).
  assert (Hval : forall i, hitAt (fun v => negb (v =? 0)%Z)
                             (valuesSignificant values opts) i ->
                 exists v, at_ values i = Some v /\ js_lt (minValue opts) v = true).
  { intros i (z & Hz & Tz). unfold at_, valuesSignificant in *.
    destruct (i <? 0)%Z; [discriminate|].
    rewrite nth_error_map in Hz.
    destruct (nth_error values (Z.to_nat i)) as [v|]; [|discriminate].
    exists v. split; [reflexivity|]. simpl in Hz. injection Hz as <-.
    destruct (js_lt (minValue opts) v); [reflexivity|discriminate]. }
  split; [lia|]. split; auto.
Qed.

(** ** logician.js: extrema of bounds *)

Lemma extremaStep_fold (boundList : list (option Z * option Z)) :
  forall (seen : list (option Z * option Z)) (st : option Z * option Z),
    extremumOf Z.le (map fst seen) (fst st) ->
    extremumOf Z.ge (map snd seen) (snd st) ->
    extremumOf Z.le (map fst (seen ++ boundList))
      (fst (fold_left extremaStep boundList st))
    /\ extremumOf Z.ge (map snd (seen ++ boundList))
         (snd (fold_left extremaStep boundList st)).
Proof.
  induction boundList as [|[b0 b1] rest IH]; intros seen [l r] Hl Hr; simpl.
  - rewrite app_nil_r. auto.
  - replace (seen ++ (b0, b1) :: rest) with ((seen ++ [(b0, b1)]) ++ rest)
      by (rewrite <- app_assoc; reflexivity).
    apply IH; unfold extremaStep; simpl in *; rewrite map_app; simpl.
    + destruct b0 as [v|]; [destruct l as [m|]|].
      * destruct Hl as [Hin Hall].
        destruct (Z.ltb_spec v m); split;
          try (apply in_or_app; simpl; auto; fail);
          intros y Hy; apply in_app_or in Hy;
          destruct Hy as [Hy|[Hy|[]]];
          try (injection Hy as <-); try specialize (Hall y Hy); lia.
      * split; [apply in_or_app; simpl; auto|].
        intros y Hy. apply in_app_or in Hy.
        destruct Hy as [Hy|[Hy|[]]]; [apply Hl in Hy; discriminate|].
        injection Hy as <-. lia.
      * destruct l as [m|].
        -- destruct Hl as [Hin Hall]. split; [apply in_or_app; auto|].
           intros y Hy. apply in_app_or in Hy.
           destruct Hy as [Hy|[Hy|[]]]; [auto|discriminate].
        -- intros v Hv. apply in_app_or in Hv.
           destruct Hv as [Hv|[<-|[]]]; auto.
    + destruct b1 as [v|]; [destruct r as [m|]|].
      * destruct Hr as [Hin Hall].
        destruct (Z.gtb_spec v m); split;
          try (apply in_or_app; simpl; auto; fail);
          intros y Hy; apply in_app_or in Hy;
          destruct Hy as [Hy|[Hy|[]]];
          try (injection Hy as <-); try specialize (Hall y Hy); lia.
      * split; [apply in_or_app; simpl; auto|].
        intros y Hy. apply in_app_or in Hy.
        destruct Hy as [Hy|[Hy|[]]]; [apply Hr in Hy; discriminate|].
        injection Hy as <-. lia.
      * destruct r as [m|].
        -- destruct Hr as [Hin Hall]. split; [apply in_or_app; auto|].
           intros y Hy. apply in_app_or in Hy.
           destruct Hy as [Hy|[Hy|[]]]; [auto|discriminate].
        -- intros v Hv. apply in_app_or in Hv.
           destruct Hv as [Hv|[<-|[]]]; auto.
Qed.

Lemma boundsPairsFindExtremaPair_describes (boundList : list (option Z * option Z)) :
  extremumOf Z.le (map fst boundList) (fst (boundsPairsFindExtremaPair boundList))
  /\ extremumOf Z.ge (map snd boundList) (snd (boundsPairsFindExtremaPair boundList)).
Proof.
  apply (extremaStep_fold boundList [] (None, None)); intros v [].
Qed.

(** X11. [boundsPairsFindExtremaPair] returns the least of the left ends
    that are not [null] and the greatest of the right ends that are not
    [null]; a side whose ends are all [null] gives [null]. *)
Theorem boundsPairsFindExtremaPair_extrema :
  forall boundList : list (option Z * option Z),
    match fst (boundsPairsFindExtremaPair boundList) with
    | None => forall b, In b boundList -> fst b = None
    | Some leftMin =>
        (exists b, In b boundList /\ fst b = Some leftMin)
        /\ forall b v, In b boundList -> fst b = Some v -> (leftMin <= v)%Z
    end
    /\ match snd (boundsPairsFindExtremaPair boundList) with
       | None => forall b, In b boundList -> snd b = None
       | Some rightMax =>
           (exists b, In b boundList /\ snd b = Some rightMax)
           /\ forall b v, In b boundList -> snd b = Some v -> (v <= rightMax)%Z
       end.
Proof.
  intros boundList.
  destruct (boundsPairsFindExtremaPair_describes boundList) as [Hl Hr].
  split.
  - destruct (fst (boundsPairsFindExtremaPair boundList)) as [m|]; simpl in Hl.
    + destruct Hl as [Hin Hall]. split.
      * apply in_map_iff in Hin. destruct Hin as (b & Hb & Hb'). eauto.
      * intros b v Hb Hv. apply Hall. rewrite <- Hv. now apply in_map.
    + intros b Hin. apply Hl. now apply in_map.
  - destruct (snd (boundsPairsFindExtremaPair boundList)) as [m|]; simpl in Hr.
    + destruct Hr as [Hin Hall]. split.
      * apply in_map_iff in Hin. destruct Hin as (b & Hb & Hb'). eauto.
      * intros b v Hb Hv.
        assert (m >= v)%Z by (apply Hall; rewrite <- Hv; now apply in_map). lia.
    + intros b Hin. apply Hr. now apply in_map.
Qed.

(** ** logician.js: how the scans compose *)

Lemma arrayGetMatchingBounds_describes {A : Type} (looseEq : A -> A -> bool)
    (target : A) (arr : list A) :
  boundsDescribe looseEq target arr (arrayGetMatchingBounds looseEq arr target).
Proof.
  exact (matchingBoundsFrom_describes looseEq target arr [] (None, None)
           (fun x H => match H with end)).
Qed.

(** X12. Taking [boundsPairsFindExtremaPair] over the zero bounds of the
    rows of a table brackets every zero of the table: a zero at position [i]
    of any row lies in [left, right); a table without a zero gives
    [[null, null]]. *)
Theorem extrema_of_zero_bounds_bracket_every_zero :
  forall rows : list (list Z),
    (forall row i, In row rows -> at_ row i = Some 0%Z ->
        exists l r,
          boundsPairsFindExtremaPair (map arrayGetZeroBounds rows) = (Some l, Some r)
          /\ (l <= i < r)%Z)
    /\ ((forall row, In row rows -> ~ In 0%Z row) ->
        boundsPairsFindExtremaPair (map arrayGetZeroBounds rows) = (None, None)).
Proof.
  intros rows.
  destruct (boundsPairsFindExtremaPair_describes (map arrayGetZeroBounds rows))
    as [Hl Hr].
  rewrite !map_map in Hl, Hr.
  split.
  - intros row i Hrow Hi.
    pose proof (arrayGetMatchingBounds_describes Z.eqb 0%Z row) as Hd.
    fold (arrayGetZeroBounds row) in Hd.
    destruct (arrayGetZeroBounds row) as [[s|] [e|]] eqn:Eb; simpl in Hd;
      try contradiction.
    + destruct Hd as (_ & _ & Hall).
      specialize (Hall i 0%Z Hi eq_refl).
      assert (Hs : In (Some s) (map (fun x => fst (arrayGetZeroBounds x)) rows))
        by (apply in_map_iff; exists row; rewrite Eb; auto).
      assert (He : In (Some e) (map (fun x => snd (arrayGetZeroBounds x)) rows))
        by (apply in_map_iff; exists row; rewrite Eb; auto).
      destruct (boundsPairsFindExtremaPair (map arrayGetZeroBounds rows))
        as [[l|] [r|]]; simpl in Hl, Hr.
      * exists l, r. split; [reflexivity|].
        destruct Hl as [_ Hl]. destruct Hr as [_ Hr].
        specialize (Hl s Hs). specialize (Hr e He). lia.
      * apply Hr in He. discriminate.
      * apply Hl in Hs. discriminate.
      * apply Hl in Hs. discriminate.
    + apply at_In in Hi. specialize (Hd 0%Z Hi). discriminate.
  - intros Hnone.
    assert (Hrow : forall row, In row rows -> arrayGetZeroBounds row = (None, None)).
    { intros row Hrow.
      pose proof (arrayGetMatchingBounds_describes Z.eqb 0%Z row) as Hd.
      fold (arrayGetZeroBounds row) in Hd.
      destruct (arrayGetZeroBounds row) as [[s|] [e|]]; simpl in Hd;
        try contradiction; [|reflexivity].
      destruct Hd as ((x & Hx & Ex) & _). apply Z.eqb_eq in Ex. subst x.
      apply at_In in Hx. destruct (Hnone row Hrow Hx). }
    destruct (boundsPairsFindExtremaPair (map arrayGetZeroBounds rows))
      as [[l|] [r|]]; simpl in Hl, Hr; try reflexivity; exfalso.
    + destruct Hl as [Hin _]. apply in_map_iff in Hin.
      destruct Hin as (row & Hf & Hin). rewrite (Hrow row Hin) in Hf. discriminate.
    + destruct Hl as [Hin _]. apply in_map_iff in Hin.
      destruct Hin as (row & Hf & Hin). rewrite (Hrow row Hin) in Hf. discriminate.
    + destruct Hr as [Hin _]. apply in_map_iff in Hin.
      destruct Hin as (row & Hf & Hin). rewrite (Hrow row Hin) in Hf. discriminate.
Qed.

(** X13. The width [boundsToWidths] computes from the bounds
    [arrayGetMatchingBounds] found in an array is 0 exactly when no entry
    equals the target, and otherwise at least 1 and at most the length of
    the array. *)
Theorem boundsToWidths_of_matching_bounds :
  forall (A : Type) (looseEq : A -> A -> bool) (target : A) (arrs : list (list A)),
    Forall2
      (fun arr w =>
         (0 <= w <= Z.of_nat (length arr))%Z
         /\ (w = 0%Z <-> forall x, In x arr -> looseEq x target = false))
      arrs
      (boundsToWidths (map (fun arr => arrayGetMatchingBounds looseEq arr target) arrs)).
Proof.
  intros A looseEq target arrs.
  induction arrs as [|arr rest IH]; simpl; constructor; [|exact IH].
  pose proof (arrayGetMatchingBounds_describes looseEq target arr) as Hd.
  destruct (arrayGetMatchingBounds looseEq arr target) as [[s|] [e|]];
    simpl in *; try contradiction.
  - destruct Hd as ((x & Hx & Ex) & (y & Hy & Ey) & Hall).
    pose proof (at_bound _ _ _ Hx). pose proof (at_bound _ _ _ Hy).
    pose proof (Hall _ _ Hx Ex).
    split; [lia|]. split; [lia|].
    intros Hnone. apply at_In in Hx. rewrite (Hnone x Hx) in Ex. discriminate.
  - split; [lia|]. split; auto.
Qed.

(** ** logician.js: arraySubset, groupSubsetLight, groupSubset *)

Section SubsetFacts.
Context {A : Type}.
Variables strictEq looseEq : A -> A -> bool.
Variables isUndefined nullish : A -> bool.

Lemma arraySubsetLoop_run (g0 g1 : list A) (start0 : Z) (rounds : nat) :
  forall tmpi : Z,
    (tmpi <= arraySubsetLoop looseEq nullish g0 g1 start0 rounds tmpi)%Z
    /\ forall k,
         (tmpi <= k < arraySubsetLoop looseEq nullish g0 g1 start0 rounds tmpi)%Z ->
         sameAt looseEq nullish g0 g1 start0 k = true.
Proof.
  induction rounds as [|n IH]; intros tmpi; simpl.
  - split; [lia|]. intros k Hk. lia.
  - destruct ((tmpi <? Z.of_nat (length g1))%Z
              && (tmpi + start0 <? Z.of_nat (length g0))%Z
              && sameAt looseEq nullish g0 g1 start0 tmpi) eqn:E.
    + destruct (IH (tmpi + 1)%Z) as [Hle Hall]. split; [lia|].
      intros k Hk. destruct (Z.eq_dec k tmpi) as [->|Hne].
      * apply andb_prop in E. tauto.
      * apply Hall. lia.
    + split; [lia|]. intros k Hk. lia.
Qed.

(** The rounds that [arraySubset] allows its loop are enough: the loop has
    stopped by then, and further rounds change nothing. *)
Lemma arraySubsetLoop_rounds_suffice (g0 g1 : list A) (start0 : Z) (more : nat) :
  forall (rounds : nat) (tmpi : Z),
    (Z.of_nat (length g1) - tmpi <= Z.of_nat rounds)%Z ->
    arraySubsetLoop looseEq nullish g0 g1 start0 (rounds + more) tmpi
    = arraySubsetLoop looseEq nullish g0 g1 start0 rounds tmpi.
Proof.
  induction rounds as [|n IH]; intros tmpi Hle.
  - destruct more as [|m]; [reflexivity|]. simpl.
    destruct (Z.ltb_spec tmpi (Z.of_nat (length g1))); [lia|reflexivity].
  - simpl.
    destruct ((tmpi <? Z.of_nat (length g1))%Z
              && (tmpi + start0 <? Z.of_nat (length g0))%Z
              && sameAt looseEq nullish g0 g1 start0 tmpi); [|reflexivity].
    apply IH. lia.
Qed.

(** A list that agrees with [g1] from position [n] on holds [g1] as a run
    of adjacent entries. *)
Lemma agrees_from_position (g1 : list A) :
  forall (n : nat) (g0 : list A),
    g1 <> [] ->
    (forall k, (k < length g1)%nat -> nth_error g0 (n + k) = nth_error g1 k) ->
    exists pre post, g0 = pre ++ g1 ++ post.
Proof.
  intros n. induction n as [|n IH]; intros g0 Hne Hsame.
  - exists []. simpl. clear Hne. revert g0 Hsame.
    induction g1 as [|x g1 IHg]; intros g0 Hsame; [exists g0; reflexivity|].
    destruct g0 as [|y g0].
    + specialize (Hsame 0%nat ltac:(simpl; lia)). discriminate.
    + pose proof (Hsame 0%nat ltac:(simpl; lia)) as H0. simpl in H0.
      injection H0 as ->.
      destruct (IHg g0) as [post ->].
      * intros k Hk. apply (Hsame (S k)). simpl. lia.
      * exists post. reflexivity.
  - destruct g0 as [|y g0].
    + destruct g1 as [|x g1]; [contradiction|].
      specialize (Hsame 0%nat ltac:(simpl; lia)). discriminate.
    + destruct (IH g0 Hne) as (pre & post & ->).
      * intros k Hk. apply (Hsame k Hk).
      * exists (y :: pre), post. reflexivity.
Qed.

(** X14. [arraySubset] answers [null] exactly when the first array is the
    shorter one.  When [==] holds only between equal elements and no entry
    of the second array is [null] or [undefined] (so that none equals a read
    outside the first array), the answer 1 means that the second array
    occurs in the first as a run of adjacent entries. *)
Theorem arraySubset_one_means_adjacent_run :
  (forall x y, looseEq x y = true -> x = y) ->
  forall g0 g1 : list A,
    (forall x, In x g1 -> nullish x = false) ->
    (arraySubset strictEq looseEq isUndefined nullish g0 g1 = None
     <-> (length g0 < length g1)%nat)
    /\ (arraySubset strictEq looseEq isUndefined nullish g0 g1 = Some 1%Z ->
        exists pre post, g0 = pre ++ g1 ++ post).
Proof.
  intros Heq g0 g1 Hnn. unfold arraySubset.
  destruct (Nat.ltb_spec (length g0) (length g1)) as [Hshort|Hlong].
  - split; [tauto|discriminate].
  - set (start0 := indexOfFirst strictEq isUndefined g0 g1).
    destruct (arraySubsetLoop_run g0 g1 start0 (length g1) 0%Z) as [_ Hsame].
    set (tmpi := arraySubsetLoop looseEq nullish g0 g1 start0 (length g1) 0) in *.
    split.
    + split; [|lia].
      destruct (tmpi <=? Z.of_nat (length g1))%Z; [|discriminate].
      destruct (tmpi =? Z.of_nat (length g1))%Z; discriminate.
    + destruct (tmpi <=? Z.of_nat (length g1))%Z; [|discriminate].
      destruct (Z.eqb_spec tmpi (Z.of_nat (length g1))) as [Hall|]; [|discriminate].
      intros _. destruct g1 as [|x g1'] eqn:Eg1; [exists [], g0; reflexivity|].
      rewrite <- Eg1 in *.
      assert (Hread : forall k, (k < length g1)%nat ->
                exists a, nth_error g1 k = Some a
                          /\ at_ g0 (start0 + Z.of_nat k) = Some a).
      { intros k Hk.
        specialize (Hsame (Z.of_nat k) ltac:(lia)).
        unfold sameAt in Hsame. unfold at_ in Hsame at 1.
        destruct (Z.ltb_spec (Z.of_nat k) 0); [lia|].
        rewrite Nat2Z.id in Hsame.
        destruct (nth_error g1 k) as [a|] eqn:Ea.
        - exists a. split; [reflexivity|].
          destruct (at_ g0 (start0 + Z.of_nat k)) as [b|].
          + now rewrite (Heq a b Hsame).
          + rewrite (Hnn a (nth_error_In _ _ Ea)) in Hsame. discriminate.
        - apply nth_error_None in Ea. lia. }
      assert (Hstart : (0 <= start0)%Z).
      { destruct (Hread 0%nat ltac:(rewrite Eg1; simpl; lia)) as (a & _ & Ha).
        apply at_bound in Ha. lia. }
      apply (agrees_from_position g1 (Z.to_nat start0));
        [rewrite Eg1; discriminate|].
      intros k Hk. destruct (Hread k Hk) as (a & Ea & Ha).
      rewrite Ea. unfold at_ in Ha.
      destruct (Z.ltb_spec (start0 + Z.of_nat k) 0); [lia|].
      replace (Z.to_nat (start0 + Z.of_nat k))
        with (Z.to_nat start0 + k)%nat in Ha by lia.
      exact Ha.
Qed.

(** X15. [groupSubsetLight] never answers 1 or -1: on arrays of equal
    length it answers 0 or NaN, and on arrays of different lengths it ends
    with a ReferenceError; so does [groupSubset], whose sorted copies have
    the lengths of its arguments. *)
Theorem groupSubset_answers :
  forall Array_sortDefault : list A -> list A,
    (forall a, length (Array_sortDefault a) = length a) ->
    forall a0 a1 : list A,
      (length a0 <> length a1 ->
       groupSubsetLight strictEq looseEq isUndefined nullish a0 a1
       = ThrewReferenceError
       /\ groupSubset strictEq looseEq isUndefined nullish Array_sortDefault a0 a1
          = ThrewReferenceError)
      /\ (length a0 = length a1 ->
          (groupSubsetLight strictEq looseEq isUndefined nullish a0 a1
           = Returned (answer 0)
           \/ groupSubsetLight strictEq looseEq isUndefined nullish a0 a1
              = Returned answerNaN)
          /\ (groupSubset strictEq looseEq isUndefined nullish Array_sortDefault a0 a1
              = Returned (answer 0)
              \/ groupSubset strictEq looseEq isUndefined nullish Array_sortDefault a0 a1
                 = Returned answerNaN)).
Proof.
  intros sort Hsort a0 a1.
  unfold groupSubset, groupSubsetLight. rewrite !Hsort.
  destruct (Nat.eqb_spec (length a0) (length a1)) as [Heq|Hne].
  - split; [intros H; contradiction|]. intros _. split.
    + destruct (arraySubsetHolds strictEq looseEq isUndefined nullish a0 a1); auto.
    + destruct (arraySubsetHolds strictEq looseEq isUndefined nullish
                  (sort a0) (sort a1)); auto.
  - split; [auto|]. intros H. contradiction.
Qed.
End SubsetFacts.

(** An entry [null] of the second array equals the read [g0[-1]] that
    follows an unsuccessful [indexOf]: with [None] for [null] and whole
    numbers otherwise, [arraySubset([5], [null])] answers 1 although
    [null] does not occur in [[5]]. *)
Lemma arraySubset_null_entry_matches_outside_read :
  let eqb (x y : option Z) :=
    match x, y with
    | Some a, Some b => (a =? b)%Z
    | None, None => true
    | _, _ => false
    end in
  let none (x : option Z) := match x with None => true | Some _ => false end in
  arraySubset eqb eqb (fun _ => false) none [Some 5%Z] [None] = Some 1%Z
  /\ ~ In None [Some 5%Z].
Proof.
  cbv zeta. split; [reflexivity|]. intros [H|[]]. discriminate.
Qed.

(** ** geometer.js in exact arithmetic *)

Section ExactGeometry.
Local Open Scope R_scope.

Lemma Rltb_iff (a b : R) : Rltb a b = true <-> a < b.
Proof. unfold Rltb. destruct (Rlt_dec a b); split; auto; discriminate. Qed.

Lemma Rleb_iff (a b : R) : Rleb a b = true <-> a <= b.
Proof. unfold Rleb. destruct (Rle_dec a b); split; auto; discriminate. Qed.

(** X18. In exact arithmetic [space2dHasPoint line point] holds exactly
    when the point is in the box spanned by the two ends of the line,
    whichever way round the ends are given. *)
Theorem space2dHasPoint_is_the_box_of_the_ends :
  forall x0 y0 x1 y1 x y : R,
    space2dHasPoint (N := realNumber)
      (mkQuad (Some x0) (Some y0) (Some x1) (Some y1)) (x, y) = true
    <-> (Rmin x0 x1 <= x <= Rmax x0 x1 /\ Rmin y0 y1 <= y <= Rmax y0 y1).
Proof.
  intros x0 y0 x1 y1 x y. unfold space2dHasPoint, space1dHasPoint. cbn.
  unfold Rmin, Rmax.
  repeat match goal with
         | |- context [Rleb ?a ?b] =>
             let H := fresh "H" in
             destruct (Rleb a b) eqn:H;
             [apply Rleb_iff in H
             |assert (~ a <= b) by (intros Hc; apply Rleb_iff in Hc; congruence);
              clear H]
         end;
    cbn; repeat destruct (Rle_dec _ _); split; intros; try discriminate;
    try reflexivity; try lra.
Qed.

(** X19. In exact arithmetic [flatlineToRectangleFixed] gives the rectangle
    whose corner is the least x and the least y of the two ends and whose
    width and height are |x1 - x0| and |y1 - y0|, never negative. *)
Theorem flatlineToRectangleFixed_is_the_box :
  forall x0 y0 x1 y1 : R,
    flatlineToRectangleFixed (N := realNumber) (mkQuad x0 y0 x1 y1)
    = mkQuad (Rmin x0 x1) (Rmin y0 y1) (Rabs (x1 - x0)) (Rabs (y1 - y0)).
Proof.
  intros x0 y0 x1 y1. unfold flatlineToRectangleFixed. cbn.
  f_equal; unfold Rmin, Rmax, Rabs;
    repeat destruct (Rle_dec _ _); destruct (Rcase_abs _); lra.
Qed.

Lemma squares_fold_sym (v0 v1 : list (option R)) :
  forall acc : R,
  fold_left (fun magnitudeTotal componentV =>
               js_add (JSNumber := realNumber) magnitudeTotal
                 (js_mul (JSNumber := realNumber)
                    (ToNumber (N := realNumber) componentV)
                    (ToNumber (N := realNumber) componentV)))
    (map (fun p => binaryOpElement (N := realNumber) "-"%string (fst p) (snd p))
         (combine v0 v1)) acc
  = fold_left (fun magnitudeTotal componentV =>
               js_add (JSNumber := realNumber) magnitudeTotal
                 (js_mul (JSNumber := realNumber)
                    (ToNumber (N := realNumber) componentV)
                    (ToNumber (N := realNumber) componentV)))
    (map (fun p => binaryOpElement (N := realNumber) "-"%string (fst p) (snd p))
         (combine v1 v0)) acc.
Proof.
  revert v1. induction v0 as [|a v0 IH]; intros [|b v1] acc; try reflexivity.
  cbn [combine map fold_left]. rewrite IH. f_equal.
  cbn. ring.
Qed.

(** X24. In exact arithmetic a rule with numeric [min] and [max] and no
    [value] yields the weighted sum of the rule without them, raised to
    [min] and then lowered to [max]; so the result never exceeds [max], and
    it is at least [min] when [min <= max]. *)
Theorem valueFromRule_clamps :
  forall (base : option R) (multipliers vector : option (list (String.string * R)))
         (lo hi : R),
  exists a,
    valueFromRule (N := realNumber) (RuleObject base multipliers None None None) vector
    = Some a
    /\ valueFromRule (N := realNumber)
         (RuleObject base multipliers (Some lo) (Some hi) None) vector
       = Some (Rmin hi (Rmax lo a))
    /\ Rmin hi (Rmax lo a) <= hi
    /\ (lo <= hi -> lo <= Rmin hi (Rmax lo a)).
Proof.
  intros base ms vec lo hi. unfold valueFromRule.
  set (a := match vec with Some entries => _ | None => _ end).
  exists a. split; [reflexivity|]. split.
  - cbn. unfold Rltb, Rmin, Rmax. f_equal.
    repeat destruct (Rlt_dec _ _); repeat destruct (Rle_dec _ _); lra.
  - unfold Rmin, Rmax. split; [|intros Hle];
      repeat destruct (Rle_dec _ _); lra.
Qed.

(** X25. In exact arithmetic [vectorDistance] of two points of the plane is
    [pointToPointDistance] of them, and [vectorDistance] gives the same
    answer when its arguments are exchanged, for vectors of any length. *)
Theorem vectorDistance_agrees_and_is_symmetric :
  (forall a b c d : R,
     vectorDistance (N := realNumber) [Some a; Some b] [Some c; Some d]
     = Some (pointToPointDistance (N := realNumber) (a, b) (c, d)))
  /\ (forall v0 v1 : list (option R),
        vectorDistance (N := realNumber) v0 v1
        = vectorDistance (N := realNumber) v1 v0).
Proof.
  split.
  - intros a b c d. unfold vectorDistance, vectorDifference, vectorBinaryOp,
      vectorMagnitude, pointToPointDistance. cbn. do 2 f_equal. ring.
  - intros v0 v1. unfold vectorDistance, vectorDifference, vectorBinaryOp.
    rewrite Nat.eqb_sym.
    destruct (Nat.eqb _ _); [|reflexivity].
    unfold vectorMagnitude. do 2 f_equal.
    apply squares_fold_sym.
Qed.
End ExactGeometry.

(** X26. [vectorDistance] answers [null] exactly when the two vectors
    differ in length, whatever the numbers are. *)
Theorem vectorDistance_null_iff_lengths_differ :
  forall {num : Type} {N : JSNumber num} (v0 v1 : list (@jsval num)),
    vectorDistance v0 v1 = None <-> length v0 <> length v1.
Proof.
  intros num N v0 v1. unfold vectorDistance, vectorDifference, vectorBinaryOp.
  destruct (Nat.eqb (length v0) (length v1)) eqn:E; cbn.
  - apply Nat.eqb_eq in E. split; [discriminate|contradiction].
  - apply Nat.eqb_neq in E. split; [intros _; exact E|reflexivity].
Qed.

(** ** The order of binary64 values *)

Section FloatOrder.
Local Open Scope float_scope.

Lemma SFcompare_key (f1 f2 : spec_float) :
  SFcompare f1 f2
  = match sfKey f1, sfKey f2 with
    | Some k1, Some k2 => Some (lexCompare k1 k2)
    | _, _ => None
    end.
Proof.
  destruct f1 as [s1|s1| |s1 m1 e1], f2 as [s2|s2| |s2 m2 e2];
    try destruct s1; try destruct s2; try reflexivity.
  cbn. rewrite Z.compare_opp, (Z.compare_antisym e1 e2).
  destruct (e1 ?= e2)%Z; reflexivity.
Qed.

Lemma lexCompare_Lt (k1 k2 : Z * Z * Z) : lexCompare k1 k2 = Lt <-> lexLt k1 k2.
Proof.
  destruct k1 as [[a1 b1] c1], k2 as [[a2 b2] c2]. unfold lexCompare, lexLt.
  destruct (Z.compare_spec a1 a2); destruct (Z.compare_spec b1 b2);
    destruct (Z.compare_spec c1 c2); split; intros Hcmp;
    try discriminate; try reflexivity; try lia.
Qed.

Lemma lexCompare_Gt (k1 k2 : Z * Z * Z) : lexCompare k1 k2 = Gt <-> lexLt k2 k1.
Proof.
  destruct k1 as [[a1 b1] c1], k2 as [[a2 b2] c2]. unfold lexCompare, lexLt.
  destruct (Z.compare_spec a1 a2); destruct (Z.compare_spec b1 b2);
    destruct (Z.compare_spec c1 c2); split; intros Hcmp;
    try discriminate; try reflexivity; try lia.
Qed.

Lemma lexLt_irrefl (k : Z * Z * Z) : ~ lexLt k k.
Proof. destruct k as [[a b] c]. unfold lexLt. lia. Qed.

Lemma lexLt_trans (k1 k2 k3 : Z * Z * Z) : lexLt k1 k2 -> lexLt k2 k3 -> lexLt k1 k3.
Proof.
  destruct k1 as [[a1 b1] c1], k2 as [[a2 b2] c2], k3 as [[a3 b3] c3].
  unfold lexLt. lia.
Qed.

(** A value is NaN exactly when it has no key. *)
Lemma float_is_nan_key (x : float) :
  is_nan x = match sfKey (Prim2SF x) with Some _ => false | None => true end.
Proof.
  unfold is_nan. rewrite eqb_spec. unfold SFeqb. rewrite SFcompare_key.
  destruct (sfKey (Prim2SF x)) as [k|]; [|reflexivity].
  destruct (lexCompare k k) eqn:E; try reflexivity.
  - apply lexCompare_Lt in E. destruct (lexLt_irrefl _ E).
  - apply lexCompare_Gt in E. destruct (lexLt_irrefl _ E).
Qed.

(** [x < y] holds exactly when both have keys and the key of [x] is below
    the key of [y]. *)
Lemma float_ltb_key (x y : float) :
  (x <? y) = true
  <-> exists k1 k2, sfKey (Prim2SF x) = Some k1 /\ sfKey (Prim2SF y) = Some k2
                    /\ lexLt k1 k2.
Proof.
  rewrite ltb_spec. unfold SFltb. rewrite SFcompare_key.
  destruct (sfKey (Prim2SF x)) as [k1|], (sfKey (Prim2SF y)) as [k2|];
    try (split; [discriminate|intros (? & ? & ? & ? & _); discriminate]).
  destruct (lexCompare k1 k2) eqn:E; split; try discriminate.
  - intros (? & ? & [= <-] & [= <-] & H). apply lexCompare_Lt in H. congruence.
  - intros _. exists k1, k2. apply lexCompare_Lt in E. auto.
  - reflexivity.
  - intros (? & ? & [= <-] & [= <-] & H). apply lexCompare_Lt in H. congruence.
Qed.

(** [x <= y] holds exactly when both have keys and the key of [y] is not
    below the key of [x]. *)
Lemma float_leb_key (x y : float) :
  (x <=? y) = true
  <-> exists k1 k2, sfKey (Prim2SF x) = Some k1 /\ sfKey (Prim2SF y) = Some k2
                    /\ ~ lexLt k2 k1.
Proof.
  rewrite leb_spec. unfold SFleb. rewrite SFcompare_key.
  destruct (sfKey (Prim2SF x)) as [k1|], (sfKey (Prim2SF y)) as [k2|];
    try (split; [discriminate|intros (? & ? & ? & ? & _); discriminate]).
  destruct (lexCompare k1 k2) eqn:E; split; try discriminate; try reflexivity.
  - intros _. exists k1, k2. split; [reflexivity|]. split; [reflexivity|].
    intros H. apply lexCompare_Gt in H. congruence.
  - intros _. exists k1, k2. split; [reflexivity|]. split; [reflexivity|].
    intros H. apply lexCompare_Gt in H. congruence.
  - intros (? & ? & [= <-] & [= <-] & H). apply lexCompare_Gt in E. contradiction.
Qed.

Lemma float_ltb_irrefl (x : float) : (x <? x) = false.
Proof.
  destruct (x <? x) eqn:E; [|reflexivity].
  apply float_ltb_key in E. destruct E as (k1 & k2 & E1 & E2 & H).
  rewrite E1 in E2. injection E2 as <-. destruct (lexLt_irrefl _ H).
Qed.

Lemma float_ltb_not_nan (x y : float) :
  (x <? y) = true -> is_nan x = false /\ is_nan y = false.
Proof.
  intros E. apply float_ltb_key in E. destruct E as (k1 & k2 & E1 & E2 & _).
  rewrite !float_is_nan_key, E1, E2. auto.
Qed.

Lemma float_leb_refl (x : float) : is_nan x = false -> (x <=? x) = true.
Proof.
  rewrite float_is_nan_key. destruct (sfKey (Prim2SF x)) as [k|] eqn:E;
    [|discriminate].
  intros _. apply float_leb_key. exists k, k. rewrite E.
  split; [reflexivity|]. split; [reflexivity|]. apply lexLt_irrefl.
Qed.

Lemma lexLt_total (k1 k2 : Z * Z * Z) : lexLt k1 k2 \/ k1 = k2 \/ lexLt k2 k1.
Proof.
  destruct k1 as [[a1 b1] c1], k2 as [[a2 b2] c2]. unfold lexLt.
  destruct (Z.lt_total a1 a2) as [?|[?|?]]; [lia| |lia].
  destruct (Z.lt_total b1 b2) as [?|[?|?]]; [lia| |lia].
  destruct (Z.lt_total c1 c2) as [?|[?|?]]; [lia| |lia].
  right. left. subst. reflexivity.
Qed.

(** [x <= a] and [a < b] give [x <= b]. *)
Lemma float_leb_ltb_trans (x a b : float) :
  (x <=? a) = true -> (a <? b) = true -> (x <=? b) = true.
Proof.
  intros H1 H2. apply float_leb_key in H1. apply float_ltb_key in H2.
  destruct H1 as (kx & ka & Ex & Ea & H1). destruct H2 as (ka' & kb & Ea' & Eb & H2).
  rewrite Ea in Ea'. injection Ea' as <-.
  apply float_leb_key. exists kx, kb. split; [exact Ex|]. split; [exact Eb|].
  intros H. apply H1. exact (lexLt_trans _ _ _ H2 H).
Qed.

(** [b < a] and [a <= x] give [b <= x]. *)
Lemma float_ltb_leb_trans (b a x : float) :
  (b <? a) = true -> (a <=? x) = true -> (b <=? x) = true.
Proof.
  intros H2 H1. apply float_leb_key in H1. apply float_ltb_key in H2.
  destruct H1 as (ka & kx & Ea & Ex & H1). destruct H2 as (kb & ka' & Eb & Ea' & H2).
  rewrite Ea in Ea'. injection Ea' as <-.
  apply float_leb_key. exists kb, kx. split; [exact Eb|]. split; [exact Ex|].
  intros H. apply H1. exact (lexLt_trans _ _ _ H H2).
Qed.

(** Two values that are not NaN and of which the first is not below the
    second: the second is at most the first. *)
Lemma float_not_ltb_leb (a b : float) :
  is_nan a = false -> is_nan b = false -> (a <? b) = false -> (b <=? a) = true.
Proof.
  rewrite !float_is_nan_key.
  destruct (sfKey (Prim2SF a)) as [ka|] eqn:Ea; [|discriminate].
  destruct (sfKey (Prim2SF b)) as [kb|] eqn:Eb; [|discriminate].
  intros _ _ H. apply float_leb_key. exists kb, ka.
  split; [exact Eb|]. split; [exact Ea|].
  intros Hlt. assert (Ht : (a <? b) = true).
  { apply float_ltb_key. exists ka, kb. auto. }
  congruence.
Qed.
End FloatOrder.

(** ** The angle windows of analyseLines on binary64 *)

Section AngleWindows.
Local Open Scope float_scope.


(** [a < b] and [b <= c] give [a < c]. *)
Lemma float_ltb_leb_lt (a b c : float) :
  (a <? b) = true -> (b <=? c) = true -> (a <? c) = true.
Proof.
  intros H1 H2. apply float_ltb_key in H1. apply float_leb_key in H2.
  destruct H1 as (ka & kb & Ea & Eb & H1). destruct H2 as (kb' & kc & Eb' & Ec & H2).
  rewrite Eb in Eb'. injection Eb' as <-.
  apply float_ltb_key. exists ka, kc. split; [exact Ea|]. split; [exact Ec|].
  destruct (lexLt_total ka kc) as [Hlt|[->|Hgt]]; [exact Hlt|contradiction|].
  destruct (H2 (lexLt_trans _ _ _ Hgt H1)).
Qed.





End AngleWindows.

(** ** Scans of binary64 arrays *)

Section FloatScans.
Local Open Scope float_scope.
Variables host_asin host_acos : float -> float.

Lemma float_abs_is_nan (x : float) : is_nan (abs x) = is_nan x.
Proof.
  rewrite !float_is_nan_key, abs_spec.
  destruct (Prim2SF x) as [s|s| |s m e]; try destruct s; reflexivity.
Qed.

(** The loop of [arrayMin] and [arrayMinAbs], for a measure [f] that keeps
    NaN apart: after the elements [seen], [opv] is NaN if all of them are,
    and otherwise an element that is not NaN and of least measure. *)
Lemma least_scan (f : float -> float) (Hf : forall x, is_nan (f x) = is_nan x)
    (rest seen : list float) (opv : float) :
  ((is_nan opv = true /\ forall x, In x seen -> is_nan x = true)
   \/ (is_nan opv = false /\ In opv seen
       /\ forall x, In x seen -> is_nan x = false -> (f opv <=? f x) = true)) ->
  let m := fold_left (fun opv iv => if is_nan opv || (f iv <? f opv) then iv else opv)
             rest opv in
  (is_nan m = true /\ forall x, In x (seen ++ rest) -> is_nan x = true)
  \/ (is_nan m = false /\ In m (seen ++ rest)
      /\ forall x, In x (seen ++ rest) -> is_nan x = false -> (f m <=? f x) = true).
Proof.
  cbv zeta. revert seen opv. induction rest as [|iv rest IH]; intros seen opv H.
  - rewrite app_nil_r. exact H.
  - cbn [fold_left].
    replace (seen ++ iv :: rest) with ((seen ++ [iv]) ++ rest)
      by (rewrite <- app_assoc; reflexivity).
    apply IH. clear IH.
    destruct H as [[Hnan Hall]|(Hnum & Hin & Hleast)].
    + rewrite Hnan. cbn [orb].
      destruct (is_nan iv) eqn:Eiv.
      * left. split; [reflexivity|]. intros x Hx. apply in_app_or in Hx.
        destruct Hx as [Hx|[<-|[]]]; auto.
      * right. split; [reflexivity|]. split; [apply in_or_app; right; left; reflexivity|].
        intros x Hx Hxn. apply in_app_or in Hx. destruct Hx as [Hx|[<-|[]]].
        -- rewrite (Hall x Hx) in Hxn. discriminate.
        -- apply float_leb_refl. rewrite Hf. exact Eiv.
    + rewrite Hnum. cbn [orb]. right.
      destruct (f iv <? f opv) eqn:Elt.
      * destruct (float_ltb_not_nan _ _ Elt) as [Hn _]. rewrite Hf in Hn.
        split; [exact Hn|]. split; [apply in_or_app; right; left; reflexivity|].
        intros x Hx Hxn. apply in_app_or in Hx. destruct Hx as [Hx|[<-|[]]].
        -- exact (float_ltb_leb_trans _ _ _ Elt (Hleast x Hx Hxn)).
        -- apply float_leb_refl. rewrite Hf. exact Hn.
      * split; [exact Hnum|]. split; [apply in_or_app; left; exact Hin|].
        intros x Hx Hxn. apply in_app_or in Hx. destruct Hx as [Hx|[<-|[]]].
        -- exact (Hleast x Hx Hxn).
        -- apply float_not_ltb_leb; rewrite ?Hf; assumption.
Qed.

(** The loop of [arrayMax]. *)
Lemma greatest_scan (rest seen : list float) (opv : float) :
  ((is_nan opv = true /\ forall x, In x seen -> is_nan x = true)
   \/ (is_nan opv = false /\ In opv seen
       /\ forall x, In x seen -> is_nan x = false -> (x <=? opv) = true)) ->
  let m := fold_left (fun opv iv => if is_nan opv || (opv <? iv) then iv else opv)
             rest opv in
  (is_nan m = true /\ forall x, In x (seen ++ rest) -> is_nan x = true)
  \/ (is_nan m = false /\ In m (seen ++ rest)
      /\ forall x, In x (seen ++ rest) -> is_nan x = false -> (x <=? m) = true).
Proof.
  cbv zeta. revert seen opv. induction rest as [|iv rest IH]; intros seen opv H.
  - rewrite app_nil_r. exact H.
  - cbn [fold_left].
    replace (seen ++ iv :: rest) with ((seen ++ [iv]) ++ rest)
      by (rewrite <- app_assoc; reflexivity).
    apply IH. clear IH.
    destruct H as [[Hnan Hall]|(Hnum & Hin & Hmost)].
    + rewrite Hnan. cbn [orb].
      destruct (is_nan iv) eqn:Eiv.
      * left. split; [reflexivity|]. intros x Hx. apply in_app_or in Hx.
        destruct Hx as [Hx|[<-|[]]]; auto.
      * right. split; [reflexivity|]. split; [apply in_or_app; right; left; reflexivity|].
        intros x Hx Hxn. apply in_app_or in Hx. destruct Hx as [Hx|[<-|[]]].
        -- rewrite (Hall x Hx) in Hxn. discriminate.
        -- apply float_leb_refl. exact Eiv.
    + rewrite Hnum. cbn [orb]. right.
      destruct (opv <? iv) eqn:Elt.
      * destruct (float_ltb_not_nan _ _ Elt) as [_ Hn].
        split; [exact Hn|]. split; [apply in_or_app; right; left; reflexivity|].
        intros x Hx Hxn. apply in_app_or in Hx. destruct Hx as [Hx|[<-|[]]].
        -- exact (float_leb_ltb_trans _ _ _ (Hmost x Hx Hxn) Elt).
        -- apply float_leb_refl. exact Hn.
      * split; [exact Hnum|]. split; [apply in_or_app; left; exact Hin|].
        intros x Hx Hxn. apply in_app_or in Hx. destruct Hx as [Hx|[<-|[]]].
        -- exact (Hmost x Hx Hxn).
        -- apply float_not_ltb_leb; assumption.
Qed.

Lemma arrayMin_scan (arr : list float) :
  let m := arrayMin (N := floatNumber host_asin host_acos) is_nan nan arr in
  (is_nan m = true /\ forall x, In x arr -> is_nan x = true)
  \/ (is_nan m = false /\ In m arr
      /\ forall x, In x arr -> is_nan x = false -> (m <=? x) = true).
Proof.
  apply (least_scan (fun x => x) (fun x => eq_refl) arr [] nan).
  left. split; [reflexivity|]. intros x [].
Qed.

(** X27. On binary64 numbers [arrayMax], [arrayMin] and [arrayMinAbs] skip
    NaN entries: the answer is NaN when every entry is NaN (or there is
    none), and otherwise it is an entry that is not NaN and that no other
    such entry exceeds, undercuts, or undercuts in absolute value. *)
Theorem array_extremes_skip_NaN :
  forall arr : list float,
    let least (f : float -> float) (m : float) :=
      (is_nan m = true /\ forall x, In x arr -> is_nan x = true)
      \/ (is_nan m = false /\ In m arr
          /\ forall x, In x arr -> is_nan x = false -> (f m <=? f x) = true) in
    let greatest (m : float) :=
      (is_nan m = true /\ forall x, In x arr -> is_nan x = true)
      \/ (is_nan m = false /\ In m arr
          /\ forall x, In x arr -> is_nan x = false -> (x <=? m) = true) in
    greatest (arrayMax (N := floatNumber host_asin host_acos) is_nan nan arr)
    /\ least (fun x => x)
         (arrayMin (N := floatNumber host_asin host_acos) is_nan nan arr)
    /\ least abs
         (arrayMinAbs (N := floatNumber host_asin host_acos) is_nan nan arr).
Proof.
  intros arr. cbv zeta. split; [|split].
  - apply (greatest_scan arr [] nan).
    left. split; [reflexivity|]. intros x [].
  - exact (arrayMin_scan arr).
  - apply (least_scan abs float_abs_is_nan arr [] nan).
    left. split; [reflexivity|]. intros x [].
Qed.

(** X28. On binary64 numbers [vectorScalarPositiveOrZero] of an array holds
    exactly when some entry is not NaN and every entry that is not NaN is at
    least 0: NaN entries are passed over, and an array with no number in it
    (the empty one included) is refused. *)
Theorem vectorScalarPositiveOrZero_of_array :
  forall arr : list float,
    vectorScalarPositiveOrZero (N := floatNumber host_asin host_acos)
      is_nan nan (inl arr) = true
    <-> ((exists x, In x arr /\ is_nan x = false)
         /\ forall x, In x arr -> is_nan x = false -> (0 <=? x) = true).
Proof.
  intros arr. unfold vectorScalarPositiveOrZero.
  change (js_le (JSNumber := floatNumber host_asin host_acos)
            (js_int (JSNumber := floatNumber host_asin host_acos) 0) ?a)
    with (0 <=? a).
  pose proof (arrayMin_scan arr) as Hscan. cbv zeta in Hscan.
  set (m := arrayMin (N := floatNumber host_asin host_acos) is_nan nan arr) in *.
  change (js_le (JSNumber := floatNumber host_asin host_acos)
            (js_int (JSNumber := floatNumber host_asin host_acos) 0) m)
    with (0 <=? m).
  destruct (0 <=? m) eqn:E; split; try discriminate; try reflexivity.
  - intros _.
    assert (Hm : is_nan m = false).
    { apply float_leb_key in E. destruct E as (k0 & km & _ & Em & _).
      rewrite float_is_nan_key, Em. reflexivity. }
    destruct Hscan as [[Hnan _]|(_ & Hin & Hleast)]; [congruence|].
    split; [exists m; auto|].
    intros x Hx Hxn. pose proof (Hleast x Hx Hxn) as Hmx.
    destruct (0 <? m) eqn:Elt.
    + exact (float_ltb_leb_trans _ _ _ Elt Hmx).
    + assert (Hm0 : (m <=? 0) = true)
        by (apply float_not_ltb_leb; [reflexivity|exact Hm|exact Elt]).
      (* m and 0 have the same key, so 0 <= x follows from m <= x *)
      apply float_leb_key in E. destruct E as (k0 & km & E0 & Em & H0m).
      apply float_leb_key in Hm0. destruct Hm0 as (km' & k0' & Em' & E0' & Hm0).
      rewrite Em in Em'. injection Em' as <-. rewrite E0 in E0'. injection E0' as <-.
      apply float_leb_key in Hmx. destruct Hmx as (km' & kx & Em' & Ex & Hmx).
      rewrite Em in Em'. injection Em' as <-.
      apply float_leb_key. exists k0, kx. split; [exact E0|]. split; [exact Ex|].
      intros Hlt. destruct (lexLt_total k0 km) as [Hc|[Hc|Hc]].
      * apply Hm0. exact Hc.
      * subst km. contradiction.
      * contradiction.
  - intros [[x [Hx Hxn]] Hall].
    destruct Hscan as [[_ Hnan]|(Hm & Hin & _)].
    + rewrite (Hnan x Hx) in Hxn. discriminate.
    + rewrite (Hall m Hin Hm) in E. discriminate.
Qed.

(** X29. On binary64 numbers [rectangleValidatePositive] accepts exactly the
    arrays [rectangleValidate] accepts: its two further tests never fail
    once [rectangleValidate] has passed. *)
Theorem rectangleValidatePositive_is_rectangleValidate :
  forall rect : list float,
    rectangleValidatePositive (N := floatNumber host_asin host_acos) is_nan rect
    = rectangleValidate (N := floatNumber host_asin host_acos) is_nan rect.
Proof.
  intros rect. unfold rectangleValidatePositive.
  destruct rect as [|r0 [|r1 [|r2 [|r3 [|r4 rest]]]]];
    try (destruct (rectangleValidate _ _); reflexivity).
  destruct (rectangleValidate is_nan [r0; r1; r2; r3]) eqn:E; [|reflexivity].
  unfold rectangleValidate in E.
  destruct (is_nan r0 || is_nan r1 || is_nan r2 || is_nan r3)%bool eqn:En;
    [discriminate|].
  apply Bool.orb_false_iff in En. destruct En as [En Hn3].
  apply Bool.orb_false_iff in En. destruct En as [En Hn2].
  match type of E with (if ?c then _ else _) = _ => destruct c eqn:Ec end;
    [discriminate|].
  apply Bool.orb_false_iff in Ec. destruct Ec as [Ec H3].
  apply Bool.orb_false_iff in Ec. destruct Ec as [Ec H2].
  cbn in H2, H3.
  assert (P : forall r, is_nan r = false -> (r <=? 0) = false -> (0 <? r) = true).
  { intros r Hr Hle. destruct (0 <? r) eqn:Elt; [reflexivity|].
    rewrite (float_not_ltb_leb 0 r eq_refl Hr Elt) in Hle. discriminate. }
  cbn. rewrite (P r2 Hn2 H2), (P r3 Hn3 H3). reflexivity.
Qed.

Lemma boundsStep_keeps_set_bounds (rest : list (SchemedLine float))
    (acc : BoundsAcc (num := float)) (x0 x1 y0 y1 : float) :
  minX acc = Some x0 -> maxX acc = Some x1 ->
  minY acc = Some y0 -> maxY acc = Some y1 ->
  let final := fold_left (boundsStep (N := floatNumber host_asin host_acos)) rest acc in
  minX final = Some x0 /\ maxX final = Some x1
  /\ minY final = Some y0 /\ maxY final = Some y1.
Proof.
  cbv zeta. revert acc. induction rest as [|l rest IH]; intros acc Hx0 Hx1 Hy0 Hy1.
  - cbn. auto.
  - cbn [fold_left]. apply IH; unfold boundsStep; cbn [minX maxX minY maxY];
      rewrite ?Hx0, ?Hx1, ?Hy0, ?Hy1; unfold boundUnsetOrBelowItself;
      cbn [js_lt floatNumber]; rewrite float_ltb_irrefl; reflexivity.
Qed.

(** X30. On binary64 numbers the line [linesSchemedToFlatlineByBounds]
    returns for a group runs between the corners of the box of the group's
    first line alone: the tests [minX < minX], [maxX > maxX] and the like
    never hold, so the later lines only decide which diagonal is taken. *)
Theorem linesSchemedToFlatlineByBounds_uses_the_first_line_only :
  forall (first : SchemedLine float) (rest : list (SchemedLine float))
         (signed : bool),
    let c := sl_coordinates first in
    let r := linesSchemedToFlatlineByBounds (N := floatNumber host_asin host_acos)
               (first :: rest) signed in
    q0 r = Some (float_min (q0 c) (q2 c))
    /\ q2 r = Some (float_max (q0 c) (q2 c))
    /\ ((q1 r = Some (float_min (q1 c) (q3 c))
         /\ q3 r = Some (float_max (q1 c) (q3 c)))
        \/ (q1 r = Some (float_max (q1 c) (q3 c))
            /\ q3 r = Some (float_min (q1 c) (q3 c)))).
Proof.
  intros first rest signed. cbv zeta. unfold linesSchemedToFlatlineByBounds.
  cbn [fold_left].
  destruct (boundsStep_keeps_set_bounds rest
              (boundsStep (N := floatNumber host_asin host_acos)
                 (mkBoundsAcc (num := float) None None None None 0) first)
              (float_min (q0 (sl_coordinates first)) (q2 (sl_coordinates first)))
              (float_max (q0 (sl_coordinates first)) (q2 (sl_coordinates first)))
              (float_min (q1 (sl_coordinates first)) (q3 (sl_coordinates first)))
              (float_max (q1 (sl_coordinates first)) (q3 (sl_coordinates first)))
              eq_refl eq_refl eq_refl eq_refl) as (Hx0 & Hx1 & Hy0 & Hy1).
  destruct (signed && _)%bool; cbn [q0 q1 q2 q3];
    rewrite Hx0, Hx1, Hy0, Hy1; auto.
Qed.
(** *** Rectangles and boxes on binary64 *)

Lemma float_ltb_leb (a b : float) : (a <? b) = true -> (a <=? b) = true.
Proof.
  intros H. destruct (float_ltb_not_nan _ _ H) as [_ Hb].
  exact (float_ltb_leb_trans _ _ _ H (float_leb_refl _ Hb)).
Qed.

Lemma float_leb_not_ltb (a b : float) : (a <=? b) = true -> (b <? a) = false.
Proof.
  intros H. destruct (b <? a) eqn:E; [|reflexivity].
  apply float_leb_key in H. apply float_ltb_key in E.
  destruct H as (ka & kb & Ea & Eb & H). destruct E as (kb' & ka' & Eb' & Ea' & E).
  rewrite Ea in Ea'. injection Ea' as <-. rewrite Eb in Eb'. injection Eb' as <-.
  contradiction.
Qed.

Lemma float_leb_not_nan (a b : float) :
  (a <=? b) = true -> is_nan a = false /\ is_nan b = false.
Proof.
  intros H. apply float_leb_key in H. destruct H as (ka & kb & Ea & Eb & _).
  rewrite !float_is_nan_key, Ea, Eb. auto.
Qed.

(** [Math.min] of two numbers is one of them and at most both. *)
Lemma float_min_spec (a b : float) :
  is_nan a = false -> is_nan b = false ->
  (float_min a b = a \/ float_min a b = b)
  /\ (float_min a b <=? a) = true /\ (float_min a b <=? b) = true.
Proof.
  intros Ha Hb. unfold float_min. rewrite Ha, Hb. cbn [orb].
  destruct (a <? b) eqn:Eab.
  - split; [auto|]. split; [exact (float_leb_refl _ Ha)|exact (float_ltb_leb _ _ Eab)].
  - destruct (b <? a) eqn:Eba.
    + split; [auto|]. split; [exact (float_ltb_leb _ _ Eba)|exact (float_leb_refl _ Hb)].
    + pose proof (float_not_ltb_leb _ _ Ha Hb Eab) as Hba.
      pose proof (float_not_ltb_leb _ _ Hb Ha Eba) as Hab.
      destruct (get_sign a); (split; [auto|]); split;
        auto using float_leb_refl.
Qed.

(** [Math.max] of two numbers is one of them and at least both. *)
Lemma float_max_spec (a b : float) :
  is_nan a = false -> is_nan b = false ->
  (float_max a b = a \/ float_max a b = b)
  /\ (a <=? float_max a b) = true /\ (b <=? float_max a b) = true.
Proof.
  intros Ha Hb. unfold float_max. rewrite Ha, Hb. cbn [orb].
  destruct (a <? b) eqn:Eab.
  - split; [auto|]. split; [exact (float_ltb_leb _ _ Eab)|exact (float_leb_refl _ Hb)].
  - destruct (b <? a) eqn:Eba.
    + split; [auto|]. split; [exact (float_leb_refl _ Ha)|exact (float_ltb_leb _ _ Eba)].
    + pose proof (float_not_ltb_leb _ _ Ha Hb Eab) as Hba.
      pose proof (float_not_ltb_leb _ _ Hb Ha Eba) as Hab.
      destruct (get_sign a); (split; [auto|]); split;
        auto using float_leb_refl.
Qed.

Lemma float_leb_trans (a b c : float) :
  (a <=? b) = true -> (b <=? c) = true -> (a <=? c) = true.
Proof.
  intros H1 H2. destruct (float_leb_not_nan _ _ H1) as [Ha Hb].
  destruct (float_leb_not_nan _ _ H2) as [_ Hc].
  destruct (c <? a) eqn:E.
  - pose proof (float_ltb_leb_lt _ _ _ E H1) as Hcb.
    rewrite (float_leb_not_ltb _ _ H2) in Hcb. discriminate.
  - exact (float_not_ltb_leb _ _ Hc Ha E).
Qed.

(** X21. On binary64 numbers [rectangleConstrainInRectangle] moves the
    corner of the rectangle to the corner of the bounds or leaves it: when
    the two x-coordinates are numbers the new x is one of them and at least
    both, and likewise in y; and a rectangle that passes the program's own
    tests of lying in the bounds, with width and height at least 0, is
    returned as it is. *)
Theorem rectangleConstrainInRectangle_corner_and_fixed_point :
  forall bounds rect : Quad float,
    let r := rectangleConstrainInRectangle (N := floatNumber host_asin host_acos)
               bounds rect in
    (is_nan (q0 bounds) = false -> is_nan (q0 rect) = false ->
     (q0 r = q0 bounds \/ q0 r = q0 rect)
     /\ (q0 bounds <=? q0 r) = true /\ (q0 rect <=? q0 r) = true)
    /\ (is_nan (q1 bounds) = false -> is_nan (q1 rect) = false ->
        (q1 r = q1 bounds \/ q1 r = q1 rect)
        /\ (q1 bounds <=? q1 r) = true /\ (q1 rect <=? q1 r) = true)
    /\ ((q0 bounds <=? q0 rect) = true -> (q1 bounds <=? q1 rect) = true ->
        (0 <=? q2 rect) = true -> (0 <=? q3 rect) = true ->
        (q0 rect + q2 rect <=? q0 bounds + q2 bounds) = true ->
        (q1 rect + q3 rect <=? q1 bounds + q3 bounds) = true ->
        r = rect).
Proof.
  intros [bx by_ bw bh] [x y w h]. cbv zeta.
  unfold rectangleConstrainInRectangle.
  cbn [q0 q1 q2 q3 js_lt js_add js_sub js_int floatNumber float_of_Z].
  assert (Hcorner : forall b v : float,
             is_nan b = false -> is_nan v = false ->
             ((if v <? b then b else v) = b \/ (if v <? b then b else v) = v)
             /\ (b <=? (if v <? b then b else v)) = true
             /\ (v <=? (if v <? b then b else v)) = true).
  { intros b v Hb Hv. destruct (v <? b) eqn:E.
    - split; [auto|]. split; [exact (float_leb_refl _ Hb)|exact (float_ltb_leb _ _ E)].
    - split; [auto|]. split; [exact (float_not_ltb_leb _ _ Hv Hb E)|
                              exact (float_leb_refl _ Hv)]. }
  split; [exact (Hcorner bx x)|]. split; [exact (Hcorner by_ y)|].
  intros Hx Hy Hw Hh Hxw Hyh.
  rewrite (float_leb_not_ltb _ _ Hx), (float_leb_not_ltb _ _ Hy).
  rewrite (float_leb_not_ltb _ _ Hw), (float_leb_not_ltb _ _ Hh).
  rewrite (float_leb_not_ltb _ _ Hxw), (float_leb_not_ltb _ _ Hyh).
  reflexivity.
Qed.

(** X22. On binary64 numbers [rectangleConstrainValidateInImage] answers
    [null] when the image or the rectangle is [null]; a rectangle it
    returns is the rounded rectangle constrained in the image, holds no NaN,
    and has x >= 0, y >= 0, width > 0 and height > 0. *)
Theorem rectangleConstrainValidateInImage_result_is_valid :
  forall (Math_round : float -> float) (img : option (ImageSize (num := float)))
         (rect : option (Quad float)) (r : Quad float),
    rectangleConstrainValidateInImage (N := floatNumber host_asin host_acos)
      is_nan Math_round img rect = Some r ->
    (exists i rc,
        img = Some i /\ rect = Some rc
        /\ r = rectangleConstrainInImage (N := floatNumber host_asin host_acos) i
                 (mkQuad (Math_round (q0 rc)) (Math_round (q1 rc))
                         (Math_round (q2 rc)) (Math_round (q3 rc))))
    /\ Forall (fun v => is_nan v = false) (elems r)
    /\ (0 <=? q0 r) = true /\ (0 <=? q1 r) = true
    /\ (0 <? q2 r) = true /\ (0 <? q3 r) = true.
Proof.
  intros round img rect r. unfold rectangleConstrainValidateInImage.
  destruct img as [i|]; [|discriminate]. destruct rect as [rc|]; [|discriminate].
  set (c := rectangleConstrainInImage i _).
  destruct (rectangleValidatePositive is_nan (elems c)) eqn:Hv; [|discriminate].
  intros H. injection H as <-.
  split; [exists i, rc; auto|].
  destruct c as [x y w h]. unfold rectangleValidatePositive, rectangleValidate in Hv.
  cbn [elems q0 q1 q2 q3] in *.
  destruct (is_nan x || is_nan y || is_nan w || is_nan h)%bool eqn:En;
    [discriminate|].
  apply Bool.orb_false_iff in En. destruct En as [En Hnh].
  apply Bool.orb_false_iff in En. destruct En as [En Hnw].
  apply Bool.orb_false_iff in En. destruct En as [Hnx Hny].
  cbn [js_lt js_le js_int floatNumber float_of_Z] in Hv.
  destruct (x <? 0) eqn:Ex; [discriminate|].
  destruct (y <? 0) eqn:Ey; [discriminate|].
  cbn [orb] in Hv.
  destruct (0 <? w) eqn:Ew; [|destruct (_ || _)%bool; discriminate].
  destruct (0 <? h) eqn:Eh;
    [|destruct (_ || _)%bool; cbn in Hv; discriminate].
  split; [repeat constructor; assumption|].
  split; [exact (float_not_ltb_leb x 0 Hnx eq_refl Ex)|].
  split; [exact (float_not_ltb_leb y 0 Hny eq_refl Ey)|].
  split; reflexivity.
Qed.

(** The joining loop on numbers: after the members [seen], a lower bound
    is the least of their values and an upper bound the greatest. *)
Lemma lowerBound_least (f : SchemedLine float -> float)
    (seen : list (SchemedLine float)) (cur : option float) (s : SchemedLine float) :
  is_nan (f s) = false ->
  match cur with
  | None => seen = []
  | Some m => is_nan m = false
              /\ (forall t, In t seen -> (m <=? f t) = true)
              /\ exists t, In t seen /\ m = f t
  end ->
  match lowerBound (N := floatNumber host_asin host_acos) cur (f s) with
  | None => seen ++ [s] = []
  | Some m => is_nan m = false
              /\ (forall t, In t (seen ++ [s]) -> (m <=? f t) = true)
              /\ exists t, In t (seen ++ [s]) /\ m = f t
  end.
Proof.
  intros Hs. destruct cur as [c|]; cbn.
  - intros (Hc & Hall & t & Ht & Et). destruct (f s <? c) eqn:E.
    + split; [exact Hs|]. split.
      * intros u Hu. apply in_app_or in Hu. destruct Hu as [Hu|[<-|[]]].
        -- exact (float_ltb_leb_trans _ _ _ E (Hall u Hu)).
        -- exact (float_leb_refl _ Hs).
      * exists s. split; [apply in_or_app; right; left; reflexivity|reflexivity].
    + split; [exact Hc|]. split.
      * intros u Hu. apply in_app_or in Hu. destruct Hu as [Hu|[<-|[]]].
        -- exact (Hall u Hu).
        -- exact (float_not_ltb_leb _ _ Hs Hc E).
      * exists t. split; [apply in_or_app; left; exact Ht|exact Et].
  - intros ->. cbn. split; [exact Hs|]. split.
    + intros u [<-|[]]. exact (float_leb_refl _ Hs).
    + exists s. split; [left; reflexivity|reflexivity].
Qed.

Lemma upperBound_greatest (f : SchemedLine float -> float)
    (seen : list (SchemedLine float)) (cur : option float) (s : SchemedLine float) :
  is_nan (f s) = false ->
  match cur with
  | None => seen = []
  | Some m => is_nan m = false
              /\ (forall t, In t seen -> (f t <=? m) = true)
              /\ exists t, In t seen /\ m = f t
  end ->
  match upperBound (N := floatNumber host_asin host_acos) cur (f s) with
  | None => seen ++ [s] = []
  | Some m => is_nan m = false
              /\ (forall t, In t (seen ++ [s]) -> (f t <=? m) = true)
              /\ exists t, In t (seen ++ [s]) /\ m = f t
  end.
Proof.
  intros Hs. destruct cur as [c|]; cbn.
  - intros (Hc & Hall & t & Ht & Et). destruct (c <? f s) eqn:E.
    + split; [exact Hs|]. split.
      * intros u Hu. apply in_app_or in Hu. destruct Hu as [Hu|[<-|[]]].
        -- exact (float_leb_ltb_trans _ _ _ (Hall u Hu) E).
        -- exact (float_leb_refl _ Hs).
      * exists s. split; [apply in_or_app; right; left; reflexivity|reflexivity].
    + split; [exact Hc|]. split.
      * intros u Hu. apply in_app_or in Hu. destruct Hu as [Hu|[<-|[]]].
        -- exact (Hall u Hu).
        -- exact (float_not_ltb_leb _ _ Hc Hs E).
      * exists t. split; [apply in_or_app; left; exact Ht|exact Et].
  - intros ->. cbn. split; [exact Hs|]. split.
    + intros u [<-|[]]. exact (float_leb_refl _ Hs).
    + exists s. split; [left; reflexivity|reflexivity].
Qed.

(** The four bounds after the joining loop are the extremes of the members
    seen, when the coordinates of the members are numbers. *)
Lemma boxStep_fold_extremes (n : Z) (rest seen : list (SchemedLine float))
    (acc : BoxAcc (num := float)) :
  let xLow s := float_min (q0 (sl_coordinates s)) (q2 (sl_coordinates s)) in
  let xHigh s := float_max (q0 (sl_coordinates s)) (q2 (sl_coordinates s)) in
  let yLow s := float_min (q1 (sl_coordinates s)) (q3 (sl_coordinates s)) in
  let yHigh s := float_max (q1 (sl_coordinates s)) (q3 (sl_coordinates s)) in
  let least f (l : list (SchemedLine float)) (v : option float) :=
    match v with
    | None => l = []
    | Some m => is_nan m = false
                /\ (forall t, In t l -> (m <=? f t) = true)
                /\ exists t, In t l /\ m = f t
    end in
  let greatest f (l : list (SchemedLine float)) (v : option float) :=
    match v with
    | None => l = []
    | Some m => is_nan m = false
                /\ (forall t, In t l -> (f t <=? m) = true)
                /\ exists t, In t l /\ m = f t
    end in
  (forall s, In s rest ->
     Forall (fun v => is_nan v = false) (elems (sl_coordinates s))) ->
  least xLow seen (xMin acc) /\ greatest xHigh seen (xMax acc)
  /\ least yLow seen (yMin acc) /\ greatest yHigh seen (yMax acc) ->
  let final := fold_left (boxStep (N := floatNumber host_asin host_acos) n) rest acc in
  least xLow (seen ++ rest) (xMin final)
  /\ greatest xHigh (seen ++ rest) (xMax final)
  /\ least yLow (seen ++ rest) (yMin final)
  /\ greatest yHigh (seen ++ rest) (yMax final).
Proof.
  cbv zeta. revert seen acc.
  induction rest as [|s rest IH]; intros seen acc Hnum H.
  - rewrite app_nil_r. exact H.
  - cbn [fold_left].
    replace (seen ++ s :: rest) with ((seen ++ [s]) ++ rest)
      by (rewrite <- app_assoc; reflexivity).
    apply IH; [intros t Ht; apply Hnum; right; exact Ht|].
    destruct H as (H1 & H2 & H3 & H4).
    assert (Hs : is_nan (q0 (sl_coordinates s)) = false
                 /\ is_nan (q1 (sl_coordinates s)) = false
                 /\ is_nan (q2 (sl_coordinates s)) = false
                 /\ is_nan (q3 (sl_coordinates s)) = false).
    { pose proof (Hnum s (or_introl eq_refl)) as Hs.
      destruct (sl_coordinates s) as [c0 c1 c2 c3]. cbn [elems] in Hs.
      inversion Hs as [|? ? H0 Hs1]; subst. inversion Hs1 as [|? ? H1' Hs2]; subst.
      inversion Hs2 as [|? ? H2' Hs3]; subst. inversion Hs3 as [|? ? H3' _]; subst.
      cbn. auto. }
    destruct Hs as (N0 & N1 & N2 & N3).
    assert (Nmin : forall a b, is_nan a = false -> is_nan b = false ->
                               is_nan (float_min a b) = false).
    { intros a b Ha Hb. destruct (float_min_spec a b Ha Hb) as [[->| ->] _]; assumption. }
    assert (Nmax : forall a b, is_nan a = false -> is_nan b = false ->
                               is_nan (float_max a b) = false).
    { intros a b Ha Hb. destruct (float_max_spec a b Ha Hb) as [[->| ->] _]; assumption. }
    unfold boxStep. cbn [xMin xMax yMin yMax].
    split; [|split; [|split]].
    + exact (lowerBound_least
               (fun s => float_min (q0 (sl_coordinates s)) (q2 (sl_coordinates s)))
               seen _ s (Nmin _ _ N0 N2) H1).
    + exact (upperBound_greatest
               (fun s => float_max (q0 (sl_coordinates s)) (q2 (sl_coordinates s)))
               seen _ s (Nmax _ _ N0 N2) H2).
    + exact (lowerBound_least
               (fun s => float_min (q1 (sl_coordinates s)) (q3 (sl_coordinates s)))
               seen _ s (Nmin _ _ N1 N3) H3).
    + exact (upperBound_greatest
               (fun s => float_max (q1 (sl_coordinates s)) (q3 (sl_coordinates s)))
               seen _ s (Nmax _ _ N1 N3) H4).
Qed.

(** X23. On binary64 numbers, for a group whose coordinates are all numbers
    (none NaN), the line the joining loop of [consolidateLinesSchemed]
    builds spans the bounding box of the group: the x-coordinates of every
    member lie between the x-coordinates of the line's ends and the
    y-coordinates between its y-coordinates (taken in one order or the
    other), and each coordinate of the line is a coordinate of some
    member. *)
Theorem bigLineOf_spans_the_bounding_box :
  forall (schemedLineCount : Z) (lineGroup : list (SchemedLine float))
         (b : BigLine float),
    (forall s, In s lineGroup ->
       Forall (fun v => is_nan v = false) (elems (sl_coordinates s))) ->
    bigLineOf (N := floatNumber host_asin host_acos) schemedLineCount lineGroup
    = Some b ->
    let l := bl_line b in
    let within (lo hi v : float) := (lo <=? v) = true /\ (v <=? hi) = true in
    (forall s, In s lineGroup ->
       within (q0 l) (q2 l) (q0 (sl_coordinates s))
       /\ within (q0 l) (q2 l) (q2 (sl_coordinates s)))
    /\ ((forall s, In s lineGroup ->
           within (q1 l) (q3 l) (q1 (sl_coordinates s))
           /\ within (q1 l) (q3 l) (q3 (sl_coordinates s)))
        \/ (forall s, In s lineGroup ->
              within (q3 l) (q1 l) (q1 (sl_coordinates s))
              /\ within (q3 l) (q1 l) (q3 (sl_coordinates s))))
    /\ (exists s, In s lineGroup
                  /\ (q0 l = q0 (sl_coordinates s) \/ q0 l = q2 (sl_coordinates s)))
    /\ (exists s, In s lineGroup
                  /\ (q2 l = q0 (sl_coordinates s) \/ q2 l = q2 (sl_coordinates s)))
    /\ (exists s, In s lineGroup
                  /\ (q1 l = q1 (sl_coordinates s) \/ q1 l = q3 (sl_coordinates s)))
    /\ (exists s, In s lineGroup
                  /\ (q3 l = q1 (sl_coordinates s) \/ q3 l = q3 (sl_coordinates s))).
Proof.
  intros n g b Hnum. unfold bigLineOf.
  pose proof (boxStep_fold_extremes n g []
                (mkBoxAcc (num := float) None None None None None 0) Hnum) as Hbox.
  cbn [app] in Hbox.
  specialize (Hbox (conj eq_refl (conj eq_refl (conj eq_refl eq_refl)))).
  destruct Hbox as (HxMin & HxMax & HyMin & HyMax).
  destruct (fold_left _ g _) as [axMin axMax ayMin ayMax aLast aRank].
  cbn [xMin xMax yMin yMax lastAngle rank] in *.
  destruct aLast as [a|]; [|discriminate].
  destruct axMin as [x0|]; [|discriminate].
  destruct ayMin as [y0|]; [|discriminate].
  destruct axMax as [x1|]; [|discriminate].
  destruct ayMax as [y1|]; [|discriminate].
  destruct HxMin as (_ & Hx0 & sx0 & Hsx0 & Ex0).
  destruct HxMax as (_ & Hx1 & sx1 & Hsx1 & Ex1).
  destruct HyMin as (_ & Hy0 & sy0 & Hsy0 & Ey0).
  destruct HyMax as (_ & Hy1 & sy1 & Hsy1 & Ey1).
  assert (Hcoords : forall s, In s g ->
            is_nan (q0 (sl_coordinates s)) = false
            /\ is_nan (q1 (sl_coordinates s)) = false
            /\ is_nan (q2 (sl_coordinates s)) = false
            /\ is_nan (q3 (sl_coordinates s)) = false).
  { intros s Hs. pose proof (Hnum s Hs) as H.
    destruct (sl_coordinates s) as [c0 c1 c2 c3]. cbn [elems] in H.
    inversion H as [|? ? H0 Hs1]; subst. inversion Hs1 as [|? ? H1' Hs2]; subst.
    inversion Hs2 as [|? ? H2' Hs3]; subst. inversion Hs3 as [|? ? H3' _]; subst.
    cbn. auto. }
  assert (Hxs : forall s, In s g ->
            ((x0 <=? q0 (sl_coordinates s)) = true
             /\ (q0 (sl_coordinates s) <=? x1) = true)
            /\ ((x0 <=? q2 (sl_coordinates s)) = true
                /\ (q2 (sl_coordinates s) <=? x1) = true)).
  { intros s Hs. destruct (Hcoords s Hs) as (N0 & _ & N2 & _).
    destruct (float_min_spec _ _ N0 N2) as (_ & Hm0 & Hm2).
    destruct (float_max_spec _ _ N0 N2) as (_ & HM0 & HM2).
    pose proof (Hx0 s Hs). pose proof (Hx1 s Hs).
    repeat split; eauto using float_leb_trans. }
  assert (Hys : forall s, In s g ->
            ((y0 <=? q1 (sl_coordinates s)) = true
             /\ (q1 (sl_coordinates s) <=? y1) = true)
            /\ ((y0 <=? q3 (sl_coordinates s)) = true
                /\ (q3 (sl_coordinates s) <=? y1) = true)).
  { intros s Hs. destruct (Hcoords s Hs) as (_ & N1 & _ & N3).
    destruct (float_min_spec _ _ N1 N3) as (_ & Hm1 & Hm3).
    destruct (float_max_spec _ _ N1 N3) as (_ & HM1 & HM3).
    pose proof (Hy0 s Hs). pose proof (Hy1 s Hs).
    repeat split; eauto using float_leb_trans. }
  assert (Ax0 : exists s, In s g /\ (x0 = q0 (sl_coordinates s)
                                     \/ x0 = q2 (sl_coordinates s))).
  { exists sx0. split; [exact Hsx0|]. destruct (Hcoords _ Hsx0) as (N0 & _ & N2 & _).
    destruct (float_min_spec _ _ N0 N2) as [[E|E] _]; rewrite Ex0, E; auto. }
  assert (Ax1 : exists s, In s g /\ (x1 = q0 (sl_coordinates s)
                                     \/ x1 = q2 (sl_coordinates s))).
  { exists sx1. split; [exact Hsx1|]. destruct (Hcoords _ Hsx1) as (N0 & _ & N2 & _).
    destruct (float_max_spec _ _ N0 N2) as [[E|E] _]; rewrite Ex1, E; auto. }
  assert (Ay0 : exists s, In s g /\ (y0 = q1 (sl_coordinates s)
                                     \/ y0 = q3 (sl_coordinates s))).
  { exists sy0. split; [exact Hsy0|]. destruct (Hcoords _ Hsy0) as (_ & N1 & _ & N3).
    destruct (float_min_spec _ _ N1 N3) as [[E|E] _]; rewrite Ey0, E; auto. }
  assert (Ay1 : exists s, In s g /\ (y1 = q1 (sl_coordinates s)
                                     \/ y1 = q3 (sl_coordinates s))).
  { exists sy1. split; [exact Hsy1|]. destruct (Hcoords _ Hsy1) as (_ & N1 & _ & N3).
    destruct (float_max_spec _ _ N1 N3) as [[E|E] _]; rewrite Ey1, E; auto. }
  destruct (_ || _)%bool; [|discriminate].
  destruct (risingDiagonal _); intros H; injection H as <-;
    cbn [bl_line q0 q1 q2 q3].
  - split; [exact Hxs|]. split; [left; exact Hys|]. auto.
  - split; [exact Hxs|]. split; [right; exact Hys|]. auto.
Qed.

(** *** Signs of lengths, and the projection on a point *)

(** Rounding keeps a clear sign bit. *)
Lemma binary_round_aux_not_negative (mx ex : Z) (lx : location) :
  sfNotNegative (binary_round_aux prec emax false mx ex lx).
Proof.
  unfold binary_round_aux.
  destruct (shr_fexp prec emax mx ex lx) as [mrs e].
  destruct (shr_fexp prec emax _ e loc_Exact) as [mrs' e'].
  destruct (shr_m mrs'); simpl; auto.
  match goal with |- context [if ?c then _ else _] => destruct c end;
    exact eq_refl.
Qed.

Lemma float_square_not_negative (x : float) : sfNotNegative (Prim2SF (x * x)).
Proof.
  rewrite mul_spec. unfold SF64mul.
  destruct (Prim2SF x) as [s|s| |s m e]; cbn [SFmul sfNotNegative];
    try apply Bool.xorb_nilpotent; try exact I.
  rewrite Bool.xorb_nilpotent. apply binary_round_aux_not_negative.
Qed.

Lemma float_add_not_negative (a b : float) :
  sfNotNegative (Prim2SF a) -> sfNotNegative (Prim2SF b) ->
  sfNotNegative (Prim2SF (a + b)).
Proof.
  rewrite add_spec. unfold SF64add.
  destruct (Prim2SF a) as [sa|sa| |sa ma ea], (Prim2SF b) as [sb|sb| |sb mb eb];
    cbn [sfNotNegative]; intros Ha Hb; subst; cbn [SFadd sfNotNegative];
    try reflexivity; try exact I.
  cbn [cond_Zopp]. unfold binary_normalize. cbn [Z.add].
  unfold binary_round.
  match goal with
  | |- context [shl_align ?m ?e ?f] =>
      destruct (shl_align m e f) as [mz ez]
  end.
  apply binary_round_aux_not_negative.
Qed.

Lemma float_sqrt_not_negative (a : float) :
  sfNotNegative (Prim2SF a) -> sfNotNegative (Prim2SF (PrimFloat.sqrt a)).
Proof.
  rewrite sqrt_spec. unfold SF64sqrt.
  destruct (Prim2SF a) as [s|s| |s m e]; cbn [sfNotNegative]; intros Ha; subst;
    cbn [SFsqrt sfNotNegative]; try reflexivity; try exact I.
  destruct (SFsqrt_core_binary prec emax (Z.pos m) e) as [[mz ez] lz].
  apply binary_round_aux_not_negative.
Qed.

Lemma squares_fold_not_negative (v : list (option float)) :
  forall acc : float,
    sfNotNegative (Prim2SF acc) ->
    sfNotNegative
      (Prim2SF
         (fold_left (fun magnitudeTotal componentV =>
                       magnitudeTotal
                       + ToNumber (N := floatNumber host_asin host_acos) componentV
                         * ToNumber (N := floatNumber host_asin host_acos) componentV)
            v acc)).
Proof.
  induction v as [|x v IH]; intros acc Hacc; [exact Hacc|].
  cbn [fold_left]. apply IH.
  apply float_add_not_negative; [exact Hacc|apply float_square_not_negative].
Qed.

(** X16. On binary64 numbers no length or distance the program computes is
    negative: [pointToPointDistance], [pointToLineDistance] (in each of its
    three branches), [vectorMagnitude] and [vectorDistance] (when not
    [null]) and the length of an annotated segment are NaN or have a clear
    sign bit. *)
Theorem distances_are_not_negative :
  (forall p0 p1 : float * float,
      sfNotNegative
        (Prim2SF (pointToPointDistance (N := floatNumber host_asin host_acos) p0 p1)))
  /\ (forall (js_eqZero : float -> bool) (m b : float) (p0 : float * float),
         sfNotNegative
           (Prim2SF (pointToLineDistance (N := floatNumber host_asin host_acos)
                       js_eqZero is_nan m b p0)))
  /\ (forall (v0 : option (list (option float))) (d : float),
         vectorMagnitude (N := floatNumber host_asin host_acos) v0 = Some d ->
         sfNotNegative (Prim2SF d))
  /\ (forall (v0 v1 : list (option float)) (d : float),
         vectorDistance (N := floatNumber host_asin host_acos) v0 v1 = Some d ->
         sfNotNegative (Prim2SF d))
  /\ (forall (line : Quad float) (lineIndex : Z),
         sfNotNegative
           (Prim2SF (sl_length (analyseLine (N := floatNumber host_asin host_acos)
                                  line lineIndex)))).
Proof.
  assert (Hpp : forall p0 p1 : float * float,
             sfNotNegative
               (Prim2SF (pointToPointDistance (N := floatNumber host_asin host_acos)
                           p0 p1))).
  { intros p0 p1. unfold pointToPointDistance.
    cbn [Math_sqrt js_add js_mul js_sub floatNumber].
    apply float_sqrt_not_negative, float_add_not_negative;
      apply float_square_not_negative. }
  assert (Hvm : forall (v0 : option (list (option float))) (d : float),
             vectorMagnitude (N := floatNumber host_asin host_acos) v0 = Some d ->
             sfNotNegative (Prim2SF d)).
  { intros [v|] d; [|discriminate]. unfold vectorMagnitude. intros H.
    injection H as <-. cbn [Math_sqrt js_add js_mul js_int floatNumber].
    apply float_sqrt_not_negative, squares_fold_not_negative. reflexivity. }
  split; [exact Hpp|]. split; [|split; [exact Hvm|split]].
  - intros eq0 m b p0. unfold pointToLineDistance.
    destruct (eq0 m); [apply float_abs_not_negative|].
    destruct (is_nan m); [apply float_abs_not_negative|].
    apply Hpp.
  - intros v0 v1 d. unfold vectorDistance. apply Hvm.
  - intros line lineIndex. unfold analyseLine. cbn [sl_length].
    cbn [Math_sqrt Math_sqr js_add floatNumber].
    apply float_sqrt_not_negative, float_add_not_negative;
      apply float_square_not_negative.
Qed.

Lemma float_leb_nan (a b : float) :
  is_nan a = true -> (a <=? b) = false /\ (b <=? a) = false.
Proof.
  intros Ha. split.
  - destruct (a <=? b) eqn:E; [|reflexivity].
    destruct (float_leb_not_nan _ _ E). congruence.
  - destruct (b <=? a) eqn:E; [|reflexivity].
    destruct (float_leb_not_nan _ _ E). congruence.
Qed.

Lemma float_mul_zero_or_nan (a b : float) :
  sfZeroOrNaN (Prim2SF a) -> sfZeroOrNaN (Prim2SF (a * b)).
Proof.
  rewrite mul_spec. unfold SF64mul.
  destruct (Prim2SF a) as [sa|sa| |sa ma ea]; cbn [sfZeroOrNaN]; intros Ha;
    try contradiction;
    destruct (Prim2SF b) as [sb|sb| |sb mb eb]; exact I.
Qed.

Lemma float_add_zero_or_nan (a b : float) :
  sfZeroOrNaN (Prim2SF a) -> sfZeroOrNaN (Prim2SF b) ->
  sfZeroOrNaN (Prim2SF (a + b)).
Proof.
  rewrite add_spec. unfold SF64add.
  destruct (Prim2SF a) as [sa|sa| |sa ma ea]; cbn [sfZeroOrNaN]; intros Ha;
    try contradiction;
    destruct (Prim2SF b) as [sb|sb| |sb mb eb]; cbn [sfZeroOrNaN]; intros Hb;
    try contradiction; try exact I.
  destruct sa, sb; exact I.
Qed.

Lemma float_div_zero_is_nan (a : float) :
  sfZeroOrNaN (Prim2SF a) -> a / 0 = nan.
Proof.
  intros Ha. apply Prim2SF_inj. rewrite div_spec. unfold SF64div.
  change (Prim2SF 0) with (S754_zero false). change (Prim2SF nan) with S754_nan.
  destruct (Prim2SF a) as [sa|sa| |sa ma ea]; cbn [sfZeroOrNaN] in Ha;
    try contradiction; reflexivity.
Qed.

Lemma float_nan_add (x : float) : nan + x = nan.
Proof.
  apply Prim2SF_inj. rewrite add_spec. change (Prim2SF nan) with S754_nan.
  reflexivity.
Qed.

(** X17. On binary64 numbers a base line that is a single point with
    finite coordinates has no projection: [line2dProjectPoint] divides zero
    by zero and returns NaN in both coordinates for every point, so
    [line2dProjectedPointWithinTolerance] is false for every point and
    every tolerance. *)
Theorem line2dProjectPoint_on_a_point_is_NaN :
  forall (x y : float) (point : float * float) (tol : float),
    is_finite x = true -> is_finite y = true ->
    let base := mkQuad (Some x) (Some y) (Some x) (Some y) in
    line2dProjectPoint (N := floatNumber host_asin host_acos) base point = (nan, nan)
    /\ line2dProjectedPointWithinTolerance (N := floatNumber host_asin host_acos)
         base point tol = false.
Proof.
  intros x y [px py] tol Hx Hy. cbv zeta.
  assert (Hp : line2dProjectPoint (N := floatNumber host_asin host_acos)
                 (mkQuad (Some x) (Some y) (Some x) (Some y)) (px, py) = (nan, nan)).
  { unfold line2dProjectPoint, vector2dProject.
    cbn [q0 q1 q2 q3 ToNumber fst snd js_sub js_add js_mul js_div floatNumber].
    rewrite (float_sub_diag x Hx), (float_sub_diag y Hy).
    change (0 * 0 + 0 * 0) with 0.
    assert (Hz : sfZeroOrNaN (Prim2SF (0 * (0 * (px - x) + 0 * (py - y))))).
    { apply float_mul_zero_or_nan; exact I. }
    rewrite (float_div_zero_is_nan _ Hz), !float_nan_add. reflexivity. }
  split; [exact Hp|].
  unfold line2dProjectedPointWithinTolerance. rewrite Hp.
  unfold space2dHasPoint, space1dHasPoint.
  cbn [fst snd q0 q1 q2 q3 ToNumber js_le floatNumber].
  destruct (float_leb_nan nan x eq_refl) as [H1 H2].
  rewrite H1, H2. reflexivity.
Qed.

(** *** Horizontal and vertical segments *)

(** The length [sqrt (d * d + 0)] of an axis-aligned segment with
    difference [d], when it is a number other than zero: [d] is then a
    number other than zero too, and the length is positive. *)
Lemma axis_length_classes (d : float) :
  let len := PrimFloat.sqrt (d * d + 0) in
  is_nan len = false -> (len =? 0) = false ->
  ((exists s, Prim2SF d = S754_infinity s)
   \/ (exists s m e, Prim2SF d = S754_finite s m e))
  /\ (Prim2SF len = S754_infinity false
      \/ (exists m e, Prim2SF len = S754_finite false m e)).
Proof.
  cbv zeta. intros Hnan Hzero.
  pose proof (float_sqrt_not_negative (d * d + 0)
                (float_add_not_negative (d * d) 0 (float_square_not_negative d) eq_refl))
    as Hsign.
  rewrite float_is_nan_key in Hnan. rewrite eqb_spec in Hzero.
  change (Prim2SF 0) with (S754_zero false) in Hzero.
  split.
  - revert Hnan Hzero. rewrite sqrt_spec, add_spec, mul_spec.
    change (Prim2SF 0) with (S754_zero false).
    unfold SF64sqrt, SF64add, SF64mul.
    destruct (Prim2SF d) as [s|s| |s m e]; eauto;
      try destruct s; cbn; intros; discriminate.
  - destruct (Prim2SF (PrimFloat.sqrt (d * d + 0))) as [s|s| |s m e];
      cbn in Hsign, Hnan, Hzero; try discriminate; subst; eauto.
Qed.

(** Zero divided by a number that is neither zero nor NaN is a zero. *)
Lemma float_zero_div (d : float) :
  (exists s, Prim2SF d = S754_infinity s)
  \/ (exists s m e, Prim2SF d = S754_finite s m e) ->
  exists s, Prim2SF (0 / d) = S754_zero s.
Proof.
  rewrite div_spec. unfold SF64div. change (Prim2SF 0) with (S754_zero false).
  intros [[s ->]|(s & m & e & ->)]; cbn; eauto.
Qed.

(** A finite number times a zero is a zero. *)
Lemma float_finite_mul_zero (x z : float) :
  is_finite x = true -> (exists s, Prim2SF z = S754_zero s) ->
  exists s, Prim2SF (x * z) = S754_zero s.
Proof.
  intros Hx [sz Hz]. rewrite mul_spec, Hz. unfold SF64mul.
  destruct (float_finite_spec x Hx) as [[s ->]|(s & m & e & ->)]; cbn; eauto.
Qed.

(** A finite number minus a zero equals the number. *)
Lemma float_finite_sub_zero (y z : float) :
  is_finite y = true -> (exists s, Prim2SF z = S754_zero s) ->
  (y - z =? y) = true.
Proof.
  intros Hy [sz Hz].
  destruct (float_finite_spec y Hy) as [[s Ey]|(s & m & e & Ey)].
  - rewrite eqb_spec, sub_spec, Hz, Ey. destruct s, sz; reflexivity.
  - assert (E : y - z = y).
    { apply Prim2SF_inj. rewrite sub_spec, Hz, Ey. reflexivity. }
    rewrite E.
    assert (Hn : is_nan y = false)
      by (rewrite float_is_nan_key, Ey; destruct s; reflexivity).
    unfold is_nan in Hn. now apply Bool.negb_false_iff in Hn.
Qed.

(** Zero is below the absolute value of a number that is not zero. *)
Lemma float_zero_ltb_abs (d : float) :
  (exists s, Prim2SF d = S754_infinity s)
  \/ (exists s m e, Prim2SF d = S754_finite s m e) ->
  (0 <? abs d) = true.
Proof.
  rewrite ltb_spec, abs_spec. change (Prim2SF 0) with (S754_zero false).
  intros [[s ->]|(s & m & e & ->)]; reflexivity.
Qed.

(** X31. On binary64 numbers, for a host with the usual values of
    [Math.asin] and [Math.acos] at 0 and -1: a horizontal segment with
    finite coordinates whose computed length is a number other than zero is
    annotated with the angle 0, no x-intercept and a y-intercept equal to
    its y; a vertical one with the angle [mathPi / 2], no y-intercept and an
    x-intercept equal to its x.  This holds also when the difference of the
    coordinates or its square overflows. *)
Theorem analyseLine_axis_aligned :
  host_asin 0 = 0 -> host_acos 0 = float_half_pi -> host_acos (-1) = float_pi ->
  forall (u v w : float) (lineIndex : Z),
    is_finite u = true -> is_finite v = true ->
    (let s := analyseLine (N := floatNumber host_asin host_acos)
                (mkQuad u v w v) lineIndex in
     is_nan (sl_length s) = false -> (sl_length s =? 0) = false ->
     sl_angle s = 0 /\ sl_xint s = None
     /\ exists yint, sl_yint s = Some yint /\ (yint =? v) = true)
    /\ (let s := analyseLine (N := floatNumber host_asin host_acos)
                   (mkQuad u v u w) lineIndex in
        is_nan (sl_length s) = false -> (sl_length s =? 0) = false ->
        sl_angle s = float_half_pi /\ sl_yint s = None
        /\ exists xint, sl_xint s = Some xint /\ (xint =? u) = true).
Proof.
  intros Hasin Hacos Hpi u v w lineIndex Hu Hv.
  assert (Hm : mathPi (N := floatNumber host_asin host_acos) = float_pi)
    by (unfold mathPi; cbn; exact Hpi).
  split.
  - cbv zeta. unfold analyseLine.
    cbn [sl_angle sl_length sl_xint sl_yint q0 q1 q2 q3]. rewrite !Hm.
    cbn [js_lt js_div js_mul js_sub js_add js_neg js_int Math_abs Math_sqrt
         Math_sqr Math_asin Math_acos floatNumber].
    rewrite (float_sub_diag v Hv). change (0 * 0) with 0.
    intros Hnan Hzero.
    destruct (axis_length_classes (w - u) Hnan Hzero) as [Hd Hlen].
    assert (Hq : 0 / PrimFloat.sqrt ((w - u) * (w - u) + 0) = 0).
    { apply Prim2SF_inj. rewrite div_spec. unfold SF64div.
      change (Prim2SF 0) with (S754_zero false).
      destruct Hlen as [->|(m & e & ->)]; reflexivity. }
    change (abs 0) with 0. rewrite (float_zero_ltb_abs _ Hd), Hq, Hasin.
    split; [reflexivity|]. split; [reflexivity|].
    eexists. split; [reflexivity|].
    apply (float_finite_sub_zero v _ Hv).
    apply (float_finite_mul_zero u _ Hu). exact (float_zero_div _ Hd).
  - cbv zeta. unfold analyseLine.
    cbn [sl_angle sl_length sl_xint sl_yint q0 q1 q2 q3]. rewrite !Hm.
    cbn [js_lt js_div js_mul js_sub js_add js_neg js_int Math_abs Math_sqrt
         Math_sqr Math_asin Math_acos floatNumber].
    rewrite (float_sub_diag u Hu). change (0 * 0) with 0.
    intros Hnan Hzero.
    assert (Hcomm : 0 + (w - v) * (w - v) = (w - v) * (w - v) + 0).
    { apply Prim2SF_inj. rewrite !add_spec. unfold SF64add.
      change (Prim2SF 0) with (S754_zero false).
      pose proof (float_square_not_negative (w - v)) as Hs.
      destruct (Prim2SF ((w - v) * (w - v))) as [s|s| |s m e]; cbn in Hs; subst;
        reflexivity. }
    rewrite Hcomm in *.
    destruct (axis_length_classes (w - v) Hnan Hzero) as [Hd Hlen].
    assert (Hq : 0 / PrimFloat.sqrt ((w - v) * (w - v) + 0) = 0).
    { apply Prim2SF_inj. rewrite div_spec. unfold SF64div.
      change (Prim2SF 0) with (S754_zero false).
      destruct Hlen as [->|(m & e & ->)]; reflexivity. }
    change (abs 0) with 0.
    rewrite (float_abs_ltb_nonpos (w - v) 0 eq_refl), Hq, Hacos.
    split; [reflexivity|]. split; [reflexivity|].
    eexists. split; [reflexivity|].
    apply (float_finite_sub_zero u _ Hu).
    apply (float_finite_mul_zero v _ Hv). exact (float_zero_div _ Hd).
Qed.

End FloatScans.

(** ** The properties with a premise, on concrete inputs *)

(** Two collinear segments far apart, with tolerance 1, at the reference
    host. *)
Lemma adjacencyGroups_are_the_collinearity_groups_witness :
  let schemedLines :=
    analyseLines (N := refNumber) [mkQuad 0 0 10 0; mkQuad 100 0 200 0]%float in
  adjacencyGroups (N := refNumber) 1%float
    (collinearityGroups (N := refNumber) schemedLines tenth 1%float)
  = collinearityGroups (N := refNumber) schemedLines tenth 1%float.
Proof.
  cbv zeta.
  apply (@adjacencyGroups_are_the_collinearity_groups float refNumber).
  reflexivity.
Defined.

(** The run of the two ones in [0, 1, 1, 0]. *)
Lemma binRuns_runs_start_and_end_on_hits_witness :
  let truthy := fun z : Z => negb (z =? 0)%Z in
  let rawSeq := [0; 1; 1; 0]%Z in
  (0 <= 1 < 3)%Z /\ (3 <= Z.of_nat (length rawSeq))%Z
  /\ hitAt truthy rawSeq 1 /\ hitAt truthy rawSeq (3 - 1).
Proof.
  cbv zeta.
  apply (@binRuns_runs_start_and_end_on_hits Z (fun z : Z => negb (z =? 0)%Z)
           [0; 1; 1; 0]%Z None 1%Z 3%Z).
  left. reflexivity.
Defined.

(** The run of the two values above 1 in [0, 5, 5, 0], at the reference
    host. *)
Lemma binMinimumValueRuns_runs_witness :
  let values := [0; 5; 5; 0]%float in
  let opts := mkRunOptions 1%float None (Some 2%Z) in
  (numberOr 0 (minHeight opts) <= 3 - 1)%Z
  /\ (exists v, at_ values 1 = Some v
                /\ js_lt (JSNumber := refNumber) (minValue opts) v = true)
  /\ (exists v, at_ values (3 - 1) = Some v
                /\ js_lt (JSNumber := refNumber) (minValue opts) v = true).
Proof.
  cbv zeta.
  apply (binMinimumValueRuns_runs float refNumber [0; 5; 5; 0]%float
           (mkRunOptions 1%float None (Some 2%Z)) 1%Z 3%Z).
  left. reflexivity.
Defined.

(** [2, 3] inside [1, 2, 3, 4]: whole numbers, none of them [null]. *)
Lemma arraySubset_one_means_adjacent_run_witness :
  exists pre post : list Z, [1; 2; 3; 4]%Z = pre ++ [2; 3]%Z ++ post.
Proof.
  apply (proj2 (@arraySubset_one_means_adjacent_run Z Z.eqb Z.eqb
                  (fun _ => false) (fun _ => false)
                  (fun x y => proj1 (Z.eqb_eq x y)) [1; 2; 3; 4]%Z [2; 3]%Z
                  (fun _ _ => eq_refl))).
  reflexivity.
Defined.

(** Arrays of lengths 2 and 1 under the reference sort by difference. *)
Lemma groupSubset_answers_witness :
  groupSubsetLight Z.eqb Z.eqb (fun _ => false) (fun _ => false) [2; 1]%Z [3]%Z
  = ThrewReferenceError
  /\ groupSubset Z.eqb Z.eqb (fun _ => false) (fun _ => false) (refSort Z.sub)
       [2; 1]%Z [3]%Z
     = ThrewReferenceError.
Proof.
  apply (proj1 (@groupSubset_answers Z Z.eqb Z.eqb (fun _ => false) (fun _ => false)
                  (refSort Z.sub)
                  (fun a => Permutation_length (refSort_permutation Z.sub a))
                  [2; 1]%Z [3]%Z)).
  discriminate.
Defined.


(** A rectangle that starts left of a 10 by 10 image and is wider than it,
    with entries that are whole already (rounding leaves them): it is cut
    to [0, 3, 10, 4]. *)
Lemma rectangleConstrainValidateInImage_result_is_valid_witness :
  let img := mkImageSize 10%float 10%float in
  let rect := mkQuad (-2)%float 3%float 20%float 4%float in
  let r := mkQuad 0%float 3%float 10%float 4%float in
  (exists i rc,
      Some img = Some i /\ Some rect = Some rc
      /\ r = rectangleConstrainInImage (N := refNumber) i
               (mkQuad (q0 rc) (q1 rc) (q2 rc) (q3 rc)))
  /\ Forall (fun v => PrimFloat.is_nan v = false) (elems r)
  /\ (0 <=? q0 r)%float = true /\ (0 <=? q1 r)%float = true
  /\ (0 <? q2 r)%float = true /\ (0 <? q3 r)%float = true.
Proof.
  cbv zeta.
  apply (rectangleConstrainValidateInImage_result_is_valid refAsin refAcos
           (fun x => x) (Some (mkImageSize 10%float 10%float))
           (Some (mkQuad (-2)%float 3%float 20%float 4%float))
           (mkQuad 0%float 3%float 10%float 4%float)).
  vm_compute. reflexivity.
Defined.

(** Two segments at the reference host, (0,0,10,2) and (12,5,20,1): the
    line joins the corners (0,5) and (20,0) of their common box. *)
Lemma bigLineOf_spans_the_bounding_box_witness :
  let g := analyseLines (N := refNumber)
             [mkQuad 0 0 10 2; mkQuad 12 5 20 1]%float in
  let l := mkQuad 0%float 5%float 20%float 0%float in
  let within (lo hi v : float) :=
    (lo <=? v)%float = true /\ (v <=? hi)%float = true in
  (forall s, In s g ->
     within (q0 l) (q2 l) (q0 (sl_coordinates s))
     /\ within (q0 l) (q2 l) (q2 (sl_coordinates s)))
  /\ ((forall s, In s g ->
         within (q1 l) (q3 l) (q1 (sl_coordinates s))
         /\ within (q1 l) (q3 l) (q3 (sl_coordinates s)))
      \/ (forall s, In s g ->
            within (q3 l) (q1 l) (q1 (sl_coordinates s))
            /\ within (q3 l) (q1 l) (q3 (sl_coordinates s))))
  /\ (exists s, In s g
                /\ (q0 l = q0 (sl_coordinates s) \/ q0 l = q2 (sl_coordinates s)))
  /\ (exists s, In s g
                /\ (q2 l = q0 (sl_coordinates s) \/ q2 l = q2 (sl_coordinates s)))
  /\ (exists s, In s g
                /\ (q1 l = q1 (sl_coordinates s) \/ q1 l = q3 (sl_coordinates s)))
  /\ (exists s, In s g
                /\ (q3 l = q1 (sl_coordinates s) \/ q3 l = q3 (sl_coordinates s))).
Proof.
  cbv zeta.
  apply (bigLineOf_spans_the_bounding_box refAsin refAcos 2
           (analyseLines (N := refNumber) [mkQuad 0 0 10 2; mkQuad 12 5 20 1]%float)
           (mkBigLine 3 (mkQuad 0%float 5%float 20%float 0%float))).
  - intros s Hs. vm_compute in Hs.
    destruct Hs as [<-|[<-|[]]]; repeat constructor.
  - vm_compute. reflexivity.
Defined.

(** The point (1, 2) against the base line from (3, 4) to (3, 4), at the
    reference host. *)
Lemma line2dProjectPoint_on_a_point_is_NaN_witness :
  let base := mkQuad (Some 3%float) (Some 4%float) (Some 3%float) (Some 4%float) in
  line2dProjectPoint (N := refNumber) base (1%float, 2%float) = (nan, nan)
  /\ line2dProjectedPointWithinTolerance (N := refNumber) base (1%float, 2%float)
       10%float = false.
Proof.
  apply (line2dProjectPoint_on_a_point_is_NaN refAsin refAcos 3%float 4%float
           (1%float, 2%float) 10%float); reflexivity.
Defined.

(** The horizontal segment from (-1e308, 5) to (1e308, 5) and the vertical
    one from (-1e308, 5) to (-1e308, 1e308), at the reference host: the
    difference or its square overflows, and the computed length is
    infinite. *)
Lemma analyseLine_axis_aligned_witness :
  (let s := analyseLine (N := refNumber)
              (mkQuad (- float_1e308)%float 5%float float_1e308 5%float) 0 in
   sl_angle s = 0%float /\ sl_xint s = None
   /\ exists yint, sl_yint s = Some yint /\ (yint =? 5)%float = true)
  /\ (let s := analyseLine (N := refNumber)
                 (mkQuad (- float_1e308)%float 5%float (- float_1e308)%float
                    float_1e308) 0 in
      sl_angle s = float_half_pi /\ sl_yint s = None
      /\ exists xint, sl_xint s = Some xint
                      /\ (xint =? - float_1e308)%float = true).
Proof.
  destruct (analyseLine_axis_aligned refAsin refAcos eq_refl eq_refl eq_refl
              (- float_1e308)%float 5%float float_1e308 0 eq_refl eq_refl)
    as [H V].
  split; [apply H|apply V]; reflexivity.
Defined.
